(** * Covariance-matrix pipeline of make_Cmatrix.py: a shallow embedding

    The numpy arrays of the program are lists (one-dimensional arrays) and
    lists of rows (two-dimensional arrays) of IEEE binary64 values, Rocq's
    primitive [float].  A Python call either returns a value or raises an
    exception; the exceptions numpy raises in this program are [ValueError]
    (shapes that do not broadcast) and [IndexError] (an index out of
    bounds). *)

From Stdlib Require Import Floats Uint63 ZArith QArith Lia.
From stdpp Require Import base list sorting.

Set Default Proof Using "Type".

(** ** Outcomes of a Python call *)

Inductive exn : Type := ValueError | IndexError.

Inductive result (A : Type) : Type :=
| Ok (a : A)
| Raise (e : exn).
Arguments Ok {A} a.
Arguments Raise {A} e.

Definition rbind {A B : Type} (m : result A) (f : A -> result B) : result B :=
  match m with
  | Ok a => f a
  | Raise e => Raise e
  end.

Notation "'do' x <- m ; f" := (rbind m (fun x => f))
  (at level 10, x name, m at level 100, f at level 200,
   format "'[v' 'do'  x  <-  m ; '/' f ']'").

Fixpoint mapR {A B : Type} (f : A -> result B) (l : list A) : result (list B) :=
  match l with
  | [] => Ok []
  | a :: l' => do b <- f a; do bs <- mapR f l'; Ok (b :: bs)
  end.

Abbreviation matrix T := (list (list T)).

(** A two-dimensional array of shape (n, m). *)
Definition has_shape {T : Type} (n m : nat) (M : matrix T) : Prop :=
  length M = n /\ Forall (fun row => length row = m) M.

Section Arrays.
Context {T : Type}.

(** [M[i, j]] with numpy's bounds check. *)
Definition getitem2 (M : matrix T) (i j : nat) : result T :=
  match M !! i with
  | Some row => match row !! j with
                | Some x => Ok x
                | None => Raise IndexError
                end
  | None => Raise IndexError
  end.

(** [M[i, j] = v] on an index known to be in bounds leaves the shape
    alone; out of bounds numpy raises. *)
Definition setitem2 (M : matrix T) (i j : nat) (v : T) : result (matrix T) :=
  match M !! i with
  | Some row => if decide (j < length row)
                then Ok (<[i := <[j := v]> row]> M)
                else Raise IndexError
  | None => Raise IndexError
  end.

(** An index array as numpy builds it from a Python list of integers:
    [np.asarray] gives an empty list the element type float64, and an
    array of floats is refused as an index. *)
Record index_array : Type := {
  integer_dtype : bool;
  index_values : matrix nat
}.

Definition list_integer_dtype (x : list nat) : bool :=
  match x with
  | [] => false
  | _ :: _ => true
  end.

(** [np.meshgrid(x, y)] with the default 'xy' indexing: both outputs have
    shape (len y, len x); the first repeats [x] along the rows and has the
    element type of [x], the second repeats each entry of [y] along its
    row and has the element type of [y]. *)
Definition meshgrid (x y : list nat) : index_array * index_array :=
  ({| integer_dtype := list_integer_dtype x;
      index_values := map (fun _ => x) y |},
   {| integer_dtype := list_integer_dtype y;
      index_values := map (fun ya => map (fun _ => ya) x) y |}).

(** [M[X, Y]] for two index arrays of one shape (advanced indexing): a
    fresh array with [out[a][b] = M[X[a][b], Y[a][b]]].  Index arrays that
    are not of an integer type raise IndexError. *)
Definition fancy_index2 (M : matrix T) (X Y : index_array) : result (matrix T) :=
  if integer_dtype X && integer_dtype Y
  then mapR (fun xy : list nat * list nat =>
               mapR (fun ij : nat * nat => getitem2 M ij.1 ij.2) (zip xy.1 xy.2))
            (zip (index_values X) (index_values Y))
  else Raise IndexError.
End Arrays.

(** [np.where(mask)[0]]: the indices of the truthy entries, ascending.  Only
    the truth value of a mask entry is read, so a mask is a list of
    booleans. *)
Fixpoint where_from (i : nat) (mask : list bool) : list nat :=
  match mask with
  | [] => []
  | b :: mask' => if b then i :: where_from (S i) mask' else where_from (S i) mask'
  end.

Definition np_where (mask : list bool) : list nat := where_from 0 mask.

(** [pixel in bigMaskVec] on an integer array. *)
Definition np_in (pixel : nat) (vec : list nat) : bool := existsb (Nat.eqb pixel) vec.

(** ** subMatrix2 *)

(** What [subMatrix2] hands back: the integer 0 of its error exit, or an
    array. *)
Inductive pyret (T : Type) : Type :=
| RetInt (z : Z)
| RetArray (m : matrix T).
Arguments RetInt {T} z.
Arguments RetArray {T} m.

(** The check loop
[[
  for pixel in maskVec:
    if pixel not in bigMaskVec:
      print 'error: small mask contains pixel outside of big mask.'
      return 0
]]
    as the test "the loop took its [return 0]". *)
Fixpoint pixel_outside (maskVec bigMaskVec : list nat) : bool :=
  match maskVec with
  | [] => false
  | pixel :: rest =>
      if negb (np_in pixel bigMaskVec) then true else pixel_outside rest bigMaskVec
  end.

(** [[bigI for bigI in range(bigMaskVec.size) for subI in range(maskVec.size)
      if maskVec[subI] == bigMaskVec[bigI]]] *)
Definition subVec_of (maskVec bigMaskVec : list nat) : list nat :=
  flat_map (fun bigI =>
    flat_map (fun subI =>
      if Nat.eqb (nth subI maskVec 0) (nth bigI bigMaskVec 0) then [bigI] else [])
      (seq 0 (length maskVec)))
    (seq 0 (length bigMaskVec)).

(** The caller's [cMatrix] object is threaded through the call: a
    computation takes the array as it finds it and returns its outcome
    together with the array as it leaves it. *)
Definition St (T A : Type) : Type := matrix T -> result A * matrix T.

Section Store.
Context {T : Type}.

Definition st_ret {A : Type} (a : A) : St T A := fun cm => (Ok a, cm).

Definition st_bind {A B : Type} (m : St T A) (f : A -> St T B) : St T B :=
  fun cm => match m cm with
            | (Ok a, cm') => f a cm'
            | (Raise e, cm') => (Raise e, cm')
            end.

(** [cMatrix[[X, Y]]]: advanced indexing reads the array and builds a
    copy. *)
Definition st_fancy_index (X Y : index_array) : St T (matrix T) :=
  fun cm => (fancy_index2 cm X Y, cm).

Definition subMatrix2 (mask bigMask : list bool) (nested : bool) : St T (pyret T) :=
  let maskVec := np_where mask in
  let bigMaskVec := np_where bigMask in
  if pixel_outside maskVec bigMaskVec then st_ret (RetInt 0)
  else
    let subVec := subVec_of maskVec bigMaskVec in
    let grids := meshgrid subVec subVec in
    st_bind (st_fancy_index grids.1 grids.2) (fun subCmat =>
    st_ret (RetArray subCmat)).
End Store.


(** A matrix is symmetric when every two mirrored reads agree, bit for
    bit. *)
Definition symmetric {T : Type} (M : matrix T) : Prop :=
  forall i j, getitem2 M i j = getitem2 M j i.

(** ** Element types

    The array code is written once for any element type with numpy's
    arithmetic; the program runs it at binary64, and the algebraic content
    of the mean correction is also read at the rationals. *)
Class Dtype (T : Type) : Type := {
  zero : T;
  one : T;
  add : T -> T -> T;
  sub : T -> T -> T;
  mul : T -> T -> T;
  div : T -> T -> T;
  of_nat : nat -> T   (* a Python int used in float arithmetic *)
}.

#[export] Instance float64 : Dtype float := {|
  zero := 0%float;
  one := 1%float;
  add := PrimFloat.add;
  sub := PrimFloat.sub;
  mul := PrimFloat.mul;
  div := PrimFloat.div;
  of_nat := fun n => PrimFloat.of_uint63 (Uint63.of_Z (Z.of_nat n))
|}.

#[export] Instance rational : Dtype Q := {|
  zero := 0%Q;
  one := 1%Q;
  add := Qplus;
  sub := Qminus;
  mul := Qmult;
  div := Qdiv;
  of_nat := fun n => inject_Z (Z.of_nat n)
|}.

(** A loop [for a in l: s = body(a, s)] whose body may raise. *)
Fixpoint for_each {S A : Type} (body : A -> S -> result S) (l : list A) (s : S)
  : result S :=
  match l with
  | [] => Ok s
  | a :: l' => do s' <- body a s; for_each body l' s'
  end.

(** [range(a, b)] *)
Definition py_range (a b : nat) : list nat := seq a (b - a).

Section Numeric.
Context {T : Type} `{Dtype T}.

(** The second dimension of a two-dimensional array; an array without
    rows is taken to have shape (0, 0). *)
Definition ncols (M : matrix T) : nat :=
  match M with
  | [] => 0
  | row :: _ => length row
  end.

(** [M[i][j]] where the index is known to be in bounds. *)
Definition entry (M : matrix T) (i j : nat) : T := nth j (nth i M []) zero.

(** The array with [f i j] at position (i, j). *)
Definition tabulate (n m : nat) (f : nat -> nat -> T) : matrix T :=
  map (fun i => map (fun j => f i j) (seq 0 m)) (seq 0 n).

(** [np.zeros([n, m])] *)
Definition zeros2 (n m : nat) : matrix T := replicate n (replicate m zero).

(** [np.triu_indices(n, m=m)]: the positions on and above the diagonal,
    row by row. *)
Definition triu_indices (n m : nat) : list (nat * nat) :=
  flat_map (fun i => map (fun j => (i, j)) (seq i (m - i))) (seq 0 n).

(** The assignments [array[i, j] = v] made in the order of a list. *)
Definition setitem_pairs (array : matrix T) (ivs : list ((nat * nat) * T))
  : result (matrix T) :=
  for_each (fun iv A => setitem2 A iv.1.1 iv.1.2 iv.2) ivs array.

(** [array[indices] = values] for a pair of index arrays given as a list
    of positions: the values must broadcast to the number of positions
    (as many values as positions, or a single value; ValueError otherwise)
    and every position must be in bounds (IndexError otherwise). *)
Definition setitem_fancy (array : matrix T) (indices : list (nat * nat))
    (values : list T) : result (matrix T) :=
  if length values =? length indices then setitem_pairs array (zip indices values)
  else match values with
       | [v] => setitem_pairs array (map (fun ij => (ij, v)) indices)
       | _ => Raise ValueError
       end.

(** [np.transpose(M)] *)
Definition transpose (M : matrix T) : matrix T :=
  map (fun j => map (fun row => nth j row zero) M) (seq 0 (ncols M)).

(** [np.diag] of a two-dimensional array: its diagonal. *)
Definition np_diag_vec (M : matrix T) : list T :=
  map (fun i => entry M i i) (seq 0 (min (length M) (ncols M))).

(** [np.diag] of a one-dimensional array: the square array with it on the
    diagonal and zeros elsewhere. *)
Definition np_diag_mat (v : list T) : matrix T :=
  imap (fun i x => <[i := x]> (replicate (length v) zero)) v.

(** Broadcasting of one dimension: equal lengths, or one of them 1. *)
Definition bdim (a b : nat) : result nat :=
  if a =? b then Ok a
  else if a =? 1 then Ok b
  else if b =? 1 then Ok a
  else Raise ValueError.

Definition stretch {X : Type} (n : nat) (l : list X) : list X :=
  if length l =? n then l
  else match l with
       | [x] => replicate n x
       | _ => l
       end.

(** An elementwise binary operation on two two-dimensional arrays, with
    numpy's broadcasting of each dimension. *)
Definition bcast2 (op : T -> T -> T) (A B : matrix T) : result (matrix T) :=
  do n <- bdim (length A) (length B);
  do m <- bdim (ncols A) (ncols B);
  Ok (zip_with (fun ra rb => zip_with op (stretch m ra) (stretch m rb))
               (stretch n A) (stretch n B)).

(** An operation between the elements of an array and a scalar. *)
Definition map_scalar (op : T -> T -> T) (A : matrix T) (s : T) : matrix T :=
  map (map (fun x => op x s)) A.

(** A sum accumulated from 0 in index order: what a reduction along a
    strided axis does, and the model of the dot products. *)
Definition np_sum (v : list T) : T := fold_left add v zero.

(** *** The summation order of [np.sum] on a contiguous run

    Over a contiguous run of values numpy's [add.reduce] calls its
    pairwise summation: fewer than 8 values are added in index order from
    0; up to 128 values are added into 8 accumulators, element [i] into
    accumulator [i mod 8], the accumulators are added as a balanced tree
    and what is left after the last full group of 8 is added in index
    order; a longer run is cut at [n2], the half of its length rounded
    down to a multiple of 8, and the sums of the two parts are added.  The
    value of the run is added to the 0 the result starts from. *)
Definition acc8 : Type := T * T * T * T * T * T * T * T.

Fixpoint accumulate8 (r : acc8) (a : list T) : acc8 * list T :=
  match a with
  | a0 :: a1 :: a2 :: a3 :: a4 :: a5 :: a6 :: a7 :: a' =>
      let '(r0, r1, r2, r3, r4, r5, r6, r7) := r in
      accumulate8 (add r0 a0, add r1 a1, add r2 a2, add r3 a3,
                   add r4 a4, add r5 a5, add r6 a6, add r7 a7) a'
  | _ => (r, a)
  end.

Definition block_sum (a : list T) : T :=
  match a with
  | a0 :: a1 :: a2 :: a3 :: a4 :: a5 :: a6 :: a7 :: a' =>
      let '((r0, r1, r2, r3, r4, r5, r6, r7), rest) :=
        accumulate8 (a0, a1, a2, a3, a4, a5, a6, a7) a' in
      fold_left add rest
        (add (add (add r0 r1) (add r2 r3)) (add (add r4 r5) (add r6 r7)))
  | _ => fold_left add a zero
  end.

(** The recursion on runs of more than 128 values halves the run each
    time: [fuel] bounds its depth, and the length of the run is more than
    enough. *)
Fixpoint pairwise_sum_rec (fuel : nat) (a : list T) : T :=
  let n := length a in
  if n <=? 128 then block_sum a
  else match fuel with
       | 0 => block_sum a
       | S fuel' =>
           let n2 := n / 2 - (n / 2) mod 8 in
           add (pairwise_sum_rec fuel' (take n2 a)) (pairwise_sum_rec fuel' (drop n2 a))
       end.

Definition pairwise_sum (a : list T) : T := pairwise_sum_rec (length a) a.

(** [np.sum] of a contiguous one-dimensional array. *)
Definition add_reduce (a : list T) : T := add zero (pairwise_sum a).

(** [np.sum(M, axis=1)]: one sum per row, each row a contiguous run. *)
Definition sum_axis1 (M : matrix T) : list T := map add_reduce M.

(** [np.sum(M, axis=0)]: one sum per column; the rows are added to the
    result one after the other, so each column is accumulated from 0 in
    index order. *)
Definition sum_axis0 (M : matrix T) : list T :=
  map (fun j => np_sum (map (fun row => nth j row zero) M)) (seq 0 (ncols M)).

(** [np.sum(M)]: the sum of all entries, the whole array being one
    contiguous run. *)
Definition sum_all (M : matrix T) : T := add_reduce (concat M).

(** [np.reshape(np.repeat(c2, size), (size, size))] for [c2] of length
    [size]: entry (i, j) is [c2[i]]. *)
Definition repeat_rows (c2 : list T) (size : nat) : matrix T :=
  map (fun x => replicate size x) c2.

(** [np.dot] of two two-dimensional arrays: the inner dimensions must
    agree; each entry accumulates its products from 0 in index order. *)
Definition np_dot (A B : matrix T) : result (matrix T) :=
  if ncols A =? length B
  then Ok (map (fun rowA =>
                  map (fun colB => np_sum (zip_with mul rowA colB)) (transpose B)) A)
  else Raise ValueError.

(** ** symSave and symLoad

    [symSave] writes [saveMe[np.triu_indices_from(saveMe)]] to the file;
    the model returns the array that is written.  [symLoad] takes the
    array read from the file. *)
Definition symSave (saveMe : matrix T) : result (list T) :=
  mapR (fun ij : nat * nat => getitem2 saveMe ij.1 ij.2)
       (triu_indices (length saveMe) (ncols saveMe)).

(** [n = -1/2. + np.sqrt(1/4. + 2*loaded.size)] is a double.  It is
    modelled by the real number (sqrt(1 + 8 size) - 1) / 2, which the
    double equals whenever it is an integer and approximates without
    crossing an integer otherwise, for every size below 2^50: [sym_n_floor]
    is its integer part and [sym_n_integral] tells whether it is an
    integer. *)
Definition sym_n_floor (size : nat) : nat :=
  Z.to_nat ((Z.sqrt (1 + 8 * Z.of_nat size) - 1) / 2).

Definition sym_n_integral (size : nat) : bool :=
  let s := Z.sqrt (1 + 8 * Z.of_nat size) in
  (s * s =? 1 + 8 * Z.of_nat size)%Z.

Definition sym_n_ceil (size : nat) : nat :=
  if sym_n_integral size then sym_n_floor size else S (sym_n_floor size).

(** [np.zeros([n, n])] truncates a float dimension to an integer;
    [np.triu_indices(n)] builds its ranges with [arange(n)], which has
    ceil(n) entries. *)
Definition symLoad (loaded : list T) : result (matrix T) :=
  let size := length loaded in
  let array := zeros2 (sym_n_floor size) (sym_n_floor size) in
  let indices := triu_indices (sym_n_ceil size) (sym_n_ceil size) in
  do array <- setitem_fancy array indices loaded;
  do t <- bcast2 add array (transpose array);
  bcast2 sub t (np_diag_mat (np_diag_vec array)).

(** ** cMatCorrect *)
Definition cMatCorrect (cMatrix : matrix T) : result (matrix T) :=
  let size := length cMatrix in
  let c1 := sum_axis0 cMatrix in
  let c2 := sum_axis1 cMatrix in
  let c3 := sum_all cMatrix in
  let c2mat := repeat_rows c2 size in
  do t1 <- bcast2 sub cMatrix [map (fun x => div x (of_nat size)) c1];
  do t2 <- bcast2 sub t1 (map_scalar div c2mat (of_nat size));
  Ok (map_scalar add t2 (div c3 (of_nat (size * size)))).

(** ** RDInvert *)
Definition RDInvert (eigVals : list T) (eigVecs : matrix T) : result (matrix T) :=
  let diagInv := np_diag_mat (map (fun x => div one x) eigVals) in
  let eigVecsTranspose := transpose eigVecs in
  do t <- np_dot eigVecs diagInv;
  np_dot t eigVecsTranspose.
End Numeric.


(** ** legval

    [numpy.polynomial.legendre.legval(x, c)] for a scalar [x] and a
    one-dimensional coefficient array [c]: Clenshaw's recurrence from the
    last coefficient down.  An empty [c] fails at [c[-2]]. *)
Fixpoint clenshaw (x : float) (rest : list float) (nd : nat) (c0 c1 : float)
  : float * float :=
  match rest with
  | [] => (c0, c1)
  | ci :: rest' =>
      let nd := nd - 1 in
      clenshaw x rest' nd
        (ci - (c1 * of_nat (nd - 1)) / of_nat nd)%float
        (c0 + ((c1 * x) * of_nat (2 * nd - 1)) / of_nat nd)%float
  end.

Definition legval_series (x : float) (c : list float) : float :=
  match rev c with
  | [] => 0%float
  | [c0] => (c0 + 0 * x)%float
  | clast :: cprev :: rest =>
      let '(c0, c1) := clenshaw x rest (length c) cprev clast in
      (c0 + c1 * x)%float
  end.

Definition legval (x : float) (c : list float) : result float :=
  match c with
  | [] => Raise IndexError
  | _ => Ok (legval_series x c)
  end.

(** ** makeCmatrix *)

(** [np.pi] *)
Definition np_pi : float := 0x1.921fb54442d18p+1%float.

(** [W_l] and [B_l] are either the Python float 1.0 or an array. *)
Inductive factor : Type :=
| Scalar (x : float)
| Vector (v : list float).

(** [f**2]: numpy squares an array elementwise; 1.0**2 is 1.0. *)
Definition factor_sq (f : factor) : factor :=
  match f with
  | Scalar x => Scalar (x * x)%float
  | Vector v => Vector (map (fun x => (x * x)%float) v)
  end.

(** [v * f] on a one-dimensional array, with broadcasting. *)
Definition factor_mul (v : list float) (f : factor) : result (list float) :=
  match f with
  | Scalar x => Ok (map (fun a => (a * x)%float) v)
  | Vector w =>
      do n <- bdim (length v) (length w);
      Ok (zip_with PrimFloat.mul (stretch n v) (stretch n w))
  end.

(** [array[indices]] on a one-dimensional array. *)
Definition take_indices (array : list float) (indices : list nat) : result (list float) :=
  mapR (fun i => match array !! i with
                 | Some x => Ok x
                 | None => Raise IndexError
                 end) indices.

(** [np.dot] of two unit vectors, accumulated in index order. *)
Definition dot3 (u v : float * float * float) : float :=
  let '(ux, uy, uz) := u in
  let '(vx, vy, vz) := v in
  (ux * vx + uy * vy + uz * vz)%float.

Section MakeCmatrix.
(** healpy's part: [hp.rotator.dir2vec(lon, lat, lonlat=True)] for one
    direction, the pixel window [hp.pixwin(64)], and
    [hp.gauss_beam(fwhm, lmax=lmax)]. *)
Variable dir2vec : float -> float -> float * float * float.
Variable Wpix : list float.
Variable gauss_beam : float -> nat -> list float.

(** The block
[[
if pixWin:
  lmax = 250
  Wpix = hp.pixwin(64)
  W_l = Wpix[:lmax+1]
else:
  W_l = 1.0
if beamSmooth:
  lmax = 250
  B_l = hp.gauss_beam(120./60*np.pi/180,lmax=lmax)
else:
  B_l = 1.0
]]
    returns the value of [lmax] it leaves, with [W_l] and [B_l]. *)
Definition smoothing (pixWin beamSmooth : bool) (lmax : nat) : nat * factor * factor :=
  let '(lmax, W_l) :=
    if pixWin then (250, Vector (take (250 + 1) Wpix)) else (lmax, Scalar 1%float) in
  let '(lmax, B_l) :=
    if beamSmooth
    then (250, Vector (gauss_beam (120 / 60 * np_pi / 180)%float 250))
    else (lmax, Scalar 1%float) in
  (lmax, W_l, B_l).

(** [preFac_l], from the power spectrum read by [getCl] ([ell] is
    [arange] of its size). *)
Definition preFactor (C_l : list float) (highpass : nat) (beamSmooth pixWin : bool)
    (lmax : nat) (useMicro : bool) : result (list float) :=
  let ell := seq 0 (length C_l) in
  let '(lmax, W_l, B_l) := smoothing pixWin beamSmooth lmax in
  let fac_l :=
    map (fun l => (of_nat (2 * l + 1) / (4 * np_pi))%float) (take (lmax + 1) ell) in
  let C_l := replicate highpass 0%float ++ drop highpass C_l in
  let C_l := if useMicro then map (fun c => (c * 1e12)%float) C_l else C_l in
  do t <- factor_mul fac_l (factor_sq B_l);
  do t <- factor_mul t (factor_sq W_l);
  factor_mul t (Vector (take (lmax + 1) C_l)).

(** The cosine loop: the diagonal is set to 1.0 and the entries to its
    right to the dot products; [unitVectors] is held as the list of its
    columns. *)
Definition cosTheta (unitVectors : list (float * float * float)) (vecSize : nat)
  : result (matrix float) :=
  for_each (fun row A =>
    do A <- setitem2 A row row 1%float;
    for_each (fun column A =>
      match unitVectors !! row, unitVectors !! column with
      | Some u, Some v => setitem2 A row column (dot3 u v)
      | _, _ => Raise IndexError
      end) (py_range (row + 1) vecSize) A)
    (py_range 0 vecSize) (zeros2 vecSize vecSize).

(** The Legendre loop over the upper triangle. *)
Definition covUpper (cosThetaArray : matrix float) (preFac_l : list float)
    (vecSize : nat) : result (matrix float) :=
  for_each (fun row A =>
    for_each (fun column A =>
      do x <- getitem2 cosThetaArray row column;
      do v <- legval x preFac_l;
      setitem2 A row column v) (py_range row vecSize) A)
    (py_range 0 vecSize) (zeros2 vecSize vecSize).

(** [makeCmatrix] on the maps its readers return: the mask, the power
    spectrum and the two coordinate maps (the [nested] flag only selects
    the coordinate file and the ordering the readers use). *)
Definition makeCmatrix (mask : list bool) (C_l gl gb : list float) (highpass : nat)
    (beamSmooth pixWin : bool) (lmax : nat) (useMicro : bool)
  : result (matrix float) :=
  do myGl <- take_indices gl (np_where mask);
  do myGb <- take_indices gb (np_where mask);
  let unitVectors := zip_with dir2vec myGl myGb in
  let vecSize := length myGl in
  do cosThetaArray <- cosTheta unitVectors vecSize;
  do preFac_l <- preFactor C_l highpass beamSmooth pixWin lmax useMicro;
  do covArray <- covUpper cosThetaArray preFac_l vecSize;
  do t <- bcast2 add covArray (transpose covArray);
  bcast2 sub t (np_diag_mat (np_diag_vec covArray)).
End MakeCmatrix.

(** ** Reading a sequence of assignments

    The array left by the assignments [array[i, j] = v] made in the order of
    a list, as a function of the position: a later assignment to a position
    overrides an earlier one. *)
Fixpoint assigned {T : Type} (ivs : list ((nat * nat) * T)) (f : nat -> nat -> T)
  : nat -> nat -> T :=
  match ivs with
  | [] => f
  | iv :: rest =>
      assigned rest (fun a b => if decide (a = iv.1.1 /\ b = iv.1.2) then iv.2 else f a b)
  end.

(** ** Classes of doubles

    [is_neg_zero x]: [x] is the double -0.0.  [below_half_max x]: [x] is a
    finite double of magnitude below 2^1023, so that [x + x] does not
    overflow. *)
Definition is_neg_zero (x : float) : bool :=
  match classify x with
  | NZero => true
  | _ => false
  end.

Definition below_half_max (x : float) : bool := (abs x <? 0x1p1023)%float.

(** The upper triangle filled from [g], zero below the diagonal. *)
Definition upper_of {T : Type} `{Dtype T} (g : nat -> nat -> T) (i j : nat) : T :=
  if decide (i <= j) then g i j else zero.

(** ** The products of the specification, entry by entry

    [spec_matmul n A B] is the n-term matrix product of two entry functions
    and [spec_diag_inv eigVals] the diagonal matrix of the reciprocals, the
    spec's V·Λ⁻¹·Vᵗ; [spec_cMatCorrect] is the spec's
    C_ij − r_i/N − c_j/N + T/N², with the subtractions in the order the
    code makes them. *)
Definition spec_matmul {T : Type} `{Dtype T} (n : nat) (A B : nat -> nat -> T)
  : nat -> nat -> T :=
  fun i j => np_sum (map (fun k => mul (A i k) (B k j)) (seq 0 n)).

Definition spec_diag_inv {T : Type} `{Dtype T} (eigVals : list T) : nat -> nat -> T :=
  fun l k => if decide (l = k) then div one (nth l eigVals zero) else zero.

Definition spec_RDInvert {T : Type} `{Dtype T} (n : nat) (eigVals : list T)
    (eigVecs : matrix T) : matrix T :=
  tabulate n n
    (spec_matmul n (spec_matmul n (entry eigVecs) (spec_diag_inv eigVals))
                 (fun k j => entry eigVecs j k)).

Definition row_sum {T : Type} `{Dtype T} (C : matrix T) (i : nat) : T :=
  add_reduce (nth i C []).

Definition col_sum {T : Type} `{Dtype T} (C : matrix T) (j : nat) : T :=
  np_sum (map (fun row => nth j row zero) C).

Definition spec_cMatCorrect {T : Type} `{Dtype T} (n : nat) (C : matrix T) : matrix T :=
  tabulate n n (fun i j =>
    add (sub (sub (entry C i j) (div (col_sum C j) (of_nat n)))
             (div (row_sum C i) (of_nat n)))
        (div (sum_all C) (of_nat (n * n)))).

(** ** What the loops of makeCmatrix compute, entry by entry

    [cos_entry unitVectors i j] is what the cosine loop stores at (i, j) on
    or above the diagonal; [series_entry] is the Legendre series evaluated
    there. *)
Definition cos_entry (unitVectors : list (float * float * float)) (i j : nat) : float :=
  if decide (i = j) then 1%float
  else dot3 (nth i unitVectors (0, 0, 0)%float) (nth j unitVectors (0, 0, 0)%float).

Definition series_entry (unitVectors : list (float * float * float))
    (preFac_l : list float) (i j : nat) : float :=
  legval_series (cos_entry unitVectors i j) preFac_l.

(** The value of [lmax] the smoothing block leaves. *)
Definition effective_lmax (beamSmooth pixWin : bool) (lmax : nat) : nat :=
  if beamSmooth then 250 else if pixWin then 250 else lmax.

(** Inputs on which the array operations of makeCmatrix have matching
    shapes: the coordinate maps cover the mask, the power spectrum reaches
    the truncation multipole, and healpy's tables have the sizes healpy
    gives them. *)
Definition valid_input (Wpix : list float) (gauss_beam : float -> nat -> list float)
    (mask : list bool) (C_l gl gb : list float) (beamSmooth pixWin : bool)
    (lmax : nat) : Prop :=
  length mask <= length gl /\
  length mask <= length gb /\
  effective_lmax beamSmooth pixWin lmax < length C_l /\
  (pixWin = true -> 251 <= length Wpix) /\
  (beamSmooth = true -> length (gauss_beam (120 / 60 * np_pi / 180)%float 250) = 251).

(** A factor that multiplies an array of [n] entries without an error. *)
Definition factor_fits (n : nat) (f : factor) : Prop :=
  match f with
  | Scalar _ => True
  | Vector u => length u = n
  end.

(** The prefactor of multipole [l] with both smoothing flags set:
    (2l+1)/(4 pi) times the squared beam, the squared pixel window and
    the power spectrum (high-passed, in microkelvin on request), with the
    operations in the order of [fac_l *B_l**2 *W_l**2 *C_l[:lmax+1]]. *)
Definition smoothed_weight (Wpix : list float) (gauss_beam : float -> nat -> list float)
    (C_l : list float) (highpass : nat) (useMicro : bool) (l : nat) : float :=
  let b := nth l (gauss_beam (120 / 60 * np_pi / 180)%float 250) 0%float in
  let w := nth l Wpix 0%float in
  let c := nth l (replicate highpass 0%float ++ drop highpass C_l) 0%float in
  let c := if useMicro then (c * 1e12)%float else c in
  (of_nat (2 * l + 1) / (4 * np_pi) * (b * b) * (w * w) * c)%float.

(** The unit vectors of the active pixels, as makeCmatrix builds them. *)
Definition unit_vectors (dir2vec : float -> float -> float * float * float)
    (mask : list bool) (gl gb : list float) : list (float * float * float) :=
  zip_with dir2vec (map (fun i => nth i gl 0%float) (np_where mask))
                   (map (fun i => nth i gb 0%float) (np_where mask)).

(** [U + U.T - diag(diag(U))] for the array [U] that holds [g] on and above
    the diagonal and zeros below. *)
Definition mirrored {T : Type} `{Dtype T} (g : nat -> nat -> T) (i j : nat) : T :=
  sub (add (upper_of g i j) (upper_of g j i))
      (if decide (i = j) then upper_of g i i else zero).

(** ** A stand-in for healpy

    Concrete tables of the sizes healpy returns for NSIDE = 64 (a pixel
    window of 4*64 + 1 entries, a beam of lmax + 1 entries) and a direction
    map, on which the model can be run. *)
Definition sample_dir2vec (lon lat : float) : float * float * float :=
  (lon, lat, 0%float).

Definition sample_Wpix : list float := replicate 257 1%float.

Definition sample_gauss_beam (fwhm : float) (lmax : nat) : list float :=
  replicate (lmax + 1) 1%float.

(** * The rest of make_Cmatrix.py and the loop of chisquare_test.py *)

From Stdlib Require Import Qpower.

Section MoreNumeric.
Context {T : Type} `{Dtype T}.

(** ** powerArray

[[
  pows = np.array([1])
  for power in range(1,powMax):
    pows = np.concatenate((pows,np.array([pows[power-1]*x])))
  return pows
]]
    The first entry is the integer 1, which numpy converts to the element
    type of [x] when it concatenates. *)
Definition powerArray (x : T) (powMax : nat) : result (list T) :=
  for_each (fun power pows =>
              match pows !! (power - 1) with
              | Some p => Ok (pows ++ [mul p x])
              | None => Raise IndexError
              end)
           (py_range 1 powMax) [one].

(** ** subMatrix

    The wrapper reads the two masks and the compact matrix file, decodes
    the file with [symLoad] and calls [subMatrix2]; the model takes the
    masks and the array read from the file. *)
Definition subMatrix (mask bigMask : list bool) (cMatrixFile : list T)
    (nested : bool) : result (pyret T) :=
  do cMatrix <- symLoad cMatrixFile;
  (subMatrix2 mask bigMask nested cMatrix).1.

(** ** makeLegendreTable

    [coefs[i, :k] = values]: the first [k] entries of row [i] (fewer when
    the row is shorter) are replaced; the values must be as many as the
    slice, or a single one. *)
Definition setitem_row_slice (A : matrix T) (i k : nat) (values : list T)
  : result (matrix T) :=
  match A !! i with
  | None => Raise IndexError
  | Some row =>
      let k' := min k (length row) in
      if length values =? k' then Ok (<[i := values ++ drop k' row]> A)
      else match values with
           | [v] => Ok (<[i := replicate k' v ++ drop k' row]> A)
           | _ => Raise ValueError
           end
  end.

(** [legendre ell] stands for [scipy.special.legendre(ell).coeffs], the
    coefficients of P_ell from the highest power down; the model returns
    the array [symSave] writes. *)
Definition makeLegendreTable (legendre : nat -> list T) (lmax : nat)
  : result (list T) :=
  do coefs <- for_each (fun ell coefs =>
                          setitem_row_slice coefs ell (ell + 1) (rev (legendre ell)))
                       (py_range 0 (lmax + 1)) (zeros2 (lmax + 1) (lmax + 1));
  symSave coefs.

(** ** The chi-square loop of chisquare_test.test

    [array[indices]] on a one-dimensional array of any element type. *)
Definition take_at (array : list T) (indices : list nat) : result (list T) :=
  mapR (fun i => match array !! i with
                 | Some x => Ok x
                 | None => Raise IndexError
                 end) indices.

(** [np.dot] of a two-dimensional array and a one-dimensional one. *)
Definition np_dot_mv (A : matrix T) (v : list T) : result (list T) :=
  if ncols A =? length v
  then Ok (map (fun row => np_sum (zip_with mul row v)) A)
  else Raise ValueError.

(** [np.dot] of two one-dimensional arrays. *)
Definition np_dot_vv (u v : list T) : result T :=
  if length u =? length v
  then Ok (np_sum (zip_with mul u v))
  else Raise ValueError.

(** The factor 1e6 from K to microK (1000 * 1000, exact in binary64). *)
Definition micro_scale : T := mul (of_nat 1000) (of_nat 1000).

(** One trial: [Tvec = map[np.where(mask)]], the optional rescaling
    [Tvec*1e6], and [np.dot(Tvec,np.dot(invCMat,Tvec))]. *)
Definition chiSq_trial (invCMat : matrix T) (mask : list bool) (useMicro : bool)
    (map_ : list T) : result T :=
  do Tvec <- take_at map_ (np_where mask);
  let Tvec := if useMicro then map (fun t => mul t micro_scale) Tvec else Tvec in
  do w <- np_dot_mv invCMat Tvec;
  np_dot_vv Tvec w.

(** The loop over the trials, on the maps the generator returns one after
    the other. *)
Definition chiSq_loop (invCMat : matrix T) (mask : list bool) (useMicro : bool)
    (maps : list (list T)) : result (list T) :=
  mapR (chiSq_trial invCMat mask useMicro) maps.
End MoreNumeric.

(** The list [p; p*x; (p*x)*x; ...] of [k] entries. *)
Fixpoint pow_list {T : Type} `{Dtype T} (x p : T) (k : nat) : list T :=
  match k with
  | 0 => []
  | S k' => p :: pow_list x (mul p x) k'
  end.

(** The leading coefficient of [legendre ell] on the diagonal, zero
    elsewhere: what is left of the Legendre table above the diagonal. *)
Definition leading_only {T : Type} `{Dtype T} (legendre : nat -> list T)
    (i j : nat) : T :=
  if decide (i = j) then nth 0 (legendre i) zero else zero.

(** Kronecker's delta: the entries of the identity matrix. *)
Definition delta (i j : nat) : Q := if decide (i = j) then 1%Q else 0%Q.

(** The entries of [np.diag(v)] at the rationals. *)
Definition diag_of (v : list Q) (i j : nat) : Q :=
  if decide (i = j) then nth i v 0%Q else 0%Q.

(** Two entry functions agree, up to the equality of rationals, on the
    n by n positions. *)
Definition meq (n : nat) (A B : nat -> nat -> Q) : Prop :=
  forall i j, i < n -> j < n -> (A i j == B i j)%Q.

(** The entries of the transposed matrix. *)
Definition transposed (A : nat -> nat -> Q) (i j : nat) : Q := A j i.

(** ** choInvert

[[
  L = np.linalg.cholesky(cMatrix)
  Linv = np.linalg.inv(L)
  cMatInv = np.dot(Linv.T,Linv)
]]
    [cholesky] and [inv] stand for the two LAPACK-backed functions of
    [np.linalg]; a failure of either is passed on. *)
Section ChoInvert.
Context {T : Type} `{Dtype T}.
Variable cholesky : matrix T -> result (matrix T).
Variable inv : matrix T -> result (matrix T).

Definition choInvert (cMatrix : matrix T) : result (matrix T) :=
  do L <- cholesky cMatrix;
  do Linv <- inv L;
  np_dot (transpose Linv) Linv.
End ChoInvert.

(** ** legval at any element type

    The recurrence of [legval], written for any element type; at binary64
    it is [clenshaw] and [legval_series]. *)
Section LegvalDtype.
Context {T : Type} `{Dtype T}.

Fixpoint clenshaw_dtype (x : T) (rest : list T) (nd : nat) (c0 c1 : T) : T * T :=
  match rest with
  | [] => (c0, c1)
  | ci :: rest' =>
      let nd := nd - 1 in
      clenshaw_dtype x rest' nd
        (sub ci (div (mul c1 (of_nat (nd - 1))) (of_nat nd)))
        (add c0 (div (mul (mul c1 x) (of_nat (2 * nd - 1))) (of_nat nd)))
  end.

Definition legval_series_dtype (x : T) (c : list T) : T :=
  match rev c with
  | [] => zero
  | [c0] => add c0 (mul zero x)
  | clast :: cprev :: rest =>
      let '(c0, c1) := clenshaw_dtype x rest (length c) cprev clast in
      add c0 (mul c1 x)
  end.
End LegvalDtype.

(** The Legendre polynomials at the rationals, by Bonnet's recurrence
    (l + 2) P_(l+2) = (2 l + 3) x P_(l+1) - (l + 1) P_l:
    [legendre_pair l x] is (P_l(x), P_(l+1)(x)). *)
Fixpoint legendre_pair (l : nat) (x : Q) : Q * Q :=
  match l with
  | 0 => (1%Q, x)
  | S l' =>
      let '(p, q) := legendre_pair l' x in
      (q, ((inject_Z (Z.of_nat (2 * l' + 3)) * x * q
            - inject_Z (Z.of_nat (l' + 1)) * p)
           / inject_Z (Z.of_nat (l' + 2)))%Q)
  end.

Definition legendre_P (l : nat) (x : Q) : Q := (legendre_pair l x).1.

(** The Legendre series with coefficients [c] at [x]. *)
Definition legendre_series (x : Q) (c : list Q) : Q :=
  np_sum (map (fun l => (nth l c 0 * legendre_P l x)%Q) (seq 0 (length c))).
(** ** Facts about the array primitives *)

Lemma mapR_ok {A B : Type} (f : A -> result B) (g : A -> B) (l : list A) :
  (forall a, a ∈ l -> f a = Ok (g a)) -> mapR f l = Ok (map g l).
Proof.
  induction l as [|a l IH]; intros Hf; simpl; [done|].
  rewrite Hf by left. simpl. rewrite IH; [done|].
  intros b Hb. apply Hf. by right.
Qed.

Lemma elem_of_where_from (mask : list bool) (i p : nat) :
  p ∈ where_from i mask <-> i <= p /\ mask !! (p - i) = Some true.
Proof.
  revert i. induction mask as [|b mask IH]; intros i; simpl.
  - split; [by intros ?%elem_of_nil | by intros [_ ?]].
  - assert (Hrest : p ∈ where_from (S i) mask <->
                    i < p /\ (b :: mask) !! (p - i) = Some true).
    { rewrite IH. split.
      - intros [Hle Hp]. split; [lia|].
        replace (p - i) with (S (p - S i)) by lia. done.
      - intros [Hlt Hp]. split; [lia|].
        replace (p - i) with (S (p - S i)) in Hp by lia. done. }
    destruct b.
    + rewrite elem_of_cons, Hrest. split.
      * intros [->|[Hlt Hp]]; [|split; [lia|done]].
        split; [lia|]. by rewrite Nat.sub_diag.
      * intros [Hle Hp]. destruct (decide (p = i)) as [->|Hne]; [by left|].
        right. split; [lia|done].
    + rewrite Hrest. split.
      * intros [Hlt Hp]. split; [lia|done].
      * intros [Hle Hp]. destruct (decide (p = i)) as [->|Hne].
        -- rewrite Nat.sub_diag in Hp. done.
        -- split; [lia|done].
Qed.

Lemma elem_of_np_where (mask : list bool) (p : nat) :
  p ∈ np_where mask <-> mask !! p = Some true.
Proof.
  unfold np_where. rewrite elem_of_where_from, Nat.sub_0_r.
  split; [by intros [_ ?] | intros ?; split; [lia|done]].
Qed.

Lemma np_in_true (pixel : nat) (vec : list nat) :
  np_in pixel vec = true <-> pixel ∈ vec.
Proof.
  unfold np_in. rewrite existsb_exists. split.
  - intros (x & Hx & Heq). apply Nat.eqb_eq in Heq as ->. by apply list_elem_of_In.
  - intros Hin. exists pixel. split; [by apply list_elem_of_In | apply Nat.eqb_refl].
Qed.

Lemma pixel_outside_true (maskVec bigMaskVec : list nat) :
  pixel_outside maskVec bigMaskVec = true <->
  exists pixel, pixel ∈ maskVec /\ pixel ∉ bigMaskVec.
Proof.
  induction maskVec as [|p rest IH]; simpl.
  - split; [done | by intros (? & ?%elem_of_nil & _)].
  - destruct (np_in p bigMaskVec) eqn:Hin; simpl.
    + apply np_in_true in Hin. rewrite IH. split.
      * intros (q & Hq & Hnot). exists q. split; [by right|done].
      * intros (q & Hq & Hnot). apply elem_of_cons in Hq as [->|Hq]; [done|].
        by exists q.
    + split; [|done]. intros _. exists p. split; [by left|].
      intros Hp%np_in_true. congruence.
Qed.

Lemma pixel_outside_false (maskVec bigMaskVec : list nat) :
  pixel_outside maskVec bigMaskVec = false <->
  forall pixel, pixel ∈ maskVec -> pixel ∈ bigMaskVec.
Proof.
  split.
  - intros Hf p Hp. destruct (decide (p ∈ bigMaskVec)) as [|Hn]; [done|].
    assert (pixel_outside maskVec bigMaskVec = true) as Ht
      by (apply pixel_outside_true; eauto).
    congruence.
  - intros Hall. destruct (pixel_outside maskVec bigMaskVec) eqn:E; [|done].
    apply pixel_outside_true in E as (p & Hp & Hn). by apply Hall in Hp.
Qed.

(** The claim C1 as stated asks for an error: on a subset mask with a pixel
    outside the superset mask the call returns normally, with the integer
    0 as its value, and raises nothing. *)
Lemma subMatrix2_error_exit_returns :
  (subMatrix2 [true; true] [true; false] false [[1%float]]).1 = Ok (RetInt 0) /\
  (forall e, (subMatrix2 [true; true] [true; false] false [[1%float]]).1 <> Raise e).
Proof. split; [reflexivity|]. intros e. discriminate. Qed.

(** C1 (amended).  A subset mask with an active pixel that is not active in
    the superset mask makes [subMatrix2] take its error exit: it prints the
    error line and returns the integer 0, whatever the superset matrix is.
    No exception is raised and no array, partial or otherwise, is
    returned. *)
Theorem subMatrix2_pixel_outside_big_mask
    {T : Type} (mask bigMask : list bool) (nested : bool) (cMatrix : matrix T)
    (pixel : nat) :
  mask !! pixel = Some true ->
  bigMask !! pixel <> Some true ->
  (subMatrix2 mask bigMask nested cMatrix).1 = Ok (RetInt 0) /\
  (forall subCmat, (subMatrix2 mask bigMask nested cMatrix).1 <> Ok (RetArray subCmat)).
Proof.
  intros Hsub Hbig.
  assert (Hout : pixel_outside (np_where mask) (np_where bigMask) = true).
  { apply pixel_outside_true. exists pixel.
    rewrite !elem_of_np_where. done. }
  unfold subMatrix2. rewrite Hout. simpl. split; [done|]. intros m. discriminate.
Qed.

Lemma subMatrix2_pixel_outside_big_mask_witness :
  (subMatrix2 [true; true] [true; false] false [[1%float]]).1 = Ok (RetInt 0) /\
  (forall subCmat,
     (subMatrix2 [true; true] [true; false] false [[1%float]]).1 <> Ok (RetArray subCmat)).
Proof.
  apply (subMatrix2_pixel_outside_big_mask [true; true] [true; false] false
           [[1%float]] 1).
  - reflexivity.
  - simpl. discriminate.
Defined.

(** ** The index vector of [subMatrix2] *)

Lemma mapR_Forall2 {A B : Type} (f : A -> result B) (l : list A) (bs : list B) :
  mapR f l = Ok bs <-> Forall2 (fun a b => f a = Ok b) l bs.
Proof.
  revert bs. induction l as [|a l IH]; intros bs; simpl.
  - split.
    + intros [= <-]. constructor.
    + intros ->%Forall2_nil_inv_l. done.
  - split.
    + destruct (f a) as [b|e] eqn:Hfa; simpl; [|done].
      destruct (mapR f l) as [bs'|e] eqn:Hl; simpl; [|done].
      intros [= <-]. constructor; [done|]. by apply IH.
    + intros (b & bs' & Hfa & Hl & ->)%Forall2_cons_inv_l.
      rewrite Hfa. simpl. apply IH in Hl. rewrite Hl. done.
Qed.

Lemma mapR_map {A B C : Type} (f : B -> result C) (g : A -> B) (l : list A) :
  mapR f (map g l) = mapR (fun a => f (g a)) l.
Proof. induction l as [|a l IH]; simpl; [done|]. by rewrite IH. Qed.

Lemma mapR_total {A B : Type} (f : A -> result B) (l : list A) :
  (forall a, a ∈ l -> exists b, f a = Ok b) -> exists bs, mapR f l = Ok bs.
Proof.
  induction l as [|a l IH]; intros Hf; simpl; [by eexists|].
  destruct (Hf a) as [b Hb]; [by left|]. rewrite Hb. simpl.
  destruct IH as [bs Hbs]; [intros; apply Hf; by right|].
  rewrite Hbs. simpl. by eexists.
Qed.

Lemma where_from_ge (mask : list bool) (i : nat) :
  Forall (fun p => i <= p) (where_from i mask).
Proof.
  apply Forall_forall. intros p Hp. apply elem_of_where_from in Hp. lia.
Qed.

Lemma where_from_sorted (mask : list bool) (i : nat) :
  StronglySorted lt (where_from i mask).
Proof.
  revert i. induction mask as [|b mask IH]; intros i; simpl; [constructor|].
  destruct b; [|apply IH]. constructor; [apply IH|].
  eapply Forall_impl; [apply (where_from_ge mask (S i))|]. simpl. lia.
Qed.

Lemma np_where_sorted (mask : list bool) : StronglySorted lt (np_where mask).
Proof. apply where_from_sorted. Qed.

Lemma StronglySorted_lt_NoDup (l : list nat) : StronglySorted lt l -> NoDup l.
Proof.
  induction 1 as [|x l Hs IH Hall]; constructor; [|done].
  intros Hx. rewrite Forall_forall in Hall. apply Hall in Hx. lia.
Qed.

Lemma StronglySorted_lt_filter (P : nat -> Prop) `{!forall x, Decision (P x)}
    (l : list nat) :
  StronglySorted lt l -> StronglySorted lt (filter P l).
Proof.
  intros Hsorted. induction Hsorted as [|x l Hs IH Hall]; [constructor|].
  rewrite filter_cons. destruct (decide (P x)); [|done].
  constructor; [done|].
  apply Forall_forall. intros y [_ Hy]%list_elem_of_filter.
  rewrite Forall_forall in Hall. by apply Hall.
Qed.

(** A strictly ascending list that is contained in another one is what the
    membership filter leaves of the larger list. *)
Lemma filter_sorted_sublist (small big : list nat) :
  StronglySorted lt small -> StronglySorted lt big ->
  (forall x, x ∈ small -> x ∈ big) ->
  filter (fun x => x ∈ small) big = small.
Proof.
  intros Hs Hb Hsub.
  apply (StronglySorted_unique_strong lt).
  - intros x1 x2 _ _ ? ?. lia.
  - by apply StronglySorted_lt_filter.
  - done.
  - apply NoDup_Permutation.
    + apply NoDup_filter. by apply StronglySorted_lt_NoDup.
    + by apply StronglySorted_lt_NoDup.
    + intros x. rewrite list_elem_of_filter.
      split; [by intros [? _] | intros Hx; split; [done | by apply Hsub]].
Qed.

Lemma map_nth_seq {A : Type} (l : list A) (d : A) :
  map (fun i => nth i l d) (seq 0 (length l)) = l.
Proof.
  apply list_eq. intros i. rewrite list_lookup_fmap.
  destruct (decide (i < length l)) as [Hlt|Hge].
  - rewrite lookup_seq_lt by done. simpl.
    destruct (nth_lookup_or_length l i d) as [->|?]; [done|lia].
  - rewrite lookup_seq_ge by lia. simpl. symmetry. apply lookup_ge_None. lia.
Qed.

Lemma flat_map_map {A B C : Type} (f : B -> list C) (g : A -> B) (l : list A) :
  flat_map f (map g l) = flat_map (fun a => f (g a)) l.
Proof. induction l as [|a l IH]; simpl; [done|]. by rewrite IH. Qed.

Lemma flat_map_singleton_filter {A : Type} (P : A -> Prop) `{forall x, Decision (P x)}
    (l : list A) :
  flat_map (fun a => if decide (P a) then [a] else []) l = filter P l.
Proof.
  induction l as [|a l IH]; simpl; [done|].
  rewrite filter_cons, IH. by destruct (decide (P a)).
Qed.

Lemma flat_map_ext_in {A B : Type} (f g : A -> list B) (l : list A) :
  (forall a, a ∈ l -> f a = g a) -> flat_map f l = flat_map g l.
Proof.
  induction l as [|a l IH]; intros Hfg; simpl; [done|].
  rewrite Hfg by left. rewrite IH; [done|]. intros; apply Hfg; by right.
Qed.

(** The inner comprehension contributes [bigI] once when the big-mask pixel
    is a pixel of the small mask, and nothing otherwise. *)
Lemma inner_comprehension (maskVec : list nat) (y c : nat) :
  NoDup maskVec ->
  flat_map (fun subI => if Nat.eqb (nth subI maskVec 0) y then [c] else [])
           (seq 0 (length maskVec))
  = if decide (y ∈ maskVec) then [c] else [].
Proof.
  intros Hnd.
  rewrite <- (flat_map_map (fun x => if Nat.eqb x y then [c] else [])
                           (fun subI => nth subI maskVec 0)).
  rewrite map_nth_seq.
  induction Hnd as [|x l Hx Hnd IH]; simpl.
  - by destruct (decide (y ∈ [])) as [?%elem_of_nil|].
  - rewrite IH. destruct (Nat.eqb_spec x y) as [->|Hne].
    + destruct (decide (y ∈ l)); [done|]. simpl.
      destruct (decide (y ∈ y :: l)) as [|Hn]; [done|]. exfalso. apply Hn. by left.
    + simpl. destruct (decide (y ∈ l)) as [Hin|Hnin].
      * destruct (decide (y ∈ x :: l)) as [|Hn]; [done|]. exfalso. apply Hn. by right.
      * destruct (decide (y ∈ x :: l)) as [[?|?]%elem_of_cons|]; [congruence|done|done].
Qed.

Lemma subVec_of_filter (maskVec bigMaskVec : list nat) :
  NoDup maskVec ->
  subVec_of maskVec bigMaskVec
  = filter (fun bigI => nth bigI bigMaskVec 0 ∈ maskVec) (seq 0 (length bigMaskVec)).
Proof.
  intros Hnd. unfold subVec_of.
  rewrite <- flat_map_singleton_filter.
  apply flat_map_ext_in. intros bigI _. by apply inner_comprehension.
Qed.

Lemma filter_map_comm {A B : Type} (P : B -> Prop) `{forall x, Decision (P x)}
    (g : A -> B) (l : list A) :
  filter P (map g l) = map g (filter (fun a => P (g a)) l).
Proof.
  induction l as [|a l IH]; simpl; [done|].
  rewrite !filter_cons, IH. by destruct (decide (P (g a))).
Qed.

(** Reading the superset's pixel list at the positions of [subVec] gives
    back the subset's pixel list, in the subset's order. *)
Lemma subVec_of_positions (maskVec bigMaskVec : list nat) :
  StronglySorted lt maskVec -> StronglySorted lt bigMaskVec ->
  (forall pixel, pixel ∈ maskVec -> pixel ∈ bigMaskVec) ->
  map (fun bigI => nth bigI bigMaskVec 0) (subVec_of maskVec bigMaskVec) = maskVec.
Proof.
  intros Hs Hb Hsub.
  rewrite subVec_of_filter by by apply StronglySorted_lt_NoDup.
  pose proof (filter_map_comm (fun x => x ∈ maskVec)
                (fun bigI => nth bigI bigMaskVec 0) (seq 0 (length bigMaskVec))) as E.
  simpl in E. rewrite <- E, map_nth_seq. by apply filter_sorted_sublist.
Qed.

Lemma subVec_of_bound (maskVec bigMaskVec : list nat) (i : nat) :
  NoDup maskVec ->
  i ∈ subVec_of maskVec bigMaskVec -> i < length bigMaskVec.
Proof.
  intros Hnd. rewrite subVec_of_filter by done.
  intros [_ Hi]%list_elem_of_filter. apply elem_of_seq in Hi. lia.
Qed.

Lemma filter_all {A : Type} (P : A -> Prop) `{!forall x, Decision (P x)} (l : list A) :
  (forall a, a ∈ l -> P a) -> filter P l = l.
Proof.
  induction l as [|a l IH]; intros Hall; [done|].
  rewrite filter_cons_True by (apply Hall; by left).
  f_equal. apply IH. intros; apply Hall; by right.
Qed.

Lemma subVec_of_self (maskVec : list nat) :
  NoDup maskVec -> subVec_of maskVec maskVec = seq 0 (length maskVec).
Proof.
  intros Hnd. rewrite subVec_of_filter by done.
  apply filter_all. intros i Hi%elem_of_seq.
  destruct (nth_lookup_or_length maskVec i 0) as [Hl|?]; [|lia].
  by apply list_elem_of_lookup_2 in Hl.
Qed.

(** ** Advanced indexing through [np.meshgrid] *)

Lemma fancy_index2_meshgrid {T : Type} (M : matrix T) (x y : list nat) :
  x <> [] -> y <> [] ->
  fancy_index2 M (meshgrid x y).1 (meshgrid x y).2
  = mapR (fun ya => mapR (fun xb => getitem2 M xb ya) x) y.
Proof.
  intros Hx Hy. unfold fancy_index2, meshgrid. cbn [fst snd integer_dtype index_values].
  replace (list_integer_dtype x) with true by (by destruct x).
  replace (list_integer_dtype y) with true by (by destruct y).
  cbn [andb]. clear Hx Hy.
  induction y as [|ya y IH]; simpl; [done|].
  rewrite IH. f_equal.
  clear IH. induction x as [|xb x IHx]; simpl; [done|]. by rewrite IHx.
Qed.

(** The grids of an empty list are arrays of floats. *)
Lemma fancy_index2_meshgrid_empty {T : Type} (M : matrix T) :
  fancy_index2 M (meshgrid [] []).1 (meshgrid [] []).2 = Raise IndexError.
Proof. reflexivity. Qed.

Lemma getitem2_Ok {T : Type} (M : matrix T) (i j : nat) (v : T) :
  getitem2 M i j = Ok v <-> exists row, M !! i = Some row /\ row !! j = Some v.
Proof.
  unfold getitem2. split.
  - destruct (M !! i) as [row|]; [|done].
    destruct (row !! j) as [x|] eqn:E; [|done]. intros [= ->]. eauto.
  - intros (row & -> & ->). done.
Qed.

Lemma getitem2_in_shape {T : Type} (n m : nat) (M : matrix T) (i j : nat) :
  has_shape n m M -> i < n -> j < m -> exists v, getitem2 M i j = Ok v.
Proof.
  intros [Hn Hrows] Hi Hj.
  destruct (lookup_lt_is_Some_2 M i) as [row Hrow]; [lia|].
  rewrite Forall_forall in Hrows.
  assert (length row = m) as Hlen by (apply Hrows; by eapply list_elem_of_lookup_2).
  destruct (lookup_lt_is_Some_2 row j) as [v Hv]; [lia|].
  exists v. apply getitem2_Ok. eauto.
Qed.

Lemma subVec_of_np_where (mask bigMask : list bool) :
  (forall pixel, mask !! pixel = Some true -> bigMask !! pixel = Some true) ->
  let subVec := subVec_of (np_where mask) (np_where bigMask) in
  length subVec = length (np_where mask) /\
  (forall a pixel, np_where mask !! a = Some pixel ->
     exists i, subVec !! a = Some i /\ np_where bigMask !! i = Some pixel).
Proof.
  intros Hvalid subVec.
  assert (Hpos : map (fun bigI => nth bigI (np_where bigMask) 0) subVec = np_where mask).
  { apply subVec_of_positions; [apply np_where_sorted..|].
    intros p. rewrite !elem_of_np_where. apply Hvalid. }
  split.
  - apply (f_equal length) in Hpos. by rewrite length_map in Hpos.
  - intros a pixel Ha. rewrite <- Hpos, list_lookup_fmap in Ha.
    destruct (subVec !! a) as [i|] eqn:Hi; [|done]. simpl in Ha.
    exists i. split; [done|]. injection Ha as <-.
    assert (i < length (np_where bigMask)) as Hlt.
    { eapply subVec_of_bound; [apply StronglySorted_lt_NoDup, np_where_sorted|].
      by eapply list_elem_of_lookup_2. }
    destruct (nth_lookup_or_length (np_where bigMask) i 0); [done|lia].
Qed.

Lemma np_where_nonempty (mask : list bool) :
  np_where mask <> [] <-> exists pixel, mask !! pixel = Some true.
Proof.
  split.
  - destruct (np_where mask) as [|p l] eqn:E; [done|]. intros _.
    exists p. apply elem_of_np_where. rewrite E. left.
  - intros [p Hp%elem_of_np_where] E. rewrite E in Hp. by apply elem_of_nil in Hp.
Qed.

Lemma subVec_of_nonempty (mask bigMask : list bool) :
  (forall pixel, mask !! pixel = Some true -> bigMask !! pixel = Some true) ->
  subVec_of (np_where mask) (np_where bigMask) <> [] <->
  exists pixel, mask !! pixel = Some true.
Proof.
  intros Hvalid. rewrite <- np_where_nonempty.
  destruct (subVec_of_np_where mask bigMask Hvalid) as [Hlen _].
  split; intros Hne E; apply Hne; apply nil_length_inv.
  - by rewrite Hlen, E.
  - by rewrite <- Hlen, E.
Qed.

(** What [subMatrix2] computes once the check loop has passed: the block
    [out[a][b] = cMatrix[subVec[b], subVec[a]]]. *)
Lemma subMatrix2_passed {T : Type} (mask bigMask : list bool) (nested : bool)
    (cMatrix : matrix T) (K : nat) :
  (forall pixel, mask !! pixel = Some true -> bigMask !! pixel = Some true) ->
  (exists pixel, mask !! pixel = Some true) ->
  K = length (np_where bigMask) ->
  has_shape K K cMatrix ->
  let subVec := subVec_of (np_where mask) (np_where bigMask) in
  exists out,
    subMatrix2 mask bigMask nested cMatrix = (Ok (RetArray out), cMatrix) /\
    Forall2 (fun ya row => Forall2 (fun xb v => getitem2 cMatrix xb ya = Ok v) subVec row)
            subVec out.
Proof.
  intros Hvalid Hsome HK Hshape subVec.
  assert (Hpass : pixel_outside (np_where mask) (np_where bigMask) = false).
  { apply pixel_outside_false. intros p. rewrite !elem_of_np_where. apply Hvalid. }
  assert (Hne : subVec <> []) by (by apply subVec_of_nonempty).
  assert (Hbound : forall i, i ∈ subVec -> i < K).
  { intros i Hi. subst K. eapply subVec_of_bound; [|exact Hi].
    apply StronglySorted_lt_NoDup, np_where_sorted. }
  destruct (mapR_total (fun ya => mapR (fun xb => getitem2 cMatrix xb ya) subVec) subVec)
    as [out Hout].
  { intros ya Hya. apply mapR_total. intros xb Hxb.
    eapply getitem2_in_shape; eauto. }
  exists out. split.
  - unfold subMatrix2. rewrite Hpass. unfold st_bind, st_fancy_index, st_ret.
    fold subVec. rewrite fancy_index2_meshgrid, Hout by done. done.
  - apply mapR_Forall2 in Hout.
    eapply Forall2_impl; [exact Hout|]. simpl. intros ya row Hrow.
    by apply mapR_Forall2.
Qed.

(** A subset mask with no active pixel passes the check loop with an empty
    index list, whose grids are arrays of floats: the indexing raises. *)
Lemma subMatrix2_no_active_pixel {T : Type} (mask bigMask : list bool) (nested : bool)
    (cMatrix : matrix T) :
  (forall pixel, mask !! pixel <> Some true) ->
  subMatrix2 mask bigMask nested cMatrix = (Raise IndexError, cMatrix).
Proof.
  intros Hnone.
  assert (Hw : np_where mask = []).
  { destruct (np_where mask) as [|p l] eqn:E; [done|].
    assert (p ∈ np_where mask) as Hp%elem_of_np_where by (rewrite E; left).
    by apply Hnone in Hp. }
  unfold subMatrix2. rewrite Hw. cbn [pixel_outside].
  assert (Hs : subVec_of [] (np_where bigMask) = []).
  { unfold subVec_of. cbn [length seq flat_map].
    induction (seq 0 (length (np_where bigMask))) as [|i l IH]; [done|].
    cbn [flat_map]. by rewrite IH. }
  rewrite Hs. reflexivity.
Qed.

(** The claim C10 as stated fails in two places.  A subset mask without an
    active pixel is contained in every superset mask, and for it no array
    is returned: the indexing raises IndexError.  And the result can be
    the intended selection for a matrix that is not symmetric: it is
    enough that the selected block is. *)
Lemma subMatrix2_selection_not_symmetric :
  (subMatrix2 [false; false] [true; true] false [[1; 2]; [2; 5]]%float).1
  = Raise IndexError /\
  ~ symmetric [[1; 2; 3]; [2; 5; 6]; [7; 8; 9]]%float /\
  (subMatrix2 [true; true; false] [true; true; true] false
     [[1; 2; 3]; [2; 5; 6]; [7; 8; 9]]%float).1
  = Ok (RetArray [[1; 2]; [2; 5]]%float).
Proof.
  split; [reflexivity|]. split; [|reflexivity].
  intros Hsym. specialize (Hsym 0 2).
  apply (f_equal (fun r => match r with
                           | Ok x => (x =? 3)%float
                           | Raise _ => false
                           end)) in Hsym.
  vm_compute in Hsym. discriminate.
Qed.

(** C10 (amended).  For a subset mask with at least one active pixel that
    is contained in the superset mask, and a matrix built for the
    superset, [subMatrix2] returns the k-by-k block read through
    [np.meshgrid]: with [idx] the positions of the subset's pixels in the
    superset's pixel list, the entry (a, b) of the output is the entry
    (idx_b, idx_a) of the superset matrix, the transpose of the row/column
    selection.  The output is the selection (idx_a, idx_b) itself exactly
    when the selected block is symmetric, so whenever the superset matrix
    is. *)
Theorem subMatrix2_transposed_block
    {T : Type} (mask bigMask : list bool) (nested : bool) (cMatrix : matrix T) :
  (forall pixel, mask !! pixel = Some true -> bigMask !! pixel = Some true) ->
  (exists pixel, mask !! pixel = Some true) ->
  has_shape (length (np_where bigMask)) (length (np_where bigMask)) cMatrix ->
  let idx := subVec_of (np_where mask) (np_where bigMask) in
  let k := length (np_where mask) in
  length idx = k /\
  (forall a pixel, np_where mask !! a = Some pixel ->
     exists i, idx !! a = Some i /\ np_where bigMask !! i = Some pixel) /\
  exists out,
    (subMatrix2 mask bigMask nested cMatrix).1 = Ok (RetArray out) /\
    has_shape k k out /\
    (forall a b ia ib, idx !! a = Some ia -> idx !! b = Some ib ->
       exists v, getitem2 out a b = Ok v /\ getitem2 cMatrix ib ia = Ok v) /\
    ((forall a b ia ib, idx !! a = Some ia -> idx !! b = Some ib ->
        getitem2 out a b = getitem2 cMatrix ia ib) <->
     (forall a b ia ib, idx !! a = Some ia -> idx !! b = Some ib ->
        getitem2 cMatrix ia ib = getitem2 cMatrix ib ia)) /\
    (symmetric cMatrix ->
     forall a b ia ib, idx !! a = Some ia -> idx !! b = Some ib ->
       getitem2 out a b = getitem2 cMatrix ia ib).
Proof.
  intros Hvalid Hsome Hshape idx k.
  destruct (subVec_of_np_where mask bigMask Hvalid) as [Hlen Hpos].
  fold idx in Hlen, Hpos. split; [done|]. split; [done|].
  destruct (subMatrix2_passed mask bigMask nested cMatrix _ Hvalid Hsome eq_refl Hshape)
    as (out & Hrun & Hout).
  fold idx in Hout.
  assert (Hentry : forall a b ia ib, idx !! a = Some ia -> idx !! b = Some ib ->
            exists v, getitem2 out a b = Ok v /\ getitem2 cMatrix ib ia = Ok v).
  { intros a b ia ib Ha Hb.
    destruct (Forall2_lookup_l _ _ _ _ _ Hout Ha) as (row & Hrow & Hrowv).
    destruct (Forall2_lookup_l _ _ _ _ _ Hrowv Hb) as (v & Hv & Hget).
    exists v. split; [|done]. apply getitem2_Ok. eauto. }
  exists out. rewrite Hrun. simpl. split; [done|]. split; [|split; [done|split]].
  - split.
    + apply Forall2_length in Hout. unfold k. lia.
    + apply Forall_forall. intros row Hrow.
      apply list_elem_of_lookup_1 in Hrow as [a Ha].
      destruct (Forall2_lookup_r _ _ _ _ _ Hout Ha) as (ya & _ & Hrowv).
      apply Forall2_length in Hrowv. unfold k. lia.
  - split; intros Hall a b ia ib Ha Hb.
    + destruct (Hentry a b ia ib Ha Hb) as (v & Hout_ab & Hv).
      rewrite <- (Hall a b ia ib Ha Hb). congruence.
    + destruct (Hentry a b ia ib Ha Hb) as (v & -> & Hv).
      rewrite (Hall a b ia ib Ha Hb). done.
  - intros Hsym a b ia ib Ha Hb.
    destruct (Hentry a b ia ib Ha Hb) as (v & -> & Hv).
    by rewrite Hsym.
Qed.

Lemma subMatrix2_transposed_block_witness :
  exists out,
    (subMatrix2 [false; true; true] [true; true; true] false
       [[1; 2; 3]; [4; 5; 6]; [7; 8; 9]]%float).1 = Ok (RetArray out) /\
    getitem2 out 0 1 = Ok 8%float.
Proof.
  destruct (subMatrix2_transposed_block [false; true; true] [true; true; true] false
              [[1; 2; 3]; [4; 5; 6]; [7; 8; 9]]%float)
    as (_ & _ & out & Hrun & _ & Hentry & _).
  - intros [|[|[|p]]]; simpl; intros H; done.
  - by exists 1.
  - split; [reflexivity|]. repeat constructor.
  - exists out. split; [exact Hrun|].
    destruct (Hentry 0 1 1 2 eq_refl eq_refl) as (v & Hv & HM).
    rewrite Hv. rewrite <- HM. reflexivity.
Defined.

(** ** Extensionality for arrays of one shape *)

Lemma has_shape_lookup {T : Type} (n m : nat) (M : matrix T) (i : nat) :
  has_shape n m M -> i < n -> exists row, M !! i = Some row /\ length row = m.
Proof.
  intros [Hn Hrows] Hi.
  destruct (lookup_lt_is_Some_2 M i) as [row Hrow]; [lia|].
  exists row. split; [done|].
  rewrite Forall_forall in Hrows. apply Hrows. by eapply list_elem_of_lookup_2.
Qed.

Lemma matrix_ext {T : Type} (n m : nat) (A B : matrix T) :
  has_shape n m A -> has_shape n m B ->
  (forall i j, i < n -> j < m -> getitem2 A i j = getitem2 B i j) ->
  A = B.
Proof.
  intros HA HB Hext. apply list_eq. intros i.
  destruct (decide (i < n)) as [Hi|Hi].
  - destruct (has_shape_lookup n m A i HA Hi) as (ra & Hra & Hla).
    destruct (has_shape_lookup n m B i HB Hi) as (rb & Hrb & Hlb).
    rewrite Hra, Hrb. f_equal. apply list_eq. intros j.
    destruct (decide (j < m)) as [Hj|Hj].
    + specialize (Hext i j Hi Hj). unfold getitem2 in Hext.
      rewrite Hra, Hrb in Hext.
      destruct (lookup_lt_is_Some_2 ra j) as [x Hx]; [lia|].
      destruct (lookup_lt_is_Some_2 rb j) as [y Hy]; [lia|].
      rewrite Hx, Hy in Hext |- *. by injection Hext as ->.
    + rewrite !(proj2 (lookup_ge_None _ _)) by lia. done.
  - destruct HA as [HA _], HB as [HB _].
    rewrite !(proj2 (lookup_ge_None _ _)) by lia. done.
Qed.

(** The claim C5 as stated fails on a mask without an active pixel: the
    matrix built for it is the empty one, and the call raises IndexError
    instead of returning it. *)
Lemma subMatrix2_same_mask_no_pixel :
  has_shape (length (np_where [false; false])) (length (np_where [false; false]))
            ([] : matrix float) /\
  symmetric ([] : matrix float) /\
  subMatrix2 [false; false] [false; false] false ([] : matrix float)
  = (Raise IndexError, []).
Proof.
  split; [split; [reflexivity|constructor]|]. split; [|reflexivity].
  intros i j. by destruct i, j.
Qed.

(** C5 (amended).  With the subset mask equal to the superset mask, a mask
    with at least one active pixel and a symmetric matrix built for that
    mask (one row and one column per active pixel), [subMatrix2] returns
    the matrix itself, and the caller's array is left as it was found. *)
Theorem subMatrix2_same_mask
    {T : Type} (m : list bool) (nested : bool) (M : matrix T) :
  (exists pixel, m !! pixel = Some true) ->
  has_shape (length (np_where m)) (length (np_where m)) M ->
  symmetric M ->
  subMatrix2 m m nested M = (Ok (RetArray M), M).
Proof.
  intros Hsome Hshape Hsym.
  destruct (subMatrix2_passed m m nested M _ (fun _ H => H) Hsome eq_refl Hshape)
    as (out & Hrun & Hout).
  rewrite Hrun. do 2 f_equal. f_equal.
  rewrite subVec_of_self in Hout
    by apply StronglySorted_lt_NoDup, np_where_sorted.
  set (k := length (np_where m)) in *.
  assert (Hout_shape : has_shape k k out).
  { split.
    - apply Forall2_length in Hout. by rewrite length_seq in Hout.
    - apply Forall_forall. intros row Hrow.
      apply list_elem_of_lookup_1 in Hrow as [a Ha].
      destruct (Forall2_lookup_r _ _ _ _ _ Hout Ha) as (ya & _ & Hrowv).
      apply Forall2_length in Hrowv. by rewrite length_seq in Hrowv. }
  apply (matrix_ext k k); [done..|].
  intros a b Ha Hb.
  destruct (Forall2_lookup_l _ _ _ a a Hout) as (row & Hrow & Hrowv);
    [by apply lookup_seq_lt|].
  destruct (Forall2_lookup_l _ _ _ b b Hrowv) as (v & Hv & Hget);
    [by apply lookup_seq_lt|].
  simpl in Hget. rewrite Hsym, Hget. apply getitem2_Ok. eauto.
Qed.

Lemma subMatrix2_same_mask_witness :
  subMatrix2 [true; false; true] [true; false; true] false [[1; 2]; [2; 5]]%float
  = (Ok (RetArray [[1; 2]; [2; 5]]%float), [[1; 2]; [2; 5]]%float).
Proof.
  apply (subMatrix2_same_mask [true; false; true] false [[1; 2]; [2; 5]]%float).
  - by exists 0.
  - split; [reflexivity|]. repeat constructor.
  - intros [|[|i]] [|[|j]]; reflexivity.
Defined.

(** ** Arrays in tabulated form *)

Section ArrayFacts.
Context {T : Type} `{Dtype T}.

Lemma nth_map_seq (m j : nat) (g : nat -> T) :
  j < m -> nth j (map g (seq 0 m)) zero = g j.
Proof.
  intros Hj. apply nth_lookup_Some. rewrite list_lookup_fmap.
  by rewrite lookup_seq_lt.
Qed.

Lemma lookup_tabulate (n m i : nat) (f : nat -> nat -> T) :
  i < n -> tabulate n m f !! i = Some (map (fun j => f i j) (seq 0 m)).
Proof.
  intros Hi. unfold tabulate. rewrite list_lookup_fmap.
  by rewrite lookup_seq_lt.
Qed.

Lemma has_shape_tabulate (n m : nat) (f : nat -> nat -> T) :
  has_shape n m (tabulate n m f).
Proof.
  split.
  - unfold tabulate. by rewrite length_map, length_seq.
  - apply Forall_forall. intros row Hrow.
    apply list_elem_of_fmap in Hrow as (i & -> & _).
    by rewrite length_map, length_seq.
Qed.

Lemma getitem2_tabulate (n m i j : nat) (f : nat -> nat -> T) :
  i < n -> j < m -> getitem2 (tabulate n m f) i j = Ok (f i j).
Proof.
  intros Hi Hj. unfold getitem2. rewrite lookup_tabulate by done.
  rewrite list_lookup_fmap, lookup_seq_lt by done. done.
Qed.

Lemma entry_tabulate (n m i j : nat) (f : nat -> nat -> T) :
  i < n -> j < m -> entry (tabulate n m f) i j = f i j.
Proof.
  intros Hi Hj. unfold entry.
  rewrite (nth_lookup_Some _ _ _ _ (lookup_tabulate n m i f Hi)).
  by apply nth_map_seq.
Qed.

Lemma getitem2_entry (n m : nat) (M : matrix T) (i j : nat) :
  has_shape n m M -> i < n -> j < m -> getitem2 M i j = Ok (entry M i j).
Proof.
  intros HM Hi Hj.
  destruct (has_shape_lookup n m M i HM Hi) as (row & Hrow & Hlen).
  destruct (lookup_lt_is_Some_2 row j) as [x Hx]; [lia|].
  unfold getitem2, entry. rewrite Hrow, Hx.
  rewrite (nth_lookup_Some _ _ _ _ Hrow). by rewrite (nth_lookup_Some _ _ _ _ Hx).
Qed.

Lemma tabulate_ext (n m : nat) (f g : nat -> nat -> T) :
  (forall i j, i < n -> j < m -> f i j = g i j) -> tabulate n m f = tabulate n m g.
Proof.
  intros Hfg. apply (matrix_ext n m); [apply has_shape_tabulate..|].
  intros i j Hi Hj. rewrite !getitem2_tabulate by done. by rewrite Hfg.
Qed.

Lemma tabulate_entry (n m : nat) (M : matrix T) :
  has_shape n m M -> M = tabulate n m (entry M).
Proof.
  intros HM. apply (matrix_ext n m); [done|apply has_shape_tabulate|].
  intros i j Hi Hj.
  rewrite getitem2_tabulate by done. by apply (getitem2_entry n m).
Qed.

Lemma ncols_tabulate (n m : nat) (f : nat -> nat -> T) :
  0 < n -> ncols (tabulate n m f) = m.
Proof.
  intros Hn. destruct n as [|n]; [lia|].
  unfold tabulate. simpl. by rewrite length_map, length_seq.
Qed.

Lemma zeros2_tabulate (n m : nat) : zeros2 n m = tabulate n m (fun _ _ => zero).
Proof.
  apply (matrix_ext n m); [|apply has_shape_tabulate|].
  - split; [apply length_replicate|].
    apply Forall_forall. intros row ->%elem_of_replicate_inv.
    apply length_replicate.
  - intros i j Hi Hj. rewrite getitem2_tabulate by done.
    unfold getitem2, zeros2. by rewrite !lookup_replicate_2.
Qed.

Lemma transpose_tabulate (n : nat) (f : nat -> nat -> T) :
  transpose (tabulate n n f) = tabulate n n (fun i j => f j i).
Proof.
  destruct (decide (n = 0)) as [->|Hn]; [done|].
  unfold transpose. rewrite ncols_tabulate by lia.
  unfold tabulate at 2. apply map_ext_in. intros j Hj%in_seq.
  unfold tabulate. rewrite map_map. apply map_ext_in. intros i Hi%in_seq.
  apply nth_map_seq. lia.
Qed.

Lemma np_diag_vec_tabulate (n : nat) (f : nat -> nat -> T) :
  np_diag_vec (tabulate n n f) = map (fun i => f i i) (seq 0 n).
Proof.
  unfold np_diag_vec.
  destruct (decide (n = 0)) as [->|Hn]; [done|].
  rewrite ncols_tabulate by lia.
  destruct (has_shape_tabulate n n f) as [-> _]. rewrite Nat.min_id.
  apply map_ext_in. intros i Hi%in_seq. apply entry_tabulate; lia.
Qed.

Lemma np_diag_mat_tabulate (n : nat) (g : nat -> T) :
  np_diag_mat (map g (seq 0 n))
  = tabulate n n (fun i j => if decide (i = j) then g i else zero).
Proof.
  unfold np_diag_mat. rewrite length_map, length_seq.
  apply (matrix_ext n n); [|apply has_shape_tabulate|].
  - split.
    + by rewrite length_imap, length_map, length_seq.
    + apply Forall_forall. intros row Hrow.
      apply list_elem_of_lookup_1 in Hrow as [i Hi].
      rewrite list_lookup_imap in Hi.
      destruct (map g (seq 0 n) !! i) as [x|]; [|done].
      injection Hi as <-. by rewrite length_insert, length_replicate.
  - intros i j Hi Hj. rewrite getitem2_tabulate by done.
    unfold getitem2. rewrite list_lookup_imap, list_lookup_fmap.
    rewrite lookup_seq_lt by done. simpl.
    destruct (decide (i = j)) as [->|Hne].
    + by rewrite list_lookup_insert_eq by (by rewrite length_replicate).
    + rewrite list_lookup_insert_ne by done.
      by rewrite lookup_replicate_2.
Qed.

Lemma bdim_same (n : nat) : bdim n n = Ok n.
Proof. unfold bdim. by rewrite Nat.eqb_refl. Qed.

Lemma stretch_same {X : Type} (l : list X) : stretch (length l) l = l.
Proof. unfold stretch. by rewrite Nat.eqb_refl. Qed.

Lemma bcast2_tabulate (op : T -> T -> T) (n m : nat) (f g : nat -> nat -> T) :
  bcast2 op (tabulate n m f) (tabulate n m g)
  = Ok (tabulate n m (fun i j => op (f i j) (g i j))).
Proof.
  unfold bcast2.
  destruct (has_shape_tabulate n m f) as [Hlf _].
  destruct (has_shape_tabulate n m g) as [Hlg _].
  rewrite Hlf, Hlg, bdim_same. simpl.
  replace (stretch n (tabulate n m f)) with (tabulate n m f)
    by (unfold stretch; by rewrite Hlf, Nat.eqb_refl).
  replace (stretch n (tabulate n m g)) with (tabulate n m g)
    by (unfold stretch; by rewrite Hlg, Nat.eqb_refl).
  destruct (decide (n = 0)) as [->|Hn]; [by rewrite bdim_same|].
  rewrite !ncols_tabulate by lia. rewrite bdim_same. simpl. f_equal.
  unfold tabulate. rewrite zip_with_fmap_l, zip_with_fmap_r, zip_with_diag.
  apply map_ext_in. intros i _.
  replace (stretch m (map (fun j => f i j) (seq 0 m))) with (map (fun j => f i j) (seq 0 m)).
  2:{ unfold stretch. by rewrite length_map, length_seq, Nat.eqb_refl. }
  replace (stretch m (map (fun j => g i j) (seq 0 m))) with (map (fun j => g i j) (seq 0 m)).
  2:{ unfold stretch. by rewrite length_map, length_seq, Nat.eqb_refl. }
  by rewrite zip_with_fmap_l, zip_with_fmap_r, zip_with_diag.
Qed.

Lemma map_scalar_tabulate (op : T -> T -> T) (n m : nat) (f : nat -> nat -> T) (s : T) :
  map_scalar op (tabulate n m f) s = tabulate n m (fun i j => op (f i j) s).
Proof.
  unfold map_scalar, tabulate. rewrite map_map.
  apply map_ext_in. intros i _. by rewrite map_map.
Qed.
End ArrayFacts.

(** ** Assignments into an array *)

Section Assignments.
Context {T : Type} `{Dtype T}.

Lemma setitem2_tabulate (n m i j : nat) (f : nat -> nat -> T) (v : T) :
  i < n -> j < m ->
  setitem2 (tabulate n m f) i j v
  = Ok (tabulate n m (fun a b => if decide (a = i /\ b = j) then v else f a b)).
Proof.
  intros Hi Hj. unfold setitem2. rewrite lookup_tabulate by done.
  rewrite length_map, length_seq. destruct (decide (j < m)); [|lia]. f_equal.
  apply (matrix_ext n m); [|apply has_shape_tabulate|].
  - destruct (has_shape_tabulate n m f) as [Hl Hrows]. split.
    + by rewrite length_insert.
    + apply Forall_insert; [done|].
      by rewrite length_insert, length_map, length_seq.
  - intros a b Ha Hb. rewrite getitem2_tabulate by done.
    unfold getitem2. destruct (decide (a = i)) as [->|Hne].
    + rewrite list_lookup_insert_eq
        by (by destruct (has_shape_tabulate n m f) as [-> _]).
      destruct (decide (b = j)) as [->|Hnb].
      * rewrite list_lookup_insert_eq by (by rewrite length_map, length_seq).
        destruct (decide (i = i /\ j = j)) as [|[]]; done.
      * rewrite list_lookup_insert_ne by done.
        rewrite list_lookup_fmap, lookup_seq_lt by done. simpl.
        destruct (decide (i = i /\ b = j)) as [[_ ?]|]; [done|done].
    + rewrite list_lookup_insert_ne by done.
      rewrite lookup_tabulate by done.
      rewrite list_lookup_fmap, lookup_seq_lt by done. simpl.
      destruct (decide (a = i /\ b = j)) as [[? _]|]; [done|done].
Qed.

Lemma setitem2_out_of_bounds (n m i j : nat) (M : matrix T) (v : T) :
  has_shape n m M -> ~ (i < n /\ j < m) -> setitem2 M i j v = Raise IndexError.
Proof.
  intros HM Hout. unfold setitem2.
  destruct (M !! i) as [row|] eqn:Hrow; [|done].
  assert (i < n) as Hi.
  { destruct HM as [<- _]. by eapply lookup_lt_Some. }
  destruct (has_shape_lookup n m M i HM Hi) as (row' & Hrow' & Hlen).
  assert (row' = row) as -> by congruence.
  destruct (decide (j < length row)); [lia|done].
Qed.

Lemma setitem_pairs_tabulate (n m : nat) (ivs : list ((nat * nat) * T))
    (f : nat -> nat -> T) :
  Forall (fun iv => iv.1.1 < n /\ iv.1.2 < m) ivs ->
  setitem_pairs (tabulate n m f) ivs = Ok (tabulate n m (assigned ivs f)).
Proof.
  unfold setitem_pairs. revert f.
  induction ivs as [|iv rest IH]; intros f Hb; simpl; [done|].
  apply Forall_cons in Hb as [[Hi Hj] Hrest].
  rewrite setitem2_tabulate by done. simpl. by apply IH.
Qed.

(** When every assigned value is the value [g] gives to its position, the
    array holds [g] on the assigned positions and is unchanged
    elsewhere. *)
Lemma assigned_function (ivs : list ((nat * nat) * T)) (f g : nat -> nat -> T)
    (i j : nat) :
  Forall (fun iv => iv.2 = g iv.1.1 iv.1.2) ivs ->
  assigned ivs f i j = if decide ((i, j) ∈ ivs.*1) then g i j else f i j.
Proof.
  revert f. induction ivs as [|[[i0 j0] v] rest IH]; intros f Hg.
  - simpl. destruct (decide ((i, j) ∈ [])) as [?%elem_of_nil|]; done.
  - apply Forall_cons in Hg as [Hv Hrest]. simpl in Hv.
    cbn [assigned fst snd]. rewrite IH by done. rewrite fmap_cons. cbn [fst].
    repeat case_decide; try done.
    + exfalso. rewrite elem_of_cons in *. tauto.
    + destruct_and!. by subst.
    + exfalso. rewrite elem_of_cons in *. destruct_and!. subst. tauto.
    + exfalso. rewrite elem_of_cons in *. destruct_or!; [|done].
      simplify_eq. tauto.
Qed.

Lemma elem_of_triu_indices (n m i j : nat) :
  (i, j) ∈ triu_indices n m <-> i < n /\ i <= j < m.
Proof.
  unfold triu_indices. rewrite list_elem_of_In, in_flat_map. split.
  - intros (a & Ha%in_seq & Hin%in_map_iff).
    destruct Hin as (b & [= -> ->] & Hb%in_seq). lia.
  - intros [Hi Hj]. exists i. split; [apply in_seq; lia|].
    apply in_map_iff. exists j. split; [done|]. apply in_seq. lia.
Qed.

Lemma length_triu_from (m a k : nat) :
  a + k <= m ->
  2 * length (flat_map (fun i => map (fun j => (i, j)) (seq i (m - i))) (seq a k))
  + k * (2 * a + k) = k * (2 * m + 1).
Proof.
  revert a. induction k as [|k IH]; intros a Hle; simpl; [lia|].
  rewrite length_app, length_map, length_seq.
  specialize (IH (S a) ltac:(lia)). nia.
Qed.

Lemma length_triu_indices (n : nat) :
  2 * length (triu_indices n n) = n * (n + 1).
Proof.
  pose proof (length_triu_from n 0 n ltac:(lia)) as Hlen.
  unfold triu_indices. nia.
Qed.

Lemma length_triu_indices_div (n : nat) :
  length (triu_indices n n) = n * (n + 1) / 2.
Proof.
  rewrite <- length_triu_indices, Nat.mul_comm. symmetry. by apply Nat.div_mul.
Qed.

Lemma sym_n_of_triangular (n : nat) :
  sym_n_floor (length (triu_indices n n)) = n /\
  sym_n_ceil (length (triu_indices n n)) = n.
Proof.
  pose proof (length_triu_indices n) as Hlen.
  assert (Hsq : (1 + 8 * Z.of_nat (length (triu_indices n n))
                 = (2 * Z.of_nat n + 1) * (2 * Z.of_nat n + 1))%Z) by nia.
  assert (Hroot : Z.sqrt (1 + 8 * Z.of_nat (length (triu_indices n n)))
                  = (2 * Z.of_nat n + 1)%Z).
  { rewrite Hsq. apply Z.sqrt_square. lia. }
  assert (Hfloor : sym_n_floor (length (triu_indices n n)) = n).
  { unfold sym_n_floor. rewrite Hroot.
    replace (2 * Z.of_nat n + 1 - 1)%Z with (Z.of_nat n * 2)%Z by lia.
    rewrite Z.div_mul by lia. apply Nat2Z.id. }
  split; [done|].
  unfold sym_n_ceil, sym_n_integral. rewrite Hroot, <- Hsq, Z.eqb_refl. done.
Qed.
End Assignments.

(** ** Binary64 arithmetic

    The facts about doubles the array code relies on, from the
    specification of the primitive operations ([FloatAxioms]). *)

Section Binary64.
Local Open Scope Z_scope.

Lemma canonical_cases (m : positive) (e : Z) :
  canonical_mantissa prec emax m e = true ->
  (Zpos (digits2_pos m) = 53 /\ -1074 <= e) \/ (Zpos (digits2_pos m) < 53 /\ e = -1074).
Proof.
  unfold canonical_mantissa, fexp, emin, prec, emax. intros Hc%Z.eqb_eq. lia.
Qed.

Lemma fexp_canonical (m : positive) (e : Z) :
  canonical_mantissa prec emax m e = true ->
  fexp prec emax (Zpos (digits2_pos m) + e) = e.
Proof. unfold canonical_mantissa. apply Z.eqb_eq. Qed.

Lemma shl_align_same (m : positive) (e : Z) : shl_align m e e = (m, e).
Proof. unfold shl_align. by rewrite Z.sub_diag. Qed.

Lemma binary_round_aux_canonical (s : bool) (m : positive) (e : Z) :
  canonical_mantissa prec emax m e = true -> e <= emax - prec ->
  binary_round_aux prec emax s (Zpos m) e loc_Exact = S754_finite s m e.
Proof.
  intros Hc He. unfold binary_round_aux, shr_fexp. simpl Zdigits2.
  rewrite (fexp_canonical m e Hc), Z.sub_diag. simpl.
  rewrite (fexp_canonical m e Hc), Z.sub_diag. simpl.
  apply Z.leb_le in He. by rewrite He.
Qed.

Lemma binary_round_canonical (s : bool) (m : positive) (e : Z) :
  canonical_mantissa prec emax m e = true -> e <= emax - prec ->
  binary_round prec emax s m e = S754_finite s m e.
Proof.
  intros Hc He. unfold binary_round.
  rewrite (fexp_canonical m e Hc), shl_align_same.
  by apply binary_round_aux_canonical.
Qed.

Lemma binary_round_double_normal (s : bool) (m : positive) (e : Z) :
  canonical_mantissa prec emax m e = true ->
  Zpos (digits2_pos m) = 53 -> e + 1 <= emax - prec ->
  binary_round prec emax s (m~0) e = S754_finite s m (e + 1).
Proof.
  intros Hc Hd He.
  assert (Hf1 : fexp prec emax (Zpos (digits2_pos (m~0)%positive) + e) = e + 1).
  { apply fexp_canonical in Hc. revert Hc. simpl digits2_pos.
    unfold fexp, emin, prec, emax. lia. }
  assert (Hf2 : fexp prec emax (Zpos (digits2_pos m) + (e + 1)) = e + 1).
  { apply fexp_canonical in Hc. revert Hc.
    unfold fexp, emin, prec, emax. lia. }
  unfold binary_round. rewrite Hf1.
  replace (shl_align (m~0)%positive e (e + 1)) with ((m~0)%positive, e).
  2:{ unfold shl_align. by replace (e + 1 - e) with 1 by lia. }
  unfold binary_round_aux, shr_fexp.
  change (Zdigits2 (Z.pos (m~0)%positive)) with (Z.pos (digits2_pos (m~0)%positive)).
  rewrite Hf1.
  replace (e + 1 - e) with 1 by lia. simpl.
  rewrite Hf2, Z.sub_diag. simpl.
  apply Z.leb_le in He. by rewrite He.
Qed.

Lemma canonical_double_subnormal (m : positive) (e : Z) :
  canonical_mantissa prec emax m e = true ->
  Zpos (digits2_pos m) < 53 ->
  canonical_mantissa prec emax (m~0)%positive e = true.
Proof.
  unfold canonical_mantissa. intros Hc%Z.eqb_eq Hd. apply Z.eqb_eq.
  revert Hc. simpl digits2_pos. unfold fexp, emin, prec, emax. lia.
Qed.

Lemma SF_add_self_finite (s : bool) (m : positive) (e : Z) :
  SF64add (S754_finite s m e) (S754_finite s m e) = binary_round prec emax s (m~0) e.
Proof.
  unfold SF64add, SFadd. rewrite Z.min_id, shl_align_same. simpl fst.
  destruct s; simpl; by rewrite Pos.add_diag.
Qed.

Lemma SF_sub_double_finite (s : bool) (m m2 : positive) (e e2 : Z) :
  shl_align m2 e2 e = ((m~0)%positive, e) -> Z.min e2 e = e ->
  SF64sub (S754_finite s m2 e2) (S754_finite s m e) = binary_round prec emax s m e.
Proof.
  intros Hal Hmin. unfold SF64sub, SFsub. rewrite Hmin, Hal, shl_align_same. simpl fst.
  destruct s; simpl cond_Zopp.
  - replace (- Z.pos (m~0)%positive - - Z.pos m) with (Z.neg m) by lia. reflexivity.
  - replace (Z.pos (m~0)%positive - Z.pos m) with (Z.pos m) by lia. reflexivity.
Qed.

Lemma SF_double_finite (s : bool) (m : positive) (e : Z) :
  bounded prec emax m e = true -> e < emax - prec ->
  SF64sub (SF64add (S754_finite s m e) (S754_finite s m e)) (S754_finite s m e)
  = S754_finite s m e.
Proof.
  intros [Hc He]%andb_prop Hlt. apply Z.leb_le in He.
  rewrite SF_add_self_finite.
  destruct (canonical_cases m e Hc) as [[Hd Hmin]|[Hd ->]].
  - rewrite binary_round_double_normal by (done || lia).
    rewrite (SF_sub_double_finite s m m e (e + 1)).
    + by apply binary_round_canonical.
    + unfold shl_align. by replace (e - (e + 1)) with (-1) by lia.
    + lia.
  - rewrite binary_round_canonical
      by (by apply canonical_double_subnormal || done).
    rewrite (SF_sub_double_finite s m (m~0) (-1074) (-1074)).
    + by apply binary_round_canonical.
    + apply shl_align_same.
    + done.
Qed.


Lemma digits2_pos_lower (m : positive) :
  2 ^ (Zpos (digits2_pos m) - 1) <= Zpos m.
Proof.
  induction m as [m IH|m IH|]; simpl digits2_pos.
  - rewrite Pos2Z.inj_succ. replace (Z.succ (Zpos (digits2_pos m)) - 1)
      with (Z.succ (Zpos (digits2_pos m) - 1)) by lia.
    rewrite Z.pow_succ_r by lia. lia.
  - rewrite Pos2Z.inj_succ. replace (Z.succ (Zpos (digits2_pos m)) - 1)
      with (Z.succ (Zpos (digits2_pos m) - 1)) by lia.
    rewrite Z.pow_succ_r by lia. lia.
  - simpl. lia.
Qed.

Lemma Prim2SF_zero : Prim2SF 0 = S754_zero false.
Proof. reflexivity. Qed.

Lemma Prim2SF_half_max : Prim2SF 0x1p1023 = S754_finite false 4503599627370496 971.
Proof. reflexivity. Qed.

Lemma is_neg_zero_false (x : float) :
  is_neg_zero x = false -> Prim2SF x <> S754_zero true.
Proof.
  unfold is_neg_zero. rewrite FloatAxioms.classify_spec. intros Hc Hx. rewrite Hx in Hc. done.
Qed.

Lemma below_half_max_finite (x : float) (s : bool) (m : positive) (e : Z) :
  below_half_max x = true -> Prim2SF x = S754_finite s m e ->
  bounded prec emax m e = true /\ e < emax - prec.
Proof.
  intros Hlt Hx.
  pose proof (Prim2SF_valid x) as Hv. rewrite Hx in Hv.
  change (bounded prec emax m e = true) in Hv.
  split; [exact Hv|].
  unfold below_half_max in Hlt.
  rewrite FloatAxioms.ltb_spec, FloatAxioms.abs_spec, Hx, Prim2SF_half_max in Hlt.
  unfold SFltb, SFabs, SFcompare in Hlt.
  apply andb_prop in Hv as [Hc He]. apply Z.leb_le in He.
  change (emax - prec) with 971 in *.
  destruct (e ?= 971) eqn:Hcmp_e.
  - apply Z.compare_eq_iff in Hcmp_e. exfalso.
    destruct (canonical_cases m e Hc) as [[Hd _]|[_ ?]]; [|lia].
    pose proof (digits2_pos_lower m) as Hlow. rewrite Hd in Hlow.
    assert (Hm : (m < 4503599627370496)%positive).
    { apply Pos.compare_lt_iff. unfold Pos.compare.
      destruct (Pos.compare_cont Eq m 4503599627370496) eqn:Hcmp;
        [discriminate Hlt|exact Hcmp|discriminate Hlt]. }
    assert (Hpow : 2 ^ (53 - 1) = 4503599627370496) by reflexivity.
    rewrite Hpow in Hlow. apply Pos2Z.pos_lt_pos in Hm.
    exact (Z.lt_irrefl _ (Z.le_lt_trans _ _ _ Hlow Hm)).
  - by apply Z.compare_lt_iff in Hcmp_e.
  - discriminate Hlt.
Qed.
(** Doubling and subtracting once gives the value back. *)
Lemma double_sub_exact (x : float) :
  below_half_max x = true -> is_neg_zero x = false -> (x + x - x)%float = x.
Proof.
  intros Hlt Hnz. apply Prim2SF_inj.
  rewrite FloatAxioms.sub_spec, FloatAxioms.add_spec.
  destruct (Prim2SF x) as [s|s| |s m e] eqn:Hx.
  - destruct s; [by apply is_neg_zero_false in Hnz|reflexivity].
  - unfold below_half_max in Hlt.
    rewrite FloatAxioms.ltb_spec, FloatAxioms.abs_spec, Hx, Prim2SF_half_max in Hlt. done.
  - unfold below_half_max in Hlt.
    rewrite FloatAxioms.ltb_spec, FloatAxioms.abs_spec, Hx, Prim2SF_half_max in Hlt. done.
  - destruct (below_half_max_finite x s m e Hlt Hx) as [Hb He].
    by apply SF_double_finite.
Qed.

Lemma add_zero_sub_zero (x : float) :
  is_neg_zero x = false -> (x + 0 - 0)%float = x.
Proof.
  intros Hnz. apply Prim2SF_inj.
  rewrite FloatAxioms.sub_spec, FloatAxioms.add_spec, Prim2SF_zero.
  destruct (Prim2SF x) as [s|s| |s m e] eqn:Hx; try reflexivity.
  all: destruct s; try reflexivity.
  by apply is_neg_zero_false in Hnz.
Qed.

Lemma zero_add_comm (x : float) : (0 + x)%float = (x + 0)%float.
Proof.
  apply Prim2SF_inj. rewrite !FloatAxioms.add_spec, Prim2SF_zero.
  destruct (Prim2SF x) as [s|s| |s m e]; try reflexivity.
  all: destruct s; reflexivity.
Qed.

Lemma eqb_refl_not_nan (x : float) :
  Prim2SF x <> S754_nan -> (x =? x)%float = true.
Proof.
  intros Hn. rewrite FloatAxioms.eqb_spec. unfold SFeqb, SFcompare.
  destruct (Prim2SF x) as [s|s| |s m e]; try done.
  - by destruct s.
  - destruct s; rewrite Z.compare_refl.
    + change (Pos.compare_cont Eq m m) with (m ?= m)%positive.
      by rewrite Pos.compare_refl.
    + change (Pos.compare_cont Eq m m) with (m ?= m)%positive.
      by rewrite Pos.compare_refl.
Qed.

Lemma neg_zero_of_spec (x : float) : Prim2SF x = S754_zero true -> x = (-0)%float.
Proof.
  intros Hx. rewrite <- (SF2Prim_Prim2SF x), Hx. reflexivity.
Qed.

Lemma double_sub_eqb (x : float) :
  below_half_max x = true -> (x + x - x =? x)%float = true.
Proof.
  intros Hlt. destruct (is_neg_zero x) eqn:Hnz.
  - unfold is_neg_zero in Hnz. rewrite FloatAxioms.classify_spec in Hnz.
    assert (Prim2SF x = S754_zero true) as ->%neg_zero_of_spec; [|reflexivity].
    unfold SF64classify, SFclassify in Hnz.
    destruct (Prim2SF x) as [[]|[]| |[] m e]; try done.
    all: by destruct (_ =? _)%Z.
  - rewrite double_sub_exact by done.
    apply eqb_refl_not_nan. intros Hx.
    unfold below_half_max in Hlt.
    rewrite FloatAxioms.ltb_spec, FloatAxioms.abs_spec, Hx, Prim2SF_half_max in Hlt. done.
Qed.
End Binary64.

(** ** The symmetric codec *)

Section SymCodec.
Context {T : Type} `{Dtype T}.

Lemma ncols_has_shape (n m : nat) (M : matrix T) :
  has_shape n m M -> 0 < n -> ncols M = m.
Proof.
  intros [Hn Hrows] Hpos. destruct M as [|row M]; simpl in *; [lia|].
  by apply Forall_cons in Hrows as [? _].
Qed.

Lemma symSave_square (n : nat) (M : matrix T) :
  has_shape n n M ->
  symSave M = Ok (map (fun ij : nat * nat => entry M ij.1 ij.2) (triu_indices n n)).
Proof.
  intros HM. unfold symSave.
  destruct (decide (n = 0)) as [->|Hn].
  - destruct HM as [HM _]. by destruct M.
  - rewrite (ncols_has_shape n n M HM) by lia. destruct HM as [Hlen Hrows].
    rewrite Hlen. apply mapR_ok. intros [i j] Hij%elem_of_triu_indices. simpl.
    apply (getitem2_entry n n); [done|lia..].
Qed.

Lemma fill_upper_tabulate (n : nat) (g : nat -> nat -> T) :
  setitem_pairs (zeros2 n n)
    (map (fun ij : nat * nat => (ij, g ij.1 ij.2)) (triu_indices n n))
  = Ok (tabulate n n (upper_of g)).
Proof.
  rewrite zeros2_tabulate, setitem_pairs_tabulate.
  - f_equal. apply tabulate_ext. intros i j Hi Hj.
    rewrite (assigned_function _ _ g).
    + rewrite <- list_fmap_compose. unfold compose. simpl. rewrite list_fmap_id.
      unfold upper_of.
      destruct (decide ((i, j) ∈ triu_indices n n)) as [Hin|Hnin];
        destruct (decide (i <= j)) as [Hle|Hgt]; try done.
      * apply elem_of_triu_indices in Hin. lia.
      * exfalso. apply Hnin, elem_of_triu_indices. lia.
    + apply Forall_forall. by intros iv (ij & -> & _)%list_elem_of_fmap.
  - apply Forall_forall. intros iv (ij & -> & Hij)%list_elem_of_fmap.
    destruct ij as [i j]. apply elem_of_triu_indices in Hij. simpl. lia.
Qed.

(** [M + M.T - diag(diag(M))] on the filled upper triangle. *)
Lemma mirror_upper_tabulate (n : nat) (g : nat -> nat -> T) :
  (do t <- bcast2 add (tabulate n n (upper_of g)) (transpose (tabulate n n (upper_of g)));
   bcast2 sub t (np_diag_mat (np_diag_vec (tabulate n n (upper_of g)))))
  = Ok (tabulate n n (fun i j =>
          sub (add (upper_of g i j) (upper_of g j i))
              (if decide (i = j) then upper_of g i i else zero))).
Proof.
  rewrite transpose_tabulate, bcast2_tabulate. simpl.
  rewrite np_diag_vec_tabulate, np_diag_mat_tabulate, bcast2_tabulate. done.
Qed.

Lemma symLoad_triangular (n : nat) (g : nat -> nat -> T) :
  symLoad (map (fun ij : nat * nat => g ij.1 ij.2) (triu_indices n n))
  = Ok (tabulate n n (fun i j =>
          sub (add (upper_of g i j) (upper_of g j i))
              (if decide (i = j) then upper_of g i i else zero))).
Proof.
  unfold symLoad. rewrite length_map.
  destruct (sym_n_of_triangular n) as [-> ->].
  unfold setitem_fancy. rewrite length_map, Nat.eqb_refl.
  replace (zip (triu_indices n n) (map (fun ij : nat * nat => g ij.1 ij.2) (triu_indices n n)))
    with (map (fun ij : nat * nat => (ij, g ij.1 ij.2)) (triu_indices n n))
    by (by rewrite zip_with_fmap_r, zip_with_diag).
  rewrite fill_upper_tabulate. simpl. apply mirror_upper_tabulate.
Qed.

(** C3.  When the length of the compact form is not a triangular number
    N(N+1)/2, [symLoad] raises and returns no matrix: the values do not
    fit the positions of [np.triu_indices(n)] in the assignment
    [array[indices] = loaded]. *)
Theorem symLoad_length_not_triangular (loaded : list T) :
  (forall N, length loaded <> N * (N + 1) / 2) ->
  (exists e, symLoad loaded = Raise e) /\ (forall M, symLoad loaded <> Ok M).
Proof.
  intros Hnot.
  assert (Hraise : symLoad loaded = Raise ValueError).
  { unfold symLoad, setitem_fancy.
    destruct (Nat.eqb_spec (length loaded)
                (length (triu_indices (sym_n_ceil (length loaded))
                                      (sym_n_ceil (length loaded))))) as [Heq|_].
    { rewrite length_triu_indices_div in Heq. by apply Hnot in Heq. }
    destruct loaded as [|v [|w rest]]; [done| |done].
    exfalso. by apply (Hnot 1). }
  rewrite Hraise. split; [by eexists|done].
Qed.
End SymCodec.

Lemma symLoad_length_not_triangular_witness :
  (exists e, symLoad [1; 2]%float = Raise e) /\
  (forall M, symLoad [1; 2]%float <> Ok M).
Proof.
  apply (symLoad_length_not_triangular [1; 2]%float).
  intros N Heq. change (length [1; 2]%float) with 2 in Heq.
  destruct N as [|[|N]]; [discriminate Heq..|].
  assert (Hge : 3 <= S (S N) * (S (S N) + 1) / 2).
  { apply Nat.div_le_lower_bound; lia. }
  lia.
Defined.

Lemma entry_Forall {T : Type} `{Dtype T} (P : T -> Prop) (n m : nat) (M : matrix T)
    (i j : nat) :
  has_shape n m M -> Forall (Forall P) M -> i < n -> j < m -> P (entry M i j).
Proof.
  intros HM HP Hi Hj.
  destruct (has_shape_lookup n m M i HM Hi) as (row & Hrow & Hlen).
  destruct (lookup_lt_is_Some_2 row j) as [x Hx]; [lia|].
  unfold entry. rewrite (nth_lookup_Some _ _ _ _ Hrow), (nth_lookup_Some _ _ _ _ Hx).
  rewrite Forall_forall in HP.
  assert (Forall P row) as Hr by (apply HP; by eapply list_elem_of_lookup_2).
  rewrite Forall_forall in Hr. apply Hr. by eapply list_elem_of_lookup_2.
Qed.

Lemma entry_symmetric {T : Type} `{Dtype T} (n : nat) (M : matrix T) (i j : nat) :
  has_shape n n M -> symmetric M -> i < n -> j < n -> entry M i j = entry M j i.
Proof.
  intros HM Hsym Hi Hj. specialize (Hsym i j).
  rewrite (getitem2_entry n n M i j), (getitem2_entry n n M j i) in Hsym by done.
  by injection Hsym.
Qed.

Lemma np_diag_vec_square {T : Type} `{Dtype T} (n : nat) (M : matrix T) :
  has_shape n n M -> np_diag_vec M = map (fun i => entry M i i) (seq 0 n).
Proof.
  intros HM. rewrite (tabulate_entry n n M HM) at 1.
  rewrite np_diag_vec_tabulate. done.
Qed.

(** The claim C2 as stated fails on a symmetric 1-by-1 matrix whose entry
    doubles to infinity: the diagonal is rebuilt as a + a - a. *)
Lemma symLoad_symSave_overflow :
  has_shape 1 1 [[0x1p1023%float]] /\ symmetric [[0x1p1023%float]] /\
  symSave [[0x1p1023%float]] = Ok [0x1p1023%float] /\
  symLoad [0x1p1023%float] = Ok [[infinity]] /\
  symLoad [0x1p1023%float] <> Ok [[0x1p1023%float]].
Proof.
  assert (Hload : symLoad [0x1p1023%float] = Ok [[infinity]]) by reflexivity.
  repeat apply conj.
  - reflexivity.
  - repeat constructor.
  - intros [|i] [|j]; reflexivity.
  - reflexivity.
  - exact Hload.
  - rewrite Hload. intros Heq.
    apply (f_equal (fun r : result (matrix float) =>
                      match r with
                      | Ok [[x]] => is_infinity x
                      | _ => false
                      end)) in Heq.
    discriminate Heq.
Qed.

(** C2 (amended).  For a symmetric n-by-n matrix of doubles with no entry
    equal to -0.0 and every diagonal entry finite and below 2^1023 in
    magnitude, [symLoad] of the compact form written by [symSave] is the
    matrix itself, bit for bit. *)
Theorem symLoad_symSave_roundtrip (n : nat) (M : matrix float) :
  has_shape n n M ->
  symmetric M ->
  Forall (Forall (fun x => is_neg_zero x = false)) M ->
  Forall (fun a => below_half_max a = true) (np_diag_vec M) ->
  exists compact, symSave M = Ok compact /\ symLoad compact = Ok M.
Proof.
  intros HM Hsym Hnz Hdiag.
  eexists. split; [by apply symSave_square|].
  rewrite (symLoad_triangular n (entry M)). f_equal.
  etrans; [|symmetry; apply (tabulate_entry n n M HM)].
  apply tabulate_ext. intros i j Hi Hj. unfold upper_of.
  assert (Hij : is_neg_zero (entry M i j) = false)
    by (by apply (entry_Forall (fun x => is_neg_zero x = false) n n)).
  destruct (decide (i = j)) as [<-|Hne].
  - destruct (decide (i <= i)); [|lia].
    apply double_sub_exact; [|done].
    rewrite (np_diag_vec_square n M HM), Forall_forall in Hdiag.
    apply Hdiag. apply list_elem_of_fmap. exists i. split; [done|].
    apply elem_of_seq. lia.
  - destruct (decide (i <= j)), (decide (j <= i)); try lia.
    + by apply add_zero_sub_zero.
    + rewrite <- (entry_symmetric n M i j) by done.
      change (PrimFloat.sub (PrimFloat.add 0 (entry M i j)) 0 = entry M i j).
      rewrite zero_add_comm. by apply add_zero_sub_zero.
Qed.

Lemma symLoad_symSave_roundtrip_witness :
  exists compact,
    symSave [[1; 2]; [2; 5]]%float = Ok compact /\
    symLoad compact = Ok [[1; 2]; [2; 5]]%float.
Proof.
  apply (symLoad_symSave_roundtrip 2 [[1; 2]; [2; 5]]%float).
  - split; [reflexivity|]. repeat constructor.
  - intros [|[|i]] [|[|j]]; reflexivity.
  - repeat constructor.
  - repeat constructor.
Defined.

(** ** Matrix products and the eigen-decomposition inverse *)

Section Products.
Context {T : Type} `{Dtype T}.

Lemma map_as_seq {A : Type} (h : T -> A) (v : list T) :
  map h v = map (fun k => h (nth k v zero)) (seq 0 (length v)).
Proof.
  rewrite <- (map_nth_seq v zero) at 1. by rewrite map_map.
Qed.

Lemma np_dot_tabulate (n : nat) (f g : nat -> nat -> T) :
  np_dot (tabulate n n f) (tabulate n n g) = Ok (tabulate n n (spec_matmul n f g)).
Proof.
  unfold np_dot.
  destruct (decide (n = 0)) as [->|Hn]; [done|].
  rewrite ncols_tabulate by lia.
  destruct (has_shape_tabulate n n g) as [-> _]. rewrite Nat.eqb_refl. f_equal.
  rewrite transpose_tabulate. unfold tabulate. rewrite map_map.
  apply map_ext_in. intros i _.
  rewrite map_map. apply map_ext_in. intros j _.
  unfold spec_matmul. f_equal.
  by rewrite zip_with_fmap_l, zip_with_fmap_r, zip_with_diag.
Qed.

Lemma RDInvert_spec (n : nat) (eigVals : list T) (eigVecs : matrix T) :
  length eigVals = n -> has_shape n n eigVecs ->
  RDInvert eigVals eigVecs = Ok (spec_RDInvert n eigVals eigVecs).
Proof.
  intros Hlen HV. unfold RDInvert, spec_RDInvert.
  rewrite (map_as_seq (fun x => div one x) eigVals), Hlen, np_diag_mat_tabulate.
  pose proof (tabulate_entry n n eigVecs HV) as HE.
  set (V := entry eigVecs) in *. rewrite HE.
  rewrite transpose_tabulate, np_dot_tabulate. simpl.
  rewrite np_dot_tabulate. done.
Qed.
End Products.

(** The claim C4 as stated fails on the eigenvalue array [0.0]: numpy's
    [eigVals**-1] is infinity there and [RDInvert] returns a matrix. *)
Lemma RDInvert_zero_eigenvalue :
  RDInvert [0%float] [[1%float]] = Ok [[infinity]] /\
  (forall e, RDInvert [0%float] [[1%float]] <> Raise e).
Proof.
  assert (Hrun : RDInvert [0%float] [[1%float]] = Ok [[infinity]]) by reflexivity.
  split; [exact Hrun|]. intros e. rewrite Hrun. discriminate.
Qed.

(** C4 (amended).  [RDInvert] never raises on a zero eigenvalue: for every
    array of n eigenvalues, zero or not, and every n-by-n array of
    eigenvectors it returns V·Λ⁻¹·Vᵗ with Λ inverted entry by entry, the
    reciprocal of a zero eigenvalue being the infinity 1/0 of the element
    type. *)
Theorem RDInvert_returns_product (n : nat) (eigVals : list float)
    (eigVecs : matrix float) :
  length eigVals = n ->
  has_shape n n eigVecs ->
  RDInvert eigVals eigVecs = Ok (spec_RDInvert n eigVals eigVecs) /\
  (forall e, RDInvert eigVals eigVecs <> Raise e).
Proof.
  intros Hlen HV. rewrite (RDInvert_spec n) by done. split; [done|discriminate].
Qed.

Lemma RDInvert_returns_product_witness :
  RDInvert [2; 0]%float [[1; 0]; [0; 1]]%float
  = Ok (spec_RDInvert 2 [2; 0]%float [[1; 0]; [0; 1]]%float) /\
  (forall e, RDInvert [2; 0]%float [[1; 0]; [0; 1]]%float <> Raise e).
Proof.
  apply (RDInvert_returns_product 2 [2; 0]%float [[1; 0]; [0; 1]]%float).
  - reflexivity.
  - split; [reflexivity|]. repeat constructor.
Defined.

(** ** The mean correction *)

Section MeanCorrection.
Context {T : Type} `{Dtype T}.

Lemma zip_with_replicate_r {A B C : Type} (h : A -> B -> C) (l : list A) (v : B) :
  zip_with h l (replicate (length l) v) = map (fun x => h x v) l.
Proof. induction l as [|x l IH]; simpl; [done|]. by rewrite IH. Qed.

Lemma replicate_as_seq {A : Type} (n : nat) (x : A) :
  replicate n x = map (fun _ => x) (seq 0 n).
Proof.
  apply list_eq. intros i. rewrite list_lookup_fmap.
  destruct (decide (i < n)).
  - rewrite lookup_replicate_2, lookup_seq_lt by done. done.
  - rewrite lookup_seq_ge by lia. apply lookup_replicate_None. lia.
Qed.

Lemma stretch_singleton {X : Type} (n : nat) (v : X) :
  0 < n -> stretch n [v] = replicate n v.
Proof.
  intros Hn. destruct n as [|[|n]]; [lia|done|done].
Qed.

Lemma bdim_one_r (n : nat) : 0 < n -> bdim n 1 = Ok n.
Proof.
  intros Hn. destruct n as [|[|n]]; [lia|done|done].
Qed.

(** A matrix against a one-dimensional array: the array is used for every
    row. *)
Lemma bcast2_row_vector (op : T -> T -> T) (n : nat) (f : nat -> nat -> T)
    (g : nat -> T) :
  bcast2 op (tabulate n n f) [map g (seq 0 n)]
  = Ok (tabulate n n (fun i j => op (f i j) (g j))).
Proof.
  destruct (decide (n = 0)) as [->|Hn]; [done|].
  unfold bcast2.
  destruct (has_shape_tabulate n n f) as [Hlen _].
  rewrite Hlen. simpl length. rewrite bdim_one_r by lia. simpl.
  rewrite ncols_tabulate by lia. rewrite length_map, length_seq, bdim_same. simpl.
  f_equal. rewrite stretch_singleton by lia.
  replace (stretch n (tabulate n n f)) with (tabulate n n f)
    by (unfold stretch; by rewrite Hlen, Nat.eqb_refl).
  replace (replicate n (map g (seq 0 n)))
    with (replicate (length (tabulate n n f)) (map g (seq 0 n))) by (by rewrite Hlen).
  rewrite zip_with_replicate_r.
  unfold tabulate. rewrite map_map. apply map_ext_in. intros i _.
  assert (Hst : forall h : nat -> T, stretch n (map h (seq 0 n)) = map h (seq 0 n)).
  { intros h. unfold stretch. by rewrite length_map, length_seq, Nat.eqb_refl. }
  rewrite !Hst. by rewrite zip_with_fmap_l, zip_with_fmap_r, zip_with_diag.
Qed.

Lemma repeat_rows_tabulate (n : nat) (C : matrix T) :
  length C = n ->
  repeat_rows (sum_axis1 C) n = tabulate n n (fun i _ => row_sum C i).
Proof.
  intros Hlen. unfold repeat_rows, sum_axis1, tabulate, row_sum.
  rewrite map_map. rewrite <- (map_nth_seq C []) at 1.
  rewrite map_map, Hlen. apply map_ext_in. intros i _.
  apply replicate_as_seq.
Qed.

(** The code computes the spec's formula, entry by entry. *)
Lemma cMatCorrect_spec (n : nat) (C : matrix T) :
  has_shape n n C -> cMatCorrect C = Ok (spec_cMatCorrect n C).
Proof.
  intros HC. unfold cMatCorrect, spec_cMatCorrect.
  destruct HC as [Hlen Hrows]. rewrite Hlen.
  rewrite (repeat_rows_tabulate n C Hlen).
  assert (Hc1 : map (fun x => div x (of_nat n)) (sum_axis0 C)
                = map (fun j => div (col_sum C j) (of_nat n)) (seq 0 n)).
  { unfold sum_axis0. rewrite map_map.
    destruct (decide (n = 0)) as [->|Hn]; [by destruct C|].
    by rewrite (ncols_has_shape n n C (conj Hlen Hrows)) by lia. }
  rewrite Hc1.
  rewrite (tabulate_entry n n C (conj Hlen Hrows)) at 1.
  rewrite bcast2_row_vector. simpl.
  rewrite map_scalar_tabulate, bcast2_tabulate. simpl.
  by rewrite map_scalar_tabulate.
Qed.
End MeanCorrection.

(** The fuel of the pairwise recursion is immaterial once it covers the
    length of the run. *)
Lemma pairwise_sum_rec_fuel {T : Type} `{Dtype T} (fuel1 fuel2 : nat) (a : list T) :
  length a <= fuel1 -> length a <= fuel2 ->
  pairwise_sum_rec fuel1 a = pairwise_sum_rec fuel2 a.
Proof.
  revert fuel2 a. induction fuel1 as [|fuel1 IH]; intros fuel2 a H1 H2.
  - destruct a; [|simpl in H1; lia]. by destruct fuel2.
  - cbn [pairwise_sum_rec].
    destruct (Nat.leb_spec (length a) 128) as [Hle|Hgt].
    + destruct fuel2; cbn [pairwise_sum_rec];
        by rewrite (proj2 (Nat.leb_le _ _) Hle).
    + destruct fuel2 as [|fuel2]; [lia|]. cbn [pairwise_sum_rec].
      rewrite (proj2 (Nat.leb_gt _ _) Hgt).
      pose proof (Nat.div_mod_eq (length a) 2) as Hdiv.
      pose proof (Nat.mod_upper_bound (length a) 2 ltac:(lia)) as Hm2.
      pose proof (Nat.div_mod_eq (length a / 2) 8) as Hdiv8.
      pose proof (Nat.mod_upper_bound (length a / 2) 8 ltac:(lia)) as Hm8.
      f_equal; apply IH; rewrite ?length_take, ?length_drop; lia.
Qed.

(** *** Exact arithmetic: sums over the rationals *)

Section ExactSums.
Local Open Scope Q_scope.

Lemma qsum_from (l : list Q) (a : Q) : fold_left Qplus l a == a + np_sum l.
Proof.
  unfold np_sum. simpl. revert a. induction l as [|x l IH]; intros a; simpl.
  - ring.
  - rewrite (IH (a + x)), (IH (0 + x)). ring.
Qed.

Lemma qsum_cons (x : Q) (l : list Q) : np_sum (x :: l) == x + np_sum l.
Proof.
  unfold np_sum at 1. simpl. rewrite qsum_from. ring.
Qed.

Lemma qsum_nil : np_sum ([] : list Q) == 0.
Proof. reflexivity. Qed.

Lemma qsum_app (l1 l2 : list Q) : np_sum (l1 ++ l2) == np_sum l1 + np_sum l2.
Proof.
  induction l1 as [|x l1 IH]; simpl.
  - rewrite qsum_nil. ring.
  - rewrite !qsum_cons, IH. ring.
Qed.

(** In exact arithmetic the order of summation does not matter: numpy's
    pairwise order gives the sum in index order. *)
Lemma accumulate8_exact (a : list Q) :
  forall r0 r1 r2 r3 r4 r5 r6 r7 : Q,
  let '((s0, s1, s2, s3, s4, s5, s6, s7), rest) :=
    accumulate8 (r0, r1, r2, r3, r4, r5, r6, r7) a in
  s0 + s1 + s2 + s3 + s4 + s5 + s6 + s7 + np_sum rest
  == r0 + r1 + r2 + r3 + r4 + r5 + r6 + r7 + np_sum a.
Proof.
  induction a as [a IH] using (induction_ltof1 _ (@length Q)). unfold ltof in IH.
  intros r0 r1 r2 r3 r4 r5 r6 r7.
  do 8 (destruct a as [|? a]; [cbn [accumulate8]; reflexivity|]).
  cbn [accumulate8].
  specialize (IH a ltac:(simpl; lia) (r0 + q) (r1 + q0) (r2 + q1) (r3 + q2)
                                      (r4 + q3) (r5 + q4) (r6 + q5) (r7 + q6)).
  cbn [add rational].
  destruct (accumulate8 _ a) as [[[[[[[[s0 s1] s2] s3] s4] s5] s6] s7] rest].
  rewrite IH, !qsum_cons. ring.
Qed.

Lemma block_sum_exact (a : list Q) : block_sum a == np_sum a.
Proof.
  unfold block_sum.
  do 8 (destruct a as [|? a]; [reflexivity|]).
  pose proof (accumulate8_exact a q q0 q1 q2 q3 q4 q5 q6) as Hacc.
  destruct (accumulate8 _ a) as [[[[[[[[s0 s1] s2] s3] s4] s5] s6] s7] rest].
  cbn [add rational]. rewrite qsum_from, !qsum_cons.
  transitivity (s0 + s1 + s2 + s3 + s4 + s5 + s6 + s7 + np_sum rest); [ring|].
  rewrite Hacc. ring.
Qed.

Lemma pairwise_sum_rec_exact (fuel : nat) (a : list Q) :
  pairwise_sum_rec fuel a == np_sum a.
Proof.
  revert a. induction fuel as [|fuel IH]; intros a; cbn [pairwise_sum_rec].
  - destruct (length a <=? 128)%nat; apply block_sum_exact.
  - destruct (length a <=? 128)%nat; [apply block_sum_exact|].
    cbn [add rational]. rewrite !IH, <- qsum_app. by rewrite take_drop.
Qed.

Lemma add_reduce_exact (a : list Q) : add_reduce a == np_sum a.
Proof.
  unfold add_reduce, pairwise_sum. cbn [add zero rational].
  rewrite pairwise_sum_rec_exact. ring.
Qed.

Lemma qsum_map_plus {A : Type} (f g : A -> Q) (l : list A) :
  np_sum (map (fun a => f a + g a) l) == np_sum (map f l) + np_sum (map g l).
Proof.
  induction l as [|a l IH]; simpl.
  - rewrite qsum_nil. ring.
  - rewrite !qsum_cons, IH. ring.
Qed.

(** The sum over a row of the corrected entries, term by term. *)
Lemma qsum_corrected_row {A : Type} (e c : A -> Q) (r t N : Q) (l : list A) :
  np_sum (map (fun j => e j - c j / N - r / N + t) l)
  == np_sum (map e l) - np_sum (map c l) / N
     - inject_Z (Z.of_nat (length l)) * (r / N) + inject_Z (Z.of_nat (length l)) * t.
Proof.
  induction l as [|a l IH].
  - simpl. rewrite qsum_nil. unfold Qdiv. ring.
  - cbn [map length]. rewrite !qsum_cons, IH.
    rewrite Nat2Z.inj_succ. unfold Z.succ. rewrite inject_Z_plus.
    unfold Qdiv. ring.
Qed.

Lemma col_sum_cons (row : list Q) (C : matrix Q) (j : nat) :
  col_sum (row :: C) j == nth j row 0 + col_sum C j.
Proof. unfold col_sum. cbn [map]. apply qsum_cons. Qed.

Lemma qsum_ext {A : Type} (f g : A -> Q) (l : list A) :
  (forall a, f a == g a) -> np_sum (map f l) == np_sum (map g l).
Proof.
  intros Hfg. induction l as [|a l IH]; simpl; [reflexivity|].
  by rewrite !qsum_cons, IH, Hfg.
Qed.

(** Adding the column sums gives the grand total. *)
Lemma qsum_col_sums (n m : nat) (C : matrix Q) :
  has_shape n m C -> np_sum (map (col_sum C) (seq 0 m)) == sum_all C.
Proof.
  revert n. induction C as [|row C IH]; intros n [Hlen Hrows].
  - unfold sum_all. rewrite add_reduce_exact. simpl. clear Hlen Hrows.
    induction (seq 0 m) as [|j l IHl]; simpl; [reflexivity|].
    rewrite qsum_cons, IHl. unfold col_sum. simpl. rewrite !qsum_nil. ring.
  - apply Forall_cons in Hrows as [Hrow Hrows].
    rewrite (qsum_ext _ (fun j => nth j row 0 + col_sum C j))
      by (intros j; apply col_sum_cons).
    rewrite qsum_map_plus, (IH (length C)) by done.
    unfold sum_all. rewrite !add_reduce_exact. cbn [concat]. rewrite qsum_app.
    rewrite <- Hrow. by rewrite map_nth_seq.
Qed.

End ExactSums.




(** ** Loops *)

Lemma for_each_app {S A : Type} (body : A -> S -> result S) (l1 l2 : list A) (s : S) :
  for_each body (l1 ++ l2) s = do s' <- for_each body l1 s; for_each body l2 s'.
Proof.
  revert s. induction l1 as [|a l1 IH]; intros s; simpl; [done|].
  destruct (body a s) as [s'|e]; simpl; [apply IH|done].
Qed.

Lemma for_each_map {S A B : Type} (body : B -> S -> result S) (h : A -> B)
    (l : list A) (s : S) :
  for_each body (map h l) s = for_each (fun a => body (h a)) l s.
Proof.
  revert s. induction l as [|a l IH]; intros s; simpl; [done|].
  destruct (body (h a) s) as [s'|e]; simpl; [apply IH|done].
Qed.

Lemma for_each_ext_in {S A : Type} (body1 body2 : A -> S -> result S)
    (l : list A) (s : S) :
  (forall a s, a ∈ l -> body1 a s = body2 a s) ->
  for_each body1 l s = for_each body2 l s.
Proof.
  revert s. induction l as [|a l IH]; intros s Hext; simpl; [done|].
  rewrite Hext by left.
  destruct (body2 a s) as [s'|e]; simpl; [|done].
  apply IH. intros; apply Hext; by right.
Qed.

Lemma for_each_flat_map {S A B : Type} (body : B -> S -> result S)
    (g : A -> list B) (l : list A) (s : S) :
  for_each body (flat_map g l) s = for_each (fun a s' => for_each body (g a) s') l s.
Proof.
  revert s. induction l as [|a l IH]; intros s; simpl; [done|].
  rewrite for_each_app.
  destruct (for_each body (g a) s) as [s'|e]; simpl; [apply IH|done].
Qed.

(** Two nested loops over the upper triangle whose body stores [g row
    column] leave the array that holds [g] on and above the diagonal. *)
Lemma upper_loops {T : Type} `{Dtype T} (n : nat) (g : nat -> nat -> T)
    (body : nat -> nat -> matrix T -> result (matrix T)) :
  (forall row column A, row <= column < n ->
     body row column A = setitem2 A row column (g row column)) ->
  for_each (fun row A => for_each (fun column A => body row column A)
                                  (py_range row n) A)
           (py_range 0 n) (zeros2 n n)
  = Ok (tabulate n n (upper_of g)).
Proof.
  intros Hbody.
  rewrite <- fill_upper_tabulate. unfold setitem_pairs, triu_indices.
  rewrite for_each_map, for_each_flat_map. unfold py_range. rewrite Nat.sub_0_r.
  apply for_each_ext_in. intros row A Hrow%elem_of_seq.
  rewrite for_each_map. apply for_each_ext_in. intros column A' Hcol%elem_of_seq.
  simpl. apply Hbody. lia.
Qed.

(** ** makeCmatrix *)

Lemma py_range_cons (row n : nat) :
  row < n -> py_range row n = row :: py_range (row + 1) n.
Proof.
  intros Hlt. unfold py_range.
  replace (n - row) with (S (n - (row + 1))) by lia.
  simpl. by rewrite Nat.add_1_r.
Qed.

Lemma cosTheta_tabulate (unitVectors : list (float * float * float)) (vecSize : nat) :
  length unitVectors = vecSize ->
  cosTheta unitVectors vecSize
  = Ok (tabulate vecSize vecSize (upper_of (cos_entry unitVectors))).
Proof.
  intros Hlen. unfold cosTheta.
  rewrite <- (upper_loops vecSize (cos_entry unitVectors)
                (fun row column A => setitem2 A row column (cos_entry unitVectors row column)))
    by done.
  apply for_each_ext_in. intros row A Hrow%elem_of_seq.
  rewrite (py_range_cons row vecSize) by lia. cbn [for_each].
  replace (cos_entry unitVectors row row) with 1%float
    by (unfold cos_entry; by destruct (decide (row = row))).
  destruct (setitem2 A row row 1%float) as [A1|e]; simpl; [|done].
  apply for_each_ext_in. intros column A' Hcol%elem_of_seq.
  destruct (lookup_lt_is_Some_2 unitVectors row) as [u Hu]; [lia|].
  destruct (lookup_lt_is_Some_2 unitVectors column) as [v Hv]; [lia|].
  rewrite Hu, Hv. unfold cos_entry.
  destruct (decide (row = column)); [lia|].
  by rewrite (nth_lookup_Some _ _ _ _ Hu), (nth_lookup_Some _ _ _ _ Hv).
Qed.

Lemma legval_nonempty (x : float) (c : list float) :
  c <> [] -> legval x c = Ok (legval_series x c).
Proof. by destruct c. Qed.

Lemma covUpper_tabulate (unitVectors : list (float * float * float))
    (preFac_l : list float) (vecSize : nat) :
  preFac_l <> [] ->
  covUpper (tabulate vecSize vecSize (upper_of (cos_entry unitVectors))) preFac_l vecSize
  = Ok (tabulate vecSize vecSize (upper_of (series_entry unitVectors preFac_l))).
Proof.
  intros Hne. unfold covUpper. apply upper_loops.
  intros row column A Hrc.
  rewrite getitem2_tabulate by lia. simpl.
  rewrite legval_nonempty by done. simpl. unfold upper_of, series_entry.
  destruct (decide (row <= column)); [done|lia].
Qed.

Lemma take_indices_ok (array : list float) (indices : list nat) :
  Forall (fun i => i < length array) indices ->
  take_indices array indices = Ok (map (fun i => nth i array 0%float) indices).
Proof.
  intros Hb. unfold take_indices. apply mapR_ok. intros i Hi.
  rewrite Forall_forall in Hb. apply Hb in Hi.
  destruct (lookup_lt_is_Some_2 array i Hi) as [x Hx].
  by rewrite Hx, (nth_lookup_Some _ _ _ _ Hx).
Qed.

Lemma np_where_bound (mask : list bool) :
  Forall (fun i => i < length mask) (np_where mask).
Proof.
  apply Forall_forall. intros i Hi%elem_of_np_where. by eapply lookup_lt_Some.
Qed.

Lemma getitem2_out_of_shape {T : Type} (n m : nat) (M : matrix T) (i j : nat) :
  has_shape n m M -> ~ (i < n /\ j < m) -> getitem2 M i j = Raise IndexError.
Proof.
  intros HM Hout. unfold getitem2.
  destruct (M !! i) as [row|] eqn:Hrow; [|done].
  assert (i < n) as Hi by (destruct HM as [<- _]; by eapply lookup_lt_Some).
  destruct (has_shape_lookup n m M i HM Hi) as (row' & Hrow' & Hlen).
  assert (row' = row) as -> by congruence.
  destruct (row !! j) as [x|] eqn:Hx; [|done].
  apply lookup_lt_Some in Hx. lia.
Qed.

Lemma symmetric_tabulate {T : Type} `{Dtype T} (n : nat) (f : nat -> nat -> T) :
  (forall i j, i < n -> j < n -> f i j = f j i) -> symmetric (tabulate n n f).
Proof.
  intros Hf i j.
  destruct (decide (i < n /\ j < n)) as [[Hi Hj]|Hout].
  - rewrite !getitem2_tabulate by done. by rewrite Hf.
  - rewrite !(getitem2_out_of_shape n n) by (apply has_shape_tabulate || lia). done.
Qed.

Lemma smoothing_lmax (Wpix : list float) (gauss_beam : float -> nat -> list float)
    (pixWin beamSmooth : bool) (lmax : nat) :
  (smoothing Wpix gauss_beam pixWin beamSmooth lmax).1.1
  = effective_lmax beamSmooth pixWin lmax.
Proof. by destruct pixWin, beamSmooth. Qed.

Lemma smoothing_fits (Wpix : list float) (gauss_beam : float -> nat -> list float)
    (pixWin beamSmooth : bool) (lmax : nat) :
  (pixWin = true -> 251 <= length Wpix) ->
  (beamSmooth = true -> length (gauss_beam (120 / 60 * np_pi / 180)%float 250) = 251) ->
  factor_fits (effective_lmax beamSmooth pixWin lmax + 1)
              (smoothing Wpix gauss_beam pixWin beamSmooth lmax).1.2 /\
  factor_fits (effective_lmax beamSmooth pixWin lmax + 1)
              (smoothing Wpix gauss_beam pixWin beamSmooth lmax).2.
Proof.
  intros HW HB. destruct pixWin, beamSmooth; simpl; split; try done.
  all: try (by apply HB).
  all: rewrite length_take; specialize (HW eq_refl); lia.
Qed.

Lemma factor_fits_sq (n : nat) (f : factor) :
  factor_fits n f -> factor_fits n (factor_sq f).
Proof. destruct f as [x|u]; simpl; [done|]. by rewrite length_map. Qed.

Lemma factor_mul_fits (n : nat) (v : list float) (f : factor) :
  length v = n -> factor_fits n f ->
  exists w, factor_mul v f = Ok w /\ length w = n.
Proof.
  intros Hv Hf. destruct f as [x|u]; simpl in *.
  - eexists. split; [done|]. by rewrite length_map.
  - rewrite Hv, Hf, bdim_same. simpl. eexists. split; [done|].
    rewrite <- Hv at 1. rewrite stretch_same.
    rewrite <- Hf at 1. rewrite stretch_same.
    rewrite length_zip_with. lia.
Qed.

(** On valid input the three broadcast products succeed and [preFac_l] has
    one entry per multipole up to the effective [lmax]. *)
Lemma preFactor_ok (Wpix : list float) (gauss_beam : float -> nat -> list float)
    (C_l : list float) (highpass : nat) (beamSmooth pixWin : bool) (lmax : nat)
    (useMicro : bool) :
  effective_lmax beamSmooth pixWin lmax < length C_l ->
  (pixWin = true -> 251 <= length Wpix) ->
  (beamSmooth = true -> length (gauss_beam (120 / 60 * np_pi / 180)%float 250) = 251) ->
  exists preFac_l,
    preFactor Wpix gauss_beam C_l highpass beamSmooth pixWin lmax useMicro = Ok preFac_l /\
    length preFac_l = effective_lmax beamSmooth pixWin lmax + 1.
Proof.
  intros HC HW HB.
  destruct (smoothing_fits Wpix gauss_beam pixWin beamSmooth lmax HW HB) as [HfW HfB].
  pose proof (smoothing_lmax Wpix gauss_beam pixWin beamSmooth lmax) as Hl.
  unfold preFactor.
  destruct (smoothing Wpix gauss_beam pixWin beamSmooth lmax) as [[lmax' W_l] B_l].
  simpl in Hl, HfW, HfB. subst lmax'.
  set (L := effective_lmax beamSmooth pixWin lmax) in *.
  set (fac_l := map _ (take (L + 1) (seq 0 (length C_l)))).
  assert (Hfac : length fac_l = L + 1).
  { unfold fac_l. rewrite length_map, length_take, length_seq. lia. }
  destruct (factor_mul_fits (L + 1) fac_l (factor_sq B_l) Hfac (factor_fits_sq _ _ HfB))
    as (t1 & -> & Ht1). cbn [rbind].
  destruct (factor_mul_fits (L + 1) t1 (factor_sq W_l) Ht1 (factor_fits_sq _ _ HfW))
    as (t2 & -> & Ht2). cbn [rbind].
  apply factor_mul_fits; [done|]. simpl.
  rewrite length_take.
  assert (L + 1 <= length (replicate highpass 0%float ++ drop highpass C_l)).
  { rewrite length_app, length_replicate, length_drop. lia. }
  destruct useMicro; [rewrite length_map|]; lia.
Qed.

(** On valid input makeCmatrix returns the mirrored upper triangle of the
    Legendre series. *)
Lemma makeCmatrix_spec (dir2vec : float -> float -> float * float * float)
    (Wpix : list float) (gauss_beam : float -> nat -> list float)
    (mask : list bool) (C_l gl gb : list float) (highpass : nat)
    (beamSmooth pixWin : bool) (lmax : nat) (useMicro : bool) :
  valid_input Wpix gauss_beam mask C_l gl gb beamSmooth pixWin lmax ->
  exists preFac_l,
    preFactor Wpix gauss_beam C_l highpass beamSmooth pixWin lmax useMicro = Ok preFac_l /\
    length preFac_l = effective_lmax beamSmooth pixWin lmax + 1 /\
    makeCmatrix dir2vec Wpix gauss_beam mask C_l gl gb highpass beamSmooth pixWin
                lmax useMicro
    = Ok (tabulate (length (np_where mask)) (length (np_where mask))
            (mirrored (series_entry (unit_vectors dir2vec mask gl gb) preFac_l))).
Proof.
  intros (Hgl & Hgb & HC & HW & HB).
  destruct (preFactor_ok Wpix gauss_beam C_l highpass beamSmooth pixWin lmax useMicro
              HC HW HB) as (preFac_l & Hpre & Hlen).
  exists preFac_l. split; [done|]. split; [done|].
  unfold makeCmatrix.
  rewrite !take_indices_ok
    by (eapply Forall_impl; [apply np_where_bound|]; simpl; lia).
  cbn [rbind]. rewrite length_map. fold (unit_vectors dir2vec mask gl gb).
  rewrite cosTheta_tabulate
    by (unfold unit_vectors; rewrite length_zip_with, !length_map; lia).
  cbn [rbind]. rewrite Hpre. cbn [rbind].
  rewrite covUpper_tabulate by (intros ->; simpl in Hlen; lia).
  cbn [rbind]. apply mirror_upper_tabulate.
Qed.

Lemma mirrored_sym (g : nat -> nat -> float) (i j : nat) :
  mirrored g i j = mirrored g j i.
Proof.
  destruct (decide (i = j)) as [->|Hne]; [done|].
  unfold mirrored, upper_of.
  destruct (decide (i = j)); [lia|]. destruct (decide (j = i)); [lia|].
  destruct (decide (i <= j)), (decide (j <= i)); try lia.
  - change ((g i j + 0 - 0)%float = (0 + g i j - 0)%float). by rewrite zero_add_comm.
  - change ((0 + g j i - 0)%float = (g j i + 0 - 0)%float). by rewrite zero_add_comm.
Qed.

(** The claim C7 as stated fails on the diagonal when the series is large:
    for one pixel and the spectrum (1.5 * 2^1023) * [1; 1; 1] the series at
    cosine 1.0 is a finite double, about 9.66e307, and the diagonal entry,
    rebuilt as v + v - v, is infinite. *)
Lemma makeCmatrix_diagonal_overflow :
  valid_input sample_Wpix sample_gauss_beam [true]
    [0x1.8p1023; 0x1.8p1023; 0x1.8p1023]%float [1]%float [0]%float false false 2 /\
  exists preFac_l,
    preFactor sample_Wpix sample_gauss_beam
      [0x1.8p1023; 0x1.8p1023; 0x1.8p1023]%float 0 false false 2 false = Ok preFac_l /\
    classify (legval_series 1 preFac_l) = PNormal /\
    makeCmatrix sample_dir2vec sample_Wpix sample_gauss_beam [true]
      [0x1.8p1023; 0x1.8p1023; 0x1.8p1023]%float [1]%float [0]%float
      0 false false 2 false
    = Ok [[infinity]].
Proof.
  split.
  - unfold valid_input. simpl. repeat split; (lia || discriminate).
  - eexists. split; [vm_compute; reflexivity|].
    split; vm_compute; reflexivity.
Qed.

(** C7 (amended).  On valid input makeCmatrix returns a square matrix, one
    row per active pixel, that is symmetric bit for bit: the Legendre
    series is evaluated only at the positions i <= j, and for i < j both
    the entry (i, j) and its mirror (j, i) are that one evaluation s, as
    s + 0 - 0.  Every diagonal entry is the series evaluated at cosine
    1.0, v, rebuilt as v + v - v: it equals v whenever v is finite and
    below 2^1023 in magnitude, and is then bit-identical to v unless v is
    -0.0. *)
Theorem makeCmatrix_symmetric
    (dir2vec : float -> float -> float * float * float)
    (Wpix : list float) (gauss_beam : float -> nat -> list float)
    (mask : list bool) (C_l gl gb : list float) (highpass : nat)
    (beamSmooth pixWin : bool) (lmax : nat) (useMicro : bool) :
  valid_input Wpix gauss_beam mask C_l gl gb beamSmooth pixWin lmax ->
  let n := length (np_where mask) in
  let unitVectors := unit_vectors dir2vec mask gl gb in
  exists preFac_l covArray,
    preFactor Wpix gauss_beam C_l highpass beamSmooth pixWin lmax useMicro = Ok preFac_l /\
    makeCmatrix dir2vec Wpix gauss_beam mask C_l gl gb highpass beamSmooth pixWin
                lmax useMicro = Ok covArray /\
    has_shape n n covArray /\
    symmetric covArray /\
    (forall i j, i < j < n ->
       entry covArray i j = (series_entry unitVectors preFac_l i j + 0 - 0)%float /\
       entry covArray j i = entry covArray i j) /\
    (forall i, i < n ->
       let v := legval_series 1 preFac_l in
       entry covArray i i = (v + v - v)%float /\
       (below_half_max v = true -> (entry covArray i i =? v)%float = true) /\
       (below_half_max v = true -> is_neg_zero v = false -> entry covArray i i = v)).
Proof.
  intros Hvalid n unitVectors.
  destruct (makeCmatrix_spec dir2vec Wpix gauss_beam mask C_l gl gb highpass
              beamSmooth pixWin lmax useMicro Hvalid) as (preFac_l & Hpre & Hlen & Hrun).
  fold n unitVectors in Hrun.
  exists preFac_l, (tabulate n n (mirrored (series_entry unitVectors preFac_l))).
  split; [done|]. split; [done|]. split; [apply has_shape_tabulate|].
  split; [apply symmetric_tabulate; intros; apply mirrored_sym|].
  split.
  - intros i j Hij. rewrite !entry_tabulate by lia. split.
    + unfold mirrored, upper_of.
      destruct (decide (i = j)); [lia|].
      destruct (decide (i <= j)), (decide (j <= i)); try lia. done.
    + apply mirrored_sym.
  - intros i Hi v. rewrite entry_tabulate by lia.
    assert (Hd : mirrored (series_entry unitVectors preFac_l) i i = (v + v - v)%float).
    { unfold mirrored, upper_of, series_entry, cos_entry.
      destruct (decide (i = i)); [|lia]. destruct (decide (i <= i)); [done|lia]. }
    rewrite Hd. split; [done|]. split.
    + apply double_sub_eqb.
    + apply double_sub_exact.
Qed.

Lemma makeCmatrix_symmetric_witness :
  exists preFac_l covArray,
    preFactor sample_Wpix sample_gauss_beam [1; 0.5; 0.25]%float 0 false false 2 false
    = Ok preFac_l /\
    makeCmatrix sample_dir2vec sample_Wpix sample_gauss_beam [true; false; true]
      [1; 0.5; 0.25]%float [1; 0; 0]%float [0; 0; 1]%float 0 false false 2 false
    = Ok covArray /\
    symmetric covArray.
Proof.
  destruct (makeCmatrix_symmetric sample_dir2vec sample_Wpix sample_gauss_beam
              [true; false; true] [1; 0.5; 0.25]%float [1; 0; 0]%float [0; 0; 1]%float
              0 false false 2 false)
    as (preFac_l & covArray & Hpre & Hrun & _ & Hsym & _).
  - unfold valid_input. simpl. repeat split; (lia || discriminate).
  - exists preFac_l, covArray. repeat split; assumption.
Defined.

(** Either flag alone already overrides [lmax]. *)
Lemma effective_lmax_smoothing (beamSmooth pixWin : bool) (lmax : nat) :
  beamSmooth = true \/ pixWin = true -> effective_lmax beamSmooth pixWin lmax = 250.
Proof. destruct beamSmooth, pixWin; intros [? | ?]; done. Qed.

(** ** The prefactors under both smoothing flags *)

Lemma take_as_seq {A : Type} (n : nat) (l : list A) (d : A) :
  n <= length l -> take n l = map (fun i => nth i l d) (seq 0 n).
Proof.
  intros Hn. apply list_eq. intros i. rewrite list_lookup_fmap.
  destruct (decide (i < n)) as [Hlt|Hge].
  - rewrite lookup_take_lt, lookup_seq_lt by done. simpl.
    destruct (nth_lookup_or_length l i d) as [->|?]; [done|lia].
  - rewrite lookup_take_ge, lookup_seq_ge by lia. done.
Qed.

Lemma factor_mul_seq (n : nat) (f g : nat -> float) :
  factor_mul (map f (seq 0 n)) (Vector (map g (seq 0 n)))
  = Ok (map (fun l => (f l * g l)%float) (seq 0 n)).
Proof.
  unfold factor_mul. rewrite !length_map, length_seq, bdim_same. cbn [rbind].
  f_equal.
  assert (Hs : forall h : nat -> float, stretch n (map h (seq 0 n)) = map h (seq 0 n)).
  { intros h. unfold stretch. by rewrite length_map, length_seq, Nat.eqb_refl. }
  rewrite !Hs.
  by rewrite zip_with_fmap_l, zip_with_fmap_r, zip_with_diag.
Qed.

(** With both flags set the prefactors are the 251 smoothed weights,
    whatever [lmax] the caller gave. *)
Lemma preFactor_smoothed (Wpix : list float) (gauss_beam : float -> nat -> list float)
    (C_l : list float) (highpass lmax : nat) (useMicro : bool) :
  250 < length C_l -> 251 <= length Wpix ->
  length (gauss_beam (120 / 60 * np_pi / 180)%float 250) = 251 ->
  preFactor Wpix gauss_beam C_l highpass true true lmax useMicro
  = Ok (map (smoothed_weight Wpix gauss_beam C_l highpass useMicro) (seq 0 251)).
Proof.
  intros HC HW HB. unfold preFactor. cbn [smoothing factor_sq].
  change (250 + 1) with 251.
  rewrite (take_as_seq 251 (seq 0 (length C_l)) 0) by (rewrite length_seq; lia).
  rewrite map_map.
  rewrite <- (map_nth_seq (gauss_beam (120 / 60 * np_pi / 180)%float 250) 0%float).
  rewrite HB.
  rewrite (take_as_seq 251 Wpix 0%float) by done.
  set (C' := if useMicro then _ else _).
  assert (HC' : take 251 C'
                = map (fun l => let c := nth l (replicate highpass 0%float
                                                 ++ drop highpass C_l) 0%float in
                                if useMicro then (c * 1e12)%float else c)
                      (seq 0 251)).
  { assert (Hlen : 251 <= length (replicate highpass 0%float ++ drop highpass C_l)).
    { rewrite length_app, length_replicate, length_drop. lia. }
    unfold C'. destruct useMicro.
    - rewrite firstn_map, (take_as_seq 251 _ 0%float) by done. by rewrite map_map.
    - by rewrite (take_as_seq 251 _ 0%float). }
  rewrite HC'. rewrite !map_map, factor_mul_seq. cbn [rbind].
  rewrite factor_mul_seq. cbn [rbind]. rewrite factor_mul_seq.
  f_equal. apply map_ext_in. intros l Hl%in_seq. unfold smoothed_weight.
  rewrite seq_nth by lia. done.
Qed.

(** C8.  With the beam-smoothing and pixel-window flags both active the
    smoothing block leaves lmax = 250 whatever the caller passed: on valid
    input (a power spectrum of more than 250 multipoles) the call
    returns the matrix of the Legendre series truncated at l = 250, its
    251 coefficients being the smoothed weights, and that result is the
    one for lmax = 250. *)
Theorem makeCmatrix_lmax_overridden
    (dir2vec : float -> float -> float * float * float)
    (Wpix : list float) (gauss_beam : float -> nat -> list float)
    (mask : list bool) (C_l gl gb : list float) (highpass lmax : nat)
    (useMicro : bool) :
  valid_input Wpix gauss_beam mask C_l gl gb true true lmax ->
  let n := length (np_where mask) in
  let preFac_l :=
    map (smoothed_weight Wpix gauss_beam C_l highpass useMicro) (seq 0 251) in
  (smoothing Wpix gauss_beam true true lmax).1.1 = 250 /\
  makeCmatrix dir2vec Wpix gauss_beam mask C_l gl gb highpass true true lmax useMicro
  = makeCmatrix dir2vec Wpix gauss_beam mask C_l gl gb highpass true true 250 useMicro /\
  (exists covArray,
    makeCmatrix dir2vec Wpix gauss_beam mask C_l gl gb highpass true true lmax useMicro
    = Ok covArray) /\
  length preFac_l = 251 /\
  preFactor Wpix gauss_beam C_l highpass true true lmax useMicro = Ok preFac_l /\
  makeCmatrix dir2vec Wpix gauss_beam mask C_l gl gb highpass true true lmax useMicro
  = Ok (tabulate n n
          (mirrored (series_entry (unit_vectors dir2vec mask gl gb) preFac_l))).
Proof.
  intros Hvalid n preFac_l.
  destruct (makeCmatrix_spec dir2vec Wpix gauss_beam mask C_l gl gb highpass
              true true lmax useMicro Hvalid) as (preFac & Hpre & _ & Hrun).
  destruct Hvalid as (_ & _ & HC & HW & HB). cbn [effective_lmax] in HC.
  rewrite (preFactor_smoothed Wpix gauss_beam C_l highpass lmax useMicro)
    in Hpre by auto.
  injection Hpre as <-.
  split; [reflexivity|]. split; [reflexivity|].
  split; [by eexists|].
  split; [unfold preFac_l; by rewrite length_map, length_seq|].
  split; [by apply preFactor_smoothed; auto|].
  exact Hrun.
Qed.

Lemma makeCmatrix_lmax_overridden_witness :
  (smoothing sample_Wpix sample_gauss_beam true true 2000).1.1 = 250 /\
  makeCmatrix sample_dir2vec sample_Wpix sample_gauss_beam [true; true]
    (replicate 300 1%float) [1; 0]%float [0; 1]%float 12 true true 2000 false
  = makeCmatrix sample_dir2vec sample_Wpix sample_gauss_beam [true; true]
    (replicate 300 1%float) [1; 0]%float [0; 1]%float 12 true true 250 false /\
  (exists covArray,
    makeCmatrix sample_dir2vec sample_Wpix sample_gauss_beam [true; true]
      (replicate 300 1%float) [1; 0]%float [0; 1]%float 12 true true 2000 false
    = Ok covArray) /\
  length (map (smoothed_weight sample_Wpix sample_gauss_beam (replicate 300 1%float)
                 12 false) (seq 0 251)) = 251 /\
  preFactor sample_Wpix sample_gauss_beam (replicate 300 1%float) 12 true true 2000 false
  = Ok (map (smoothed_weight sample_Wpix sample_gauss_beam (replicate 300 1%float)
              12 false) (seq 0 251)) /\
  makeCmatrix sample_dir2vec sample_Wpix sample_gauss_beam [true; true]
    (replicate 300 1%float) [1; 0]%float [0; 1]%float 12 true true 2000 false
  = Ok (tabulate 2 2
          (mirrored (series_entry
                       (unit_vectors sample_dir2vec [true; true] [1; 0]%float
                          [0; 1]%float)
                       (map (smoothed_weight sample_Wpix sample_gauss_beam
                               (replicate 300 1%float) 12 false) (seq 0 251))))).
Proof.
  apply (makeCmatrix_lmax_overridden sample_dir2vec sample_Wpix sample_gauss_beam
           [true; true] (replicate 300 1%float) [1; 0]%float [0; 1]%float 12 2000 false).
  unfold valid_input, sample_Wpix, sample_gauss_beam.
  rewrite !length_replicate. simpl. repeat split; lia.
Defined.

(** ** The model on concrete inputs *)

Example legval_P2 : legval 0.5%float [0; 0; 1]%float = Ok (-0.125)%float.
Proof. reflexivity. Qed.

Example legval_four_terms : legval 0.5%float [1; 2; 3; 4]%float = Ok (-0.125)%float.
Proof. reflexivity. Qed.

Example legval_empty : legval 0.5%float [] = Raise IndexError.
Proof. reflexivity. Qed.

(** Two pixels at a right angle and a spectrum with C_0 = 1 only: the
    constant matrix with w0 = 1/(4 pi) everywhere. *)
Example makeCmatrix_monopole :
  makeCmatrix sample_dir2vec sample_Wpix sample_gauss_beam [true; true]
    [1; 0; 0]%float [1; 0]%float [0; 1]%float 0 false false 2 false
  = Ok [[1 / (4 * np_pi); 1 / (4 * np_pi)]; [1 / (4 * np_pi); 1 / (4 * np_pi)]]%float.
Proof. vm_compute. reflexivity. Qed.

(** A power spectrum shorter than the beam table does not broadcast. *)
Example makeCmatrix_short_spectrum :
  makeCmatrix sample_dir2vec sample_Wpix sample_gauss_beam [true; true]
    [1; 0; 0]%float [1; 0]%float [0; 1]%float 0 true false 2 false
  = Raise ValueError.
Proof. vm_compute. reflexivity. Qed.

Example symSave_3 :
  symSave [[1; 2; 3]; [2; 5; 6]; [3; 6; 9]]%float = Ok [1; 2; 3; 5; 6; 9]%float.
Proof. reflexivity. Qed.

Example symLoad_3 :
  symLoad [1; 2; 3; 5; 6; 9]%float = Ok [[1; 2; 3]; [2; 5; 6]; [3; 6; 9]]%float.
Proof. vm_compute. reflexivity. Qed.

Example symLoad_four_values : symLoad [1; 2; 3; 4]%float = Raise ValueError.
Proof. reflexivity. Qed.

Example subMatrix2_not_symmetric :
  (subMatrix2 [true; true] [true; true] false [[1; 2]; [3; 4]]%float).1
  = Ok (RetArray [[1; 3]; [2; 4]]%float).
Proof. reflexivity. Qed.

Example RDInvert_2 :
  RDInvert [2; 4]%float [[1; 0]; [0; 1]]%float = Ok [[0.5; 0]; [0; 0.25]]%float.
Proof. vm_compute. reflexivity. Qed.

(** * Further properties of the code *)

(** ** powerArray *)

Section PowerArray.
Context {T : Type} `{Dtype T}.

Lemma length_pow_list (x p : T) (k : nat) : length (pow_list x p k) = k.
Proof. revert p. induction k as [|k IH]; intros p; simpl; [done|]. by rewrite IH. Qed.

Lemma lookup_pow_list_S (x p : T) (k i : nat) (q : T) :
  pow_list x p k !! i = Some q -> S i < k -> pow_list x p k !! S i = Some (mul q x).
Proof.
  revert p i. induction k as [|k IH]; intros p i Hq Hlt; [lia|].
  destruct i as [|i]; simpl in *.
  - injection Hq as <-. destruct k; [lia|done].
  - apply IH; [done|lia].
Qed.

Lemma powerArray_loop (x : T) (k : nat) (pre : list T) (p : T) :
  for_each (fun power pows =>
              match pows !! (power - 1) with
              | Some p => Ok (pows ++ [mul p x])
              | None => Raise IndexError
              end)
           (seq (S (length pre)) k) (pre ++ [p])
  = Ok (pre ++ pow_list x p (S k)).
Proof.
  revert pre p. induction k as [|k IH]; intros pre p; [done|].
  cbn [seq for_each]. rewrite Nat.sub_succ, Nat.sub_0_r.
  rewrite lookup_app_r, Nat.sub_diag by done. cbn [lookup list_lookup rbind].
  replace (S (S (length pre))) with (S (length (pre ++ [p])))
    by (rewrite length_app; simpl; lia).
  rewrite IH, <- app_assoc. done.
Qed.

Lemma powerArray_pow_list (x : T) (powMax : nat) :
  powerArray x powMax = Ok (pow_list x one (max 1 powMax)).
Proof.
  unfold powerArray, py_range.
  pose proof (powerArray_loop x (powMax - 1) [] one) as Hloop.
  cbn [length app] in Hloop. rewrite Hloop. do 2 f_equal. lia.
Qed.

(** X1.  [powerArray x powMax] never raises and returns max(1, powMax)
    entries (one fewer than the powMax + 1 of its docstring): the first is
    1 and each further one is the previous one times [x]. *)
Theorem powerArray_entries (x : T) (powMax : nat) :
  exists pows,
    powerArray x powMax = Ok pows /\
    length pows = max 1 powMax /\
    pows !! 0 = Some one /\
    (forall k p, pows !! k = Some p -> S k < length pows ->
                 pows !! S k = Some (mul p x)).
Proof.
  exists (pow_list x one (max 1 powMax)).
  split; [apply powerArray_pow_list|]. rewrite length_pow_list.
  split; [done|]. split.
  - destruct (max 1 powMax) eqn:E; [lia|done].
  - intros k p Hk Hlt. by apply lookup_pow_list_S.
Qed.
End PowerArray.

(** X2.  In exact arithmetic the entries of [powerArray x powMax] are the
    powers of [x]: entry k is x^k, for k from 0 to max(1, powMax) - 1. *)
Theorem powerArray_powers (x : Q) (powMax k : nat) :
  k < max 1 powMax ->
  exists pows q,
    powerArray x powMax = Ok pows /\ pows !! k = Some q /\ (q == x ^ Z.of_nat k)%Q.
Proof.
  intros Hk. exists (pow_list x one (max 1 powMax)).
  assert (Hgen : forall n p i, i < n ->
            exists q, pow_list x p n !! i = Some q /\ (q == p * x ^ Z.of_nat i)%Q).
  { induction n as [|n IH]; intros p i Hi; [lia|].
    destruct i as [|i].
    - exists p. split; [done|]. simpl. ring.
    - destruct (IH (mul p x) i ltac:(lia)) as (q & Hq & Heq).
      exists q. split; [exact Hq|]. rewrite Heq.
      rewrite Nat2Z.inj_succ, <- Z.add_1_r.
      cbn [mul rational].
      rewrite Qpower_plus' by lia. simpl. ring. }
  destruct (Hgen (max 1 powMax) one k Hk) as (q & Hq & Heq).
  exists q. split; [apply powerArray_pow_list|]. split; [done|].
  rewrite Heq. cbn [one rational]. ring.
Qed.

Lemma powerArray_powers_witness :
  exists pows q,
    powerArray (2 # 1)%Q 9 = Ok pows /\ pows !! 8 = Some q /\ (q == (2 # 1) ^ 8)%Q.
Proof.
  apply (powerArray_powers (2 # 1)%Q 9 8). simpl. lia.
Defined.

(** ** The symmetric codec on arbitrary input *)

Section SymCodecMore.
Context {T : Type} `{Dtype T}.

Lemma assigned_not_in (ivs : list ((nat * nat) * T)) (f : nat -> nat -> T) (i j : nat) :
  (i, j) ∉ ivs.*1 -> assigned ivs f i j = f i j.
Proof.
  revert f. induction ivs as [|[[i0 j0] v] rest IH]; intros f Hnot; [done|].
  cbn [assigned fst snd]. rewrite fmap_cons in Hnot. cbn [fst] in Hnot.
  apply not_elem_of_cons in Hnot as [Hne Hrest].
  rewrite IH by done.
  destruct (decide (i = i0 /\ j = j0)) as [[-> ->]|]; [done|done].
Qed.

(** The array [symLoad] fills before mirroring, for any values. *)
Lemma symLoad_any_values (n : nat) (loaded : list T) :
  length loaded = n * (n + 1) / 2 ->
  symLoad loaded
  = Ok (tabulate n n
          (mirrored (assigned (zip (triu_indices n n) loaded) (fun _ _ => zero)))).
Proof.
  intros Hlen. rewrite <- length_triu_indices_div in Hlen.
  unfold symLoad. rewrite Hlen.
  destruct (sym_n_of_triangular n) as [-> ->].
  unfold setitem_fancy. rewrite Hlen, Nat.eqb_refl.
  rewrite zeros2_tabulate, setitem_pairs_tabulate.
  2:{ apply Forall_forall. intros [[i j] v] Hin.
      apply (list_elem_of_fmap_2 fst) in Hin. rewrite fst_zip in Hin by lia.
      apply elem_of_triu_indices in Hin. simpl. lia. }
  cbn [rbind].
  set (U := assigned _ _).
  assert (HU : tabulate n n U = tabulate n n (upper_of U)).
  { apply tabulate_ext. intros i j Hi Hj. unfold upper_of.
    destruct (decide (i <= j)); [done|].
    unfold U. rewrite assigned_not_in; [done|].
    rewrite fst_zip by lia. intros Hin%elem_of_triu_indices. lia. }
  rewrite HU. apply mirror_upper_tabulate.
Qed.

(** X3.  [symSave] writes n(n+1)/2 values for an n-by-n matrix and reads
    only the entries on and above the diagonal: two matrices that agree
    there are saved as the same array, whatever lies below. *)
Theorem symSave_upper_triangle_only (n : nat) (A B : matrix T) :
  has_shape n n A -> has_shape n n B ->
  (forall i j, i <= j < n -> entry A i j = entry B i j) ->
  exists compact,
    symSave A = Ok compact /\ symSave B = Ok compact /\
    length compact = n * (n + 1) / 2.
Proof.
  intros HA HB Hup. eexists. split; [by apply symSave_square|]. split.
  - rewrite (symSave_square n B HB). f_equal.
    apply map_ext_in. intros [i j] Hij%list_elem_of_In%elem_of_triu_indices.
    simpl. symmetry. apply Hup. lia.
  - rewrite length_map. apply length_triu_indices_div.
Qed.
End SymCodecMore.

Lemma symSave_upper_triangle_only_witness :
  exists compact,
    symSave [[1; 2]; [7; 5]]%float = Ok compact /\
    symSave [[1; 2]; [2; 5]]%float = Ok compact /\
    length compact = 2 * (2 + 1) / 2.
Proof.
  apply (symSave_upper_triangle_only 2 [[1; 2]; [7; 5]]%float [[1; 2]; [2; 5]]%float).
  - split; [reflexivity|]. repeat constructor.
  - split; [reflexivity|]. repeat constructor.
  - intros [|[|i]] [|[|j]] Hij; try reflexivity; lia.
Defined.

(** X4.  Whatever [symLoad] returns is square and symmetric bit for bit,
    for any values in the file: the lower triangle is 0 + a - 0 and the
    upper triangle a + 0 - 0 of the same stored value. *)
Theorem symLoad_returns_symmetric (loaded : list float) (R : matrix float) :
  symLoad loaded = Ok R ->
  exists n, length loaded = n * (n + 1) / 2 /\ has_shape n n R /\ symmetric R.
Proof.
  intros Hrun.
  assert (Htri : exists n, length loaded = n * (n + 1) / 2).
  { destruct (Nat.eqb_spec (length loaded)
                (length (triu_indices (sym_n_ceil (length loaded))
                                      (sym_n_ceil (length loaded))))) as [Heq|Hne].
    - eexists. rewrite Heq. apply length_triu_indices_div.
    - unfold symLoad, setitem_fancy in Hrun.
      apply Nat.eqb_neq in Hne. rewrite Hne in Hrun.
      destruct loaded as [|v [|w rest]]; [done| |done]. by exists 1. }
  destruct Htri as [n Hn]. exists n. split; [done|].
  rewrite (symLoad_any_values n loaded Hn) in Hrun.
  assert (R = tabulate n n
                (mirrored (assigned (zip (triu_indices n n) loaded) (fun _ _ => zero))))
    as -> by congruence.
  split; [apply has_shape_tabulate|].
  apply symmetric_tabulate. intros. apply mirrored_sym.
Qed.

Lemma symLoad_returns_symmetric_witness :
  exists n, length [1; 2; 3]%float = n * (n + 1) / 2 /\
            has_shape n n [[1; 2]; [2; 3]]%float /\ symmetric [[1; 2]; [2; 3]]%float.
Proof.
  apply (symLoad_returns_symmetric [1; 2; 3]%float [[1; 2]; [2; 3]]%float).
  reflexivity.
Defined.

(** ** subMatrix: decoding the file, then extracting *)

Lemma symLoad_bad_length {T : Type} `{Dtype T} (loaded : list T) :
  (forall N, length loaded <> N * (N + 1) / 2) -> symLoad loaded = Raise ValueError.
Proof.
  intros Hnot. unfold symLoad, setitem_fancy.
  destruct (Nat.eqb_spec (length loaded)
              (length (triu_indices (sym_n_ceil (length loaded))
                                    (sym_n_ceil (length loaded))))) as [Heq|_].
  { rewrite length_triu_indices_div in Heq. by apply Hnot in Heq. }
  destruct loaded as [|v [|w rest]]; [done| |done].
  exfalso. by apply (Hnot 1).
Qed.

(** The round trip through the compact form, on the decoded side. *)
Lemma symLoad_of_saved (n : nat) (M : matrix float) :
  has_shape n n M -> symmetric M ->
  Forall (Forall (fun x => is_neg_zero x = false)) M ->
  Forall (fun a => below_half_max a = true) (np_diag_vec M) ->
  symLoad (map (fun ij : nat * nat => entry M ij.1 ij.2) (triu_indices n n)) = Ok M.
Proof.
  intros HM Hsym Hnz Hdiag.
  rewrite (symLoad_triangular n (entry M)). f_equal.
  etrans; [|symmetry; apply (tabulate_entry n n M HM)].
  apply tabulate_ext. intros i j Hi Hj. unfold upper_of.
  assert (Hij : is_neg_zero (entry M i j) = false)
    by (by apply (entry_Forall (fun x => is_neg_zero x = false) n n)).
  destruct (decide (i = j)) as [<-|Hne].
  - destruct (decide (i <= i)); [|lia].
    apply double_sub_exact; [|done].
    rewrite (np_diag_vec_square n M HM), Forall_forall in Hdiag.
    apply Hdiag. apply list_elem_of_fmap. exists i. split; [done|].
    apply elem_of_seq. lia.
  - destruct (decide (i <= j)), (decide (j <= i)); try lia.
    + by apply add_zero_sub_zero.
    + rewrite <- (entry_symmetric n M i j) by done.
      change (PrimFloat.sub (PrimFloat.add 0 (entry M i j)) 0 = entry M i j).
      rewrite zero_add_comm. by apply add_zero_sub_zero.
Qed.

(** X5.  [subMatrix] decodes the matrix file before it looks at the masks:
    a file whose length is not a triangular number makes it raise, also
    for masks on which [subMatrix2] would take its error exit and return
    0. *)
Theorem subMatrix_bad_file {T : Type} `{Dtype T}
    (mask bigMask : list bool) (cMatrixFile : list T) (nested : bool) :
  (forall N, length cMatrixFile <> N * (N + 1) / 2) ->
  subMatrix mask bigMask cMatrixFile nested = Raise ValueError.
Proof.
  intros Hnot. unfold subMatrix. by rewrite symLoad_bad_length.
Qed.

Lemma subMatrix_bad_file_witness :
  subMatrix [true; true] [true; false] [1; 2]%float false = Raise ValueError.
Proof.
  apply (subMatrix_bad_file [true; true] [true; false] [1; 2]%float false).
  intros N Heq. change (length [1; 2]%float) with 2 in Heq.
  destruct N as [|[|N]]; [discriminate Heq..|].
  assert (Hge : 3 <= S (S N) * (S (S N) + 1) / 2).
  { apply Nat.div_le_lower_bound; lia. }
  lia.
Defined.

(** X6.  Extracting from the file [symSave] wrote for a covariance matrix
    is extracting from the matrix: for a symmetric matrix with no -0.0
    entry and a finite diagonal below 2^1023, [subMatrix] on the saved
    array gives what [subMatrix2] gives on the matrix itself. *)
Theorem subMatrix_of_saved (n : nat) (M : matrix float)
    (mask bigMask : list bool) (nested : bool) :
  has_shape n n M -> symmetric M ->
  Forall (Forall (fun x => is_neg_zero x = false)) M ->
  Forall (fun a => below_half_max a = true) (np_diag_vec M) ->
  exists compact,
    symSave M = Ok compact /\
    subMatrix mask bigMask compact nested = (subMatrix2 mask bigMask nested M).1.
Proof.
  intros HM Hsym Hnz Hdiag.
  eexists. split; [by apply symSave_square|].
  unfold subMatrix. by rewrite (symLoad_of_saved n M).
Qed.

Lemma subMatrix_of_saved_witness :
  exists compact,
    symSave [[1; 2]; [2; 5]]%float = Ok compact /\
    subMatrix [false; true] [true; true] compact false
    = (subMatrix2 [false; true] [true; true] false [[1; 2]; [2; 5]]%float).1.
Proof.
  apply (subMatrix_of_saved 2 [[1; 2]; [2; 5]]%float [false; true] [true; true] false).
  - split; [reflexivity|]. repeat constructor.
  - intros [|[|i]] [|[|j]]; reflexivity.
  - repeat constructor.
  - repeat constructor.
Defined.

(** ** subMatrix2 on a matrix that is too small *)

Lemma mapR_raise {A B : Type} (f : A -> result B) (l : list A) (e : exn) :
  (forall a, a ∈ l -> f a = Raise e \/ exists b, f a = Ok b) ->
  (exists a, a ∈ l /\ f a = Raise e) ->
  mapR f l = Raise e.
Proof.
  induction l as [|a l IH]; intros Hall (a0 & Hin & Hraise).
  - by apply elem_of_nil in Hin.
  - simpl. destruct (Hall a ltac:(left)) as [->|[b Hb]]; [done|].
    rewrite Hb. simpl.
    apply elem_of_cons in Hin as [->|Hin]; [congruence|].
    rewrite IH; [done| |by exists a0].
    intros; apply Hall; by right.
Qed.

Lemma getitem2_cases {T : Type} (M : matrix T) (i j : nat) :
  getitem2 M i j = Raise IndexError \/ exists v, getitem2 M i j = Ok v.
Proof.
  unfold getitem2. destruct (M !! i) as [row|]; [|by left].
  destruct (row !! j) as [x|]; [right; by eexists|by left].
Qed.

(** X7.  [subMatrix2] checks the masks against each other but not the
    matrix against the big mask: when an active pixel of the small mask
    sits at a position of the big mask's pixel list that the k-by-k matrix
    does not have, the indexing raises IndexError. *)
Theorem subMatrix2_matrix_too_small {T : Type}
    (mask bigMask : list bool) (nested : bool) (cMatrix : matrix T)
    (k pixel position : nat) :
  (forall p, mask !! p = Some true -> bigMask !! p = Some true) ->
  has_shape k k cMatrix ->
  mask !! pixel = Some true ->
  np_where bigMask !! position = Some pixel ->
  k <= position ->
  (subMatrix2 mask bigMask nested cMatrix).1 = Raise IndexError.
Proof.
  intros Hvalid Hshape Hpix Hpos Hk.
  assert (Hpass : pixel_outside (np_where mask) (np_where bigMask) = false).
  { apply pixel_outside_false. intros p. rewrite !elem_of_np_where. apply Hvalid. }
  set (subVec := subVec_of (np_where mask) (np_where bigMask)).
  assert (Hin : position ∈ subVec).
  { unfold subVec. rewrite subVec_of_filter
      by apply StronglySorted_lt_NoDup, np_where_sorted.
    apply list_elem_of_filter. split.
    - rewrite (nth_lookup_Some _ _ _ _ Hpos). by apply elem_of_np_where.
    - apply elem_of_seq. apply lookup_lt_Some in Hpos. lia. }
  unfold subMatrix2. rewrite Hpass. unfold st_bind, st_fancy_index, st_ret.
  fold subVec.
  rewrite fancy_index2_meshgrid
    by (intros E; rewrite E in Hin; by apply elem_of_nil in Hin).
  assert (Hrow : forall ya, mapR (fun xb => getitem2 cMatrix xb ya) subVec
                            = Raise IndexError).
  { intros ya. apply mapR_raise.
    - intros xb _. apply getitem2_cases.
    - exists position. split; [done|].
      apply (getitem2_out_of_shape k k); [done|lia]. }
  rewrite (mapR_raise _ subVec IndexError); [done| |].
  - intros ya _. left. apply Hrow.
  - exists position. split; [done|apply Hrow].
Qed.

Lemma subMatrix2_matrix_too_small_witness :
  (subMatrix2 [true; true] [true; true] false [[1%float]]).1 = Raise IndexError.
Proof.
  apply (subMatrix2_matrix_too_small [true; true] [true; true] false [[1%float]] 1 1 1).
  - intros p Hp. exact Hp.
  - split; [reflexivity|]. repeat constructor.
  - reflexivity.
  - reflexivity.
  - lia.
Defined.

(** ** Extracting twice *)

(** The block [subMatrix2] returns for a valid pair of masks, read entry by
    entry. *)
Lemma subMatrix2_block {T : Type} (mask bigMask : list bool) (nested : bool)
    (cMatrix : matrix T) :
  (forall p, mask !! p = Some true -> bigMask !! p = Some true) ->
  (exists p, mask !! p = Some true) ->
  has_shape (length (np_where bigMask)) (length (np_where bigMask)) cMatrix ->
  let idx := subVec_of (np_where mask) (np_where bigMask) in
  let k := length (np_where mask) in
  exists out,
    (subMatrix2 mask bigMask nested cMatrix).1 = Ok (RetArray out) /\
    has_shape k k out /\
    (forall a b ia ib, idx !! a = Some ia -> idx !! b = Some ib ->
       exists v, getitem2 out a b = Ok v /\ getitem2 cMatrix ib ia = Ok v).
Proof.
  intros Hvalid Hsome Hshape idx k.
  destruct (subVec_of_np_where mask bigMask Hvalid) as [Hlen _]. fold idx in Hlen.
  destruct (subMatrix2_passed mask bigMask nested cMatrix _ Hvalid Hsome eq_refl Hshape)
    as (out & Hrun & Hout).
  fold idx in Hout. exists out. rewrite Hrun. split; [done|]. split.
  - split.
    + apply Forall2_length in Hout. unfold k. lia.
    + apply Forall_forall. intros row Hrow.
      apply list_elem_of_lookup_1 in Hrow as [a Ha].
      destruct (Forall2_lookup_r _ _ _ _ _ Hout Ha) as (ya & _ & Hrowv).
      apply Forall2_length in Hrowv. unfold k. lia.
  - intros a b ia ib Ha Hb.
    destruct (Forall2_lookup_l _ _ _ _ _ Hout Ha) as (row & Hrow & Hrowv).
    destruct (Forall2_lookup_l _ _ _ _ _ Hrowv Hb) as (v & Hv & Hget).
    exists v. split; [|done]. apply getitem2_Ok. eauto.
Qed.

(** X8.  Extraction composes: for masks m1 inside m2 inside m3 and a
    symmetric matrix built for m3, extracting the block of m2 and then the
    block of m1 from it gives the block of m1 extracted directly. *)
Theorem subMatrix2_twice {T : Type} (m1 m2 m3 : list bool) (nested : bool)
    (M M2 : matrix T) :
  (forall p, m1 !! p = Some true -> m2 !! p = Some true) ->
  (forall p, m2 !! p = Some true -> m3 !! p = Some true) ->
  has_shape (length (np_where m3)) (length (np_where m3)) M ->
  symmetric M ->
  (subMatrix2 m2 m3 nested M).1 = Ok (RetArray M2) ->
  (subMatrix2 m1 m2 nested M2).1 = (subMatrix2 m1 m3 nested M).1.
Proof.
  intros H12 H23 HM Hsym Hrun23.
  assert (H13 : forall p, m1 !! p = Some true -> m3 !! p = Some true) by auto.
  assert (Hsome2 : exists p, m2 !! p = Some true).
  { apply np_where_nonempty. intros E.
    rewrite subMatrix2_no_active_pixel in Hrun23; [done|].
    intros p Hp%elem_of_np_where. rewrite E in Hp. by apply elem_of_nil in Hp. }
  destruct (np_where m1) as [|p1 l1] eqn:E1.
  { (* no pixel to extract: both calls raise *)
    assert (Hnone : forall p, m1 !! p <> Some true).
    { intros p Hp%elem_of_np_where. rewrite E1 in Hp. by apply elem_of_nil in Hp. }
    by rewrite !subMatrix2_no_active_pixel. }
  assert (Hsome1 : exists p, m1 !! p = Some true).
  { apply np_where_nonempty. by rewrite E1. }
  clear E1 p1 l1.
  destruct (subMatrix2_block m2 m3 nested M H23 Hsome2 HM)
    as (out23 & Hr23 & Hs23 & He23).
  assert (out23 = M2) as -> by congruence.
  destruct (subMatrix2_block m1 m2 nested M2 H12 Hsome1 Hs23)
    as (out12 & Hr12 & Hs12 & He12).
  destruct (subMatrix2_block m1 m3 nested M H13 Hsome1 HM)
    as (out13 & Hr13 & Hs13 & He13).
  rewrite Hr12, Hr13. do 2 f_equal.
  destruct (subVec_of_np_where m1 m2 H12) as [Hl12 Hp12].
  destruct (subVec_of_np_where m2 m3 H23) as [Hl23 Hp23].
  destruct (subVec_of_np_where m1 m3 H13) as [Hl13 Hp13].
  pose proof (StronglySorted_lt_NoDup _ (np_where_sorted m3)) as Hnd3.
  (* the position of a pixel of m1 in m3, directly and through m2 *)
  assert (Hidx : forall a, a < length (np_where m1) ->
            exists i12 i3,
              subVec_of (np_where m1) (np_where m2) !! a = Some i12 /\
              subVec_of (np_where m2) (np_where m3) !! i12 = Some i3 /\
              subVec_of (np_where m1) (np_where m3) !! a = Some i3).
  { intros a Ha.
    destruct (lookup_lt_is_Some_2 (np_where m1) a Ha) as [p Hp].
    destruct (Hp12 a p Hp) as (i12 & Hi12 & Hb2).
    destruct (Hp23 i12 p Hb2) as (i23 & Hi23 & Hb3).
    destruct (Hp13 a p Hp) as (i13 & Hi13 & Hb3').
    exists i12, i23. split; [done|]. split; [done|].
    rewrite Hi13. f_equal. by eapply NoDup_lookup. }
  apply (matrix_ext (length (np_where m1)) (length (np_where m1))); [done..|].
  intros a b Ha Hb.
  destruct (Hidx a Ha) as (a12 & a3 & Ha12 & Ha23 & Ha13).
  destruct (Hidx b Hb) as (b12 & b3 & Hb12 & Hb23 & Hb13).
  destruct (He12 a b a12 b12 Ha12 Hb12) as (v & -> & Hv).
  destruct (He23 b12 a12 b3 a3 Hb23 Ha23) as (v' & Hv' & HvM).
  destruct (He13 a b a3 b3 Ha13 Hb13) as (w & -> & Hw).
  rewrite Hsym in Hw. congruence.
Qed.

Lemma subMatrix2_twice_witness :
  (subMatrix2 [false; true; false] [false; true; true] false [[5; 6]; [6; 9]]%float).1
  = (subMatrix2 [false; true; false] [true; true; true] false
       [[1; 2; 3]; [2; 5; 6]; [3; 6; 9]]%float).1.
Proof.
  apply (subMatrix2_twice [false; true; false] [false; true; true] [true; true; true]
           false [[1; 2; 3]; [2; 5; 6]; [3; 6; 9]]%float [[5; 6]; [6; 9]]%float).
  - intros [|[|[|p]]] Hp; done.
  - intros [|[|[|p]]] Hp; done.
  - split; [reflexivity|]. repeat constructor.
  - intros [|[|[|i]]] [|[|[|j]]]; reflexivity.
  - reflexivity.
Defined.

(** ** makeLegendreTable *)

Section LegendreTable.
Context {T : Type} `{Dtype T}.

Lemma setitem_row_slice_tabulate (n i k : nat) (f : nat -> nat -> T) (values : list T) :
  i < n -> k <= n -> length values = k ->
  setitem_row_slice (tabulate n n f) i k values
  = Ok (tabulate n n (fun a b => if decide (a = i /\ b < k)
                                 then nth b values zero else f a b)).
Proof.
  intros Hi Hk Hlen. unfold setitem_row_slice.
  rewrite lookup_tabulate by done. rewrite length_map, length_seq.
  rewrite Nat.min_l by done. rewrite Hlen, Nat.eqb_refl. f_equal.
  destruct (has_shape_tabulate n n f) as [Hl Hrows].
  apply (matrix_ext n n); [|apply has_shape_tabulate|].
  - split; [by rewrite length_insert|].
    apply Forall_insert; [done|].
    rewrite length_app, length_drop, length_map, length_seq. lia.
  - intros a b Ha Hb. rewrite getitem2_tabulate by done. unfold getitem2.
    destruct (decide (a = i)) as [->|Hne].
    + rewrite list_lookup_insert_eq by lia.
      destruct (decide (b < k)) as [Hlt|Hge].
      * rewrite lookup_app_l by lia.
        destruct (lookup_lt_is_Some_2 values b ltac:(lia)) as [x Hx].
        rewrite Hx, (nth_lookup_Some _ _ _ _ Hx).
        destruct (decide (i = i /\ b < k)) as [|[]]; done.
      * rewrite lookup_app_r by lia. rewrite lookup_drop, Hlen.
        replace (k + (b - k)) with b by lia.
        rewrite list_lookup_fmap, lookup_seq_lt by done. simpl.
        destruct (decide (i = i /\ b < k)) as [[_ ?]|]; [lia|done].
    + rewrite list_lookup_insert_ne by done.
      rewrite lookup_tabulate by done.
      rewrite list_lookup_fmap, lookup_seq_lt by done. simpl.
      destruct (decide (a = i /\ b < k)) as [[? _]|]; done.
Qed.

Lemma legendre_loop (n : nat) (vals : nat -> list T) (k a : nat) (f : nat -> nat -> T) :
  a + k <= n ->
  (forall ell, a <= ell < a + k -> length (vals ell) = ell + 1) ->
  for_each (fun ell coefs => setitem_row_slice coefs ell (ell + 1) (vals ell))
           (seq a k) (tabulate n n f)
  = Ok (tabulate n n (fun i j => if decide (a <= i < a + k /\ j <= i)
                                 then nth j (vals i) zero else f i j)).
Proof.
  revert a f. induction k as [|k IH]; intros a f Hle Hlen.
  - simpl. f_equal. apply tabulate_ext. intros i j _ _.
    destruct (decide (a <= i < a + 0 /\ j <= i)); [lia|done].
  - cbn [seq for_each].
    rewrite setitem_row_slice_tabulate by (try apply Hlen; lia).
    cbn [rbind]. rewrite IH by (try lia; intros; apply Hlen; lia).
    f_equal. apply tabulate_ext. intros i j _ _.
    destruct (decide (i = a)) as [->|Hne]; repeat case_decide; try done; lia.
Qed.

Lemma makeLegendreTable_saved (legendre : nat -> list T) (lmax : nat) :
  (forall ell, ell <= lmax -> length (legendre ell) = ell + 1) ->
  makeLegendreTable legendre lmax
  = Ok (map (fun ij : nat * nat => leading_only legendre ij.1 ij.2)
            (triu_indices (lmax + 1) (lmax + 1))).
Proof.
  intros Hlen. unfold makeLegendreTable, py_range.
  rewrite Nat.sub_0_r, zeros2_tabulate.
  rewrite (legendre_loop (lmax + 1) (fun ell => rev (legendre ell)))
    by (try lia; intros; rewrite length_rev; apply Hlen; lia).
  cbn [rbind]. rewrite (symSave_square (lmax + 1)) by apply has_shape_tabulate.
  f_equal. apply map_ext_in. intros [i j] Hij%list_elem_of_In%elem_of_triu_indices.
  cbn [fst snd]. rewrite entry_tabulate by lia. unfold leading_only.
  destruct (decide (i = j)) as [<-|Hne].
  - destruct (decide (0 <= i < 0 + (lmax + 1) /\ i <= i)); [|lia].
    rewrite rev_nth by (rewrite Hlen; lia).
    rewrite Hlen by lia. f_equal. lia.
  - destruct (decide (0 <= i < 0 + (lmax + 1) /\ j <= i)); [lia|done].
Qed.

(** X9.  The table [makeLegendreTable] writes holds, for each degree, the
    leading coefficient of the polynomial followed by zeros: the rows of
    coefficients lie on and below the diagonal and [symSave] writes what
    lies on and above it, so every other coefficient is lost. *)
Theorem makeLegendreTable_keeps_leading (legendre : nat -> list T) (lmax : nat) :
  (forall ell, ell <= lmax -> length (legendre ell) = ell + 1) ->
  makeLegendreTable legendre lmax
  = Ok (map (fun ij : nat * nat => leading_only legendre ij.1 ij.2)
            (triu_indices (lmax + 1) (lmax + 1))).
Proof. apply makeLegendreTable_saved. Qed.
End LegendreTable.

Lemma makeLegendreTable_keeps_leading_witness :
  makeLegendreTable (fun ell => match ell with
                                | 0 => [1]
                                | 1 => [1; 0]
                                | _ => [1.5; 0; -0.5]
                                end%float) 2
  = Ok (map (fun ij : nat * nat =>
               leading_only (fun ell => match ell with
                                        | 0 => [1]
                                        | 1 => [1; 0]
                                        | _ => [1.5; 0; -0.5]
                                        end%float) ij.1 ij.2)
            (triu_indices 3 3)).
Proof.
  apply (makeLegendreTable_keeps_leading
           (fun ell => match ell with
                       | 0 => [1]
                       | 1 => [1; 0]
                       | _ => [1.5; 0; -0.5]
                       end%float) 2).
  intros [|[|[|ell]]] Hle; try reflexivity. lia.
Defined.

(** X10.  Reading the Legendre table back with [symLoad] gives the
    diagonal matrix of the leading coefficients, not the table (for
    leading coefficients that are finite, below 2^1023 and not -0.0). *)
Theorem makeLegendreTable_read_back (legendre : nat -> list float) (lmax : nat) :
  (forall ell, ell <= lmax -> length (legendre ell) = ell + 1) ->
  (forall ell, ell <= lmax ->
     below_half_max (nth 0 (legendre ell) 0%float) = true /\
     is_neg_zero (nth 0 (legendre ell) 0%float) = false) ->
  exists table,
    makeLegendreTable legendre lmax = Ok table /\
    symLoad table = Ok (tabulate (lmax + 1) (lmax + 1) (leading_only legendre)).
Proof.
  intros Hlen Hlead. eexists. split; [by apply makeLegendreTable_saved|].
  rewrite (symLoad_triangular (lmax + 1) (leading_only legendre)). f_equal.
  apply tabulate_ext. intros i j Hi Hj. unfold upper_of, leading_only.
  destruct (decide (i = j)) as [<-|Hne].
  - destruct (decide (i <= i)); [|lia]. destruct (decide (i = i)); [|lia].
    destruct (Hlead i ltac:(lia)) as [Hb Hz]. by apply double_sub_exact.
  - destruct (decide (j = i)); [lia|].
    destruct (decide (i <= j)), (decide (j <= i)); reflexivity.
Qed.

Lemma makeLegendreTable_read_back_witness :
  exists table,
    makeLegendreTable (fun ell => match ell with
                                  | 0 => [1]
                                  | _ => [1; 0]
                                  end%float) 1 = Ok table /\
    symLoad table
    = Ok (tabulate 2 2 (leading_only (fun ell => match ell with
                                                 | 0 => [1]
                                                 | _ => [1; 0]
                                                 end%float))).
Proof.
  apply (makeLegendreTable_read_back
           (fun ell => match ell with 0 => [1] | _ => [1; 0] end%float) 1).
  - intros [|[|ell]] Hle; try reflexivity. lia.
  - intros [|[|ell]] Hle; split; reflexivity.
Defined.

(** ** cMatCorrect: shapes, and its algebra in exact arithmetic *)

Section CorrectionShapes.
Context {T : Type} `{Dtype T}.

Lemma bcast2_row_vector_rect (op : T -> T -> T) (n m : nat) (f : nat -> nat -> T)
    (g : nat -> T) :
  0 < n ->
  bcast2 op (tabulate n m f) [map g (seq 0 m)]
  = Ok (tabulate n m (fun i j => op (f i j) (g j))).
Proof.
  intros Hn. unfold bcast2.
  destruct (has_shape_tabulate n m f) as [Hlen _].
  rewrite Hlen. simpl length. rewrite bdim_one_r by lia. simpl.
  rewrite ncols_tabulate by lia. rewrite length_map, length_seq, bdim_same. simpl.
  f_equal. rewrite stretch_singleton by lia.
  replace (stretch n (tabulate n m f)) with (tabulate n m f)
    by (unfold stretch; by rewrite Hlen, Nat.eqb_refl).
  replace (replicate n (map g (seq 0 m)))
    with (replicate (length (tabulate n m f)) (map g (seq 0 m))) by (by rewrite Hlen).
  rewrite zip_with_replicate_r.
  unfold tabulate. rewrite map_map. apply map_ext_in. intros i _.
  assert (Hst : forall h : nat -> T, stretch m (map h (seq 0 m)) = map h (seq 0 m)).
  { intros h. unfold stretch. by rewrite length_map, length_seq, Nat.eqb_refl. }
  rewrite !Hst. by rewrite zip_with_fmap_l, zip_with_fmap_r, zip_with_diag.
Qed.

(** X11.  [cMatCorrect] needs a square matrix: for n rows and m columns
    with n, m >= 2 and n <> m the row sums, reshaped to n-by-n, do not
    broadcast against the n-by-m matrix and numpy raises ValueError. *)
Theorem cMatCorrect_not_square (n m : nat) (cMatrix : matrix T) :
  has_shape n m cMatrix -> 2 <= n -> 2 <= m -> n <> m ->
  cMatCorrect cMatrix = Raise ValueError.
Proof.
  intros HC Hn Hm Hne. unfold cMatCorrect.
  destruct HC as [Hlen Hrows]. rewrite Hlen.
  rewrite (repeat_rows_tabulate n cMatrix Hlen).
  assert (Hc1 : map (fun x => div x (of_nat n)) (sum_axis0 cMatrix)
                = map (fun j => div (col_sum cMatrix j) (of_nat n)) (seq 0 m)).
  { unfold sum_axis0. rewrite map_map.
    by rewrite (ncols_has_shape n m cMatrix (conj Hlen Hrows)) by lia. }
  rewrite Hc1.
  rewrite (tabulate_entry n m cMatrix (conj Hlen Hrows)) at 1.
  rewrite bcast2_row_vector_rect by lia. cbn [rbind].
  rewrite map_scalar_tabulate. unfold bcast2.
  destruct (has_shape_tabulate n m
              (fun i j => sub (entry cMatrix i j) (div (col_sum cMatrix j) (of_nat n))))
    as [-> _].
  destruct (has_shape_tabulate n n
              (fun i _ : nat => div (row_sum cMatrix i) (of_nat n))) as [-> _].
  rewrite bdim_same. cbn [rbind]. rewrite !ncols_tabulate by lia.
  unfold bdim.
  destruct (Nat.eqb_spec m n); [lia|].
  destruct (Nat.eqb_spec m 1); [lia|].
  destruct (Nat.eqb_spec n 1); [lia|]. done.
Qed.
End CorrectionShapes.

Lemma cMatCorrect_not_square_witness :
  cMatCorrect [[1; 2; 3]; [4; 5; 6]]%float = Raise ValueError.
Proof.
  apply (cMatCorrect_not_square 2 3 [[1; 2; 3]; [4; 5; 6]]%float).
  - split; [reflexivity|]. repeat constructor.
  - lia.
  - lia.
  - lia.
Defined.

Section ExactCorrection.
Local Open Scope Q_scope.

Lemma qsum_corrected_column {A : Type} (e r : A -> Q) (c t N : Q) (l : list A) :
  np_sum (map (fun i => e i - c / N - r i / N + t) l)
  == np_sum (map e l) - inject_Z (Z.of_nat (length l)) * (c / N)
     - np_sum (map r l) / N + inject_Z (Z.of_nat (length l)) * t.
Proof.
  induction l as [|a l IH].
  - simpl. rewrite qsum_nil. unfold Qdiv. ring.
  - cbn [map length]. rewrite !qsum_cons, IH.
    rewrite Nat2Z.inj_succ. unfold Z.succ. rewrite inject_Z_plus.
    unfold Qdiv. ring.
Qed.

(** Adding the row sums gives the grand total. *)
Lemma qsum_row_sums (C : matrix Q) :
  np_sum (map (row_sum C) (seq 0 (length C))) == sum_all C.
Proof.
  assert (Hrows : map (row_sum C) (seq 0 (length C)) = map add_reduce C).
  { unfold row_sum. symmetry. etrans; [|apply map_map].
    f_equal. symmetry. apply (map_nth_seq C []). }
  rewrite Hrows. unfold sum_all. rewrite add_reduce_exact. clear Hrows.
  induction C as [|row C IH]; cbn [map concat]; [reflexivity|].
  by rewrite qsum_cons, qsum_app, IH, add_reduce_exact.
Qed.

Lemma inject_nat_nonzero (n : nat) : (0 < n)%nat -> ~ inject_Z (Z.of_nat n) == 0.
Proof. intros Hn Heq. unfold Qeq in Heq. simpl in Heq. lia. Qed.

Lemma col_sum_tabulate (n : nat) (F : nat -> nat -> Q) (j : nat) :
  (j < n)%nat ->
  col_sum (tabulate n n F) j = np_sum (map (fun i => F i j) (seq 0 n)).
Proof.
  intros Hj. unfold col_sum, tabulate. rewrite map_map. f_equal.
  apply map_ext_in. intros i _. by apply nth_map_seq.
Qed.

Lemma row_sum_tabulate (n : nat) (F : nat -> nat -> Q) (i : nat) :
  (i < n)%nat ->
  row_sum (tabulate n n F) i == np_sum (map (fun j => F i j) (seq 0 n)).
Proof.
  intros Hi. unfold row_sum. rewrite add_reduce_exact.
  by rewrite (nth_lookup_Some _ _ _ _ (lookup_tabulate n n i F Hi)).
Qed.

Lemma row_sum_entries (n : nat) (C : matrix Q) (i : nat) :
  has_shape n n C -> (i < n)%nat ->
  np_sum (map (entry C i) (seq 0 n)) == row_sum C i.
Proof.
  intros HC Hi.
  destruct (has_shape_lookup n n C i HC Hi) as (r & Hr & Hlen).
  unfold row_sum, entry. rewrite add_reduce_exact, (nth_lookup_Some _ _ _ _ Hr).
  rewrite <- Hlen. by rewrite map_nth_seq.
Qed.

Lemma col_sum_entries (n : nat) (C : matrix Q) (j : nat) :
  has_shape n n C ->
  np_sum (map (fun i => entry C i j) (seq 0 n)) = col_sum C j.
Proof.
  intros [Hlen _]. unfold col_sum. f_equal. unfold entry.
  etrans; [symmetry; apply (map_map (fun i => nth i C []) (fun row => nth j row 0))|].
  f_equal. rewrite <- Hlen. apply (map_nth_seq C []).
Qed.

(** The sums of the corrected matrix all vanish. *)
Lemma corrected_row_sum (n : nat) (C : matrix Q) (i : nat) :
  has_shape n n C -> (i < n)%nat -> row_sum (spec_cMatCorrect n C) i == 0.
Proof.
  intros HC Hi. unfold spec_cMatCorrect. rewrite row_sum_tabulate by done.
  cbn [add sub div of_nat rational].
  rewrite qsum_corrected_row, length_seq.
  rewrite (row_sum_entries n C i HC Hi), (qsum_col_sums n n C HC).
  rewrite Nat2Z.inj_mul, inject_Z_mult.
  field. apply inject_nat_nonzero. lia.
Qed.

Lemma corrected_col_sum (n : nat) (C : matrix Q) (j : nat) :
  has_shape n n C -> (j < n)%nat -> col_sum (spec_cMatCorrect n C) j == 0.
Proof.
  intros HC Hj. unfold spec_cMatCorrect. rewrite col_sum_tabulate by done.
  cbn [add sub div of_nat rational].
  rewrite qsum_corrected_column, length_seq.
  rewrite (col_sum_entries n C j HC).
  destruct HC as [Hlen Hrows].
  pose proof (qsum_row_sums C) as Hrs. rewrite Hlen in Hrs. rewrite Hrs.
  rewrite Nat2Z.inj_mul, inject_Z_mult.
  field. apply inject_nat_nonzero. lia.
Qed.

Lemma corrected_total (n : nat) (C : matrix Q) :
  has_shape n n C -> (0 < n)%nat -> sum_all (spec_cMatCorrect n C) == 0.
Proof.
  intros HC Hn.
  destruct (has_shape_tabulate n n (fun i j : nat =>
              add (sub (sub (entry C i j) (div (col_sum C j) (of_nat n)))
                       (div (row_sum C i) (of_nat n)))
                  (div (sum_all C) (of_nat (n * n))))) as [Hlen _].
  fold (spec_cMatCorrect n C) in Hlen.
  rewrite <- qsum_row_sums, Hlen.
  assert (Hall : forall l, (forall i, i ∈ l -> (i < n)%nat) ->
            np_sum (map (row_sum (spec_cMatCorrect n C)) l) == 0).
  { induction l as [|i l IH]; intros Hl; [reflexivity|].
    cbn [map]. rewrite qsum_cons, IH by (intros; apply Hl; by right).
    rewrite corrected_row_sum by (done || apply Hl; by left). ring. }
  apply Hall. intros i Hi%elem_of_seq. lia.
Qed.
End ExactCorrection.

(** X12.  In exact arithmetic the corrected matrix has the all-ones vector
    as a null vector on both sides: every column sums to zero (as every
    row does), and so does the whole matrix. *)
Theorem cMatCorrect_exact_column_sums (n : nat) (C : matrix Q) :
  has_shape n n C -> 0 < n ->
  exists C', cMatCorrect C = Ok C' /\
             (forall j, j < n -> (col_sum C' j == 0)%Q) /\
             (sum_all C' == 0)%Q.
Proof.
  intros HC Hn. exists (spec_cMatCorrect n C).
  split; [by apply cMatCorrect_spec|]. split.
  - intros j Hj. by apply corrected_col_sum.
  - by apply corrected_total.
Qed.

Lemma cMatCorrect_exact_column_sums_witness :
  exists C', cMatCorrect [[1; 2]; [3; 5]]%Q = Ok C' /\
             (forall j, j < 2 -> (col_sum C' j == 0)%Q) /\
             (sum_all C' == 0)%Q.
Proof.
  apply (cMatCorrect_exact_column_sums 2 [[1; 2]; [3; 5]]%Q).
  - split; [reflexivity|]. repeat constructor.
  - lia.
Defined.

(** X13.  In exact arithmetic the correction keeps a symmetric matrix
    symmetric. *)
Theorem cMatCorrect_exact_symmetric (n : nat) (C : matrix Q) :
  has_shape n n C -> symmetric C ->
  exists C', cMatCorrect C = Ok C' /\
             forall i j, i < n -> j < n -> (entry C' i j == entry C' j i)%Q.
Proof.
  intros HC Hsym. exists (spec_cMatCorrect n C).
  split; [by apply cMatCorrect_spec|].
  intros i j Hi Hj. unfold spec_cMatCorrect. rewrite !entry_tabulate by done.
  assert (Hrc : forall k, k < n -> (row_sum C k == col_sum C k)%Q).
  { intros k Hk. rewrite <- (row_sum_entries n C k HC Hk), <- (col_sum_entries n C k HC).
    assert (map (entry C k) (seq 0 n) = map (fun l => entry C l k) (seq 0 n)) as ->;
      [|reflexivity].
    apply map_ext_in. intros l Hl%in_seq.
    apply (entry_symmetric n); [done..|lia]. }
  rewrite (entry_symmetric n C i j HC Hsym Hi Hj).
  cbn [add sub div of_nat rational].
  rewrite (Hrc i Hi), (Hrc j Hj). unfold Qdiv. ring.
Qed.

Lemma cMatCorrect_exact_symmetric_witness :
  exists C', cMatCorrect [[1; 2]; [2; 5]]%Q = Ok C' /\
             forall i j, i < 2 -> j < 2 -> (entry C' i j == entry C' j i)%Q.
Proof.
  apply (cMatCorrect_exact_symmetric 2 [[1; 2]; [2; 5]]%Q).
  - split; [reflexivity|]. repeat constructor.
  - intros [|[|i]] [|[|j]]; reflexivity.
Defined.

(** X14.  In exact arithmetic the correction is a projection: correcting
    a corrected matrix changes nothing. *)
Theorem cMatCorrect_exact_idempotent (n : nat) (C : matrix Q) :
  has_shape n n C -> 0 < n ->
  exists C' C'',
    cMatCorrect C = Ok C' /\ cMatCorrect C' = Ok C'' /\
    forall i j, i < n -> j < n -> (entry C'' i j == entry C' i j)%Q.
Proof.
  intros HC Hn.
  assert (HC' : has_shape n n (spec_cMatCorrect n C)) by apply has_shape_tabulate.
  exists (spec_cMatCorrect n C), (spec_cMatCorrect n (spec_cMatCorrect n C)).
  split; [by apply cMatCorrect_spec|]. split; [by apply cMatCorrect_spec|].
  intros i j Hi Hj.
  unfold spec_cMatCorrect at 1. rewrite entry_tabulate by done.
  cbn [add sub div of_nat rational].
  rewrite (corrected_col_sum n C j HC Hj), (corrected_row_sum n C i HC Hi),
    (corrected_total n C HC Hn).
  rewrite Nat2Z.inj_mul, inject_Z_mult.
  field. apply inject_nat_nonzero. lia.
Qed.

Lemma cMatCorrect_exact_idempotent_witness :
  exists C' C'',
    cMatCorrect [[1; 2]; [3; 5]]%Q = Ok C' /\ cMatCorrect C' = Ok C'' /\
    forall i j, i < 2 -> j < 2 -> (entry C'' i j == entry C' i j)%Q.
Proof.
  apply (cMatCorrect_exact_idempotent 2 [[1; 2]; [3; 5]]%Q).
  - split; [reflexivity|]. repeat constructor.
  - lia.
Defined.

(** ** RDInvert: mismatched sizes *)

(** X15.  [RDInvert] fails on operands of different sizes: with as many
    eigenvalues as the eigenvector array has columns the first [np.dot]
    goes through, with any other number it raises ValueError. *)
Theorem RDInvert_size_mismatch {T : Type} `{Dtype T} (n m : nat)
    (eigVals : list T) (eigVecs : matrix T) :
  has_shape n m eigVecs -> 0 < n -> length eigVals <> m ->
  RDInvert eigVals eigVecs = Raise ValueError.
Proof.
  intros HV Hn Hne. unfold RDInvert, np_dot at 1.
  rewrite (ncols_has_shape n m eigVecs HV Hn).
  unfold np_diag_mat. rewrite length_imap, length_map.
  destruct (Nat.eqb_spec m (length eigVals)); [lia|done].
Qed.

Lemma RDInvert_size_mismatch_witness :
  RDInvert [2; 4; 8]%float [[1; 0]; [0; 1]]%float = Raise ValueError.
Proof.
  apply (RDInvert_size_mismatch 2 2 [2; 4; 8]%float [[1; 0]; [0; 1]]%float).
  - split; [reflexivity|]. repeat constructor.
  - lia.
  - simpl. lia.
Defined.

(** ** makeCmatrix: inputs whose sizes do not fit *)

Lemma take_indices_cases (array : list float) (indices : list nat) :
  take_indices array indices = Raise IndexError \/
  exists v, take_indices array indices = Ok v.
Proof.
  unfold take_indices. induction indices as [|i l IH]; simpl; [right; by eexists|].
  destruct (array !! i) as [x|]; simpl; [|by left].
  destruct IH as [->|[v ->]]; simpl; [by left|right; by eexists].
Qed.

Lemma take_indices_out_of_bounds (array : list float) (indices : list nat) (p : nat) :
  p ∈ indices -> length array <= p -> take_indices array indices = Raise IndexError.
Proof.
  intros Hin Hlen. unfold take_indices. apply mapR_raise.
  - intros i _. destruct (array !! i); [right; by eexists|by left].
  - exists p. split; [done|]. by rewrite (proj2 (lookup_ge_None array p)).
Qed.

(** X16.  A coordinate map that does not reach an active pixel of the mask
    makes [makeCmatrix] raise IndexError when it picks the coordinates of
    the masked pixels, before anything is computed. *)
Theorem makeCmatrix_short_coordinates
    (dir2vec : float -> float -> float * float * float)
    (Wpix : list float) (gauss_beam : float -> nat -> list float)
    (mask : list bool) (C_l gl gb : list float) (highpass : nat)
    (beamSmooth pixWin : bool) (lmax : nat) (useMicro : bool) (pixel : nat) :
  mask !! pixel = Some true ->
  length gl <= pixel \/ length gb <= pixel ->
  makeCmatrix dir2vec Wpix gauss_beam mask C_l gl gb highpass beamSmooth pixWin
              lmax useMicro = Raise IndexError.
Proof.
  intros Hpix%elem_of_np_where Hshort. unfold makeCmatrix.
  destruct Hshort as [Hgl|Hgb].
  - by rewrite (take_indices_out_of_bounds gl _ pixel).
  - destruct (take_indices_cases gl (np_where mask)) as [->|[v ->]]; [done|].
    cbn [rbind]. by rewrite (take_indices_out_of_bounds gb _ pixel).
Qed.

Lemma makeCmatrix_short_coordinates_witness :
  makeCmatrix sample_dir2vec sample_Wpix sample_gauss_beam [true; false; true]
    [1; 0.5; 0.25]%float [1; 0; 0]%float [0; 0]%float 0 false false 2 false
  = Raise IndexError.
Proof.
  apply (makeCmatrix_short_coordinates sample_dir2vec sample_Wpix sample_gauss_beam
           [true; false; true] [1; 0.5; 0.25]%float [1; 0; 0]%float [0; 0]%float
           0 false false 2 false 2).
  - reflexivity.
  - right. simpl. lia.
Defined.

Lemma preFactor_beyond_spectrum (Wpix : list float)
    (gauss_beam : float -> nat -> list float) (C_l : list float)
    (highpass lmax : nat) (useMicro : bool) :
  highpass <= length C_l -> length C_l <= lmax + 1 ->
  preFactor Wpix gauss_beam C_l highpass false false lmax useMicro
  = preFactor Wpix gauss_beam C_l highpass false false (length C_l - 1) useMicro.
Proof.
  intros Hhp Hlmax. unfold preFactor. cbn [smoothing].
  assert (Hlen : length (replicate highpass 0%float ++ drop highpass C_l) = length C_l).
  { rewrite length_app, length_replicate, length_drop. lia. }
  rewrite !(take_ge (seq 0 (length C_l))) by (rewrite length_seq; lia).
  set (Cl' := if useMicro then _ else _).
  assert (Hlen' : length Cl' = length C_l).
  { unfold Cl'. destruct useMicro; [rewrite length_map|]; done. }
  by rewrite !(take_ge Cl') by lia.
Qed.

(** X17.  Without beam and pixel-window smoothing an [lmax] beyond the end
    of the power spectrum is silently cut to the last multipole the
    spectrum has: the matrix is the one for lmax = len(C_l) - 1. *)
Theorem makeCmatrix_lmax_beyond_spectrum
    (dir2vec : float -> float -> float * float * float)
    (Wpix : list float) (gauss_beam : float -> nat -> list float)
    (mask : list bool) (C_l gl gb : list float) (highpass lmax : nat)
    (useMicro : bool) :
  highpass <= length C_l -> length C_l <= lmax + 1 ->
  makeCmatrix dir2vec Wpix gauss_beam mask C_l gl gb highpass false false lmax useMicro
  = makeCmatrix dir2vec Wpix gauss_beam mask C_l gl gb highpass false false
                (length C_l - 1) useMicro.
Proof.
  intros Hhp Hlmax. unfold makeCmatrix.
  by rewrite (preFactor_beyond_spectrum Wpix gauss_beam C_l highpass lmax useMicro).
Qed.

Lemma makeCmatrix_lmax_beyond_spectrum_witness :
  makeCmatrix sample_dir2vec sample_Wpix sample_gauss_beam [true; true]
    [1; 0.5; 0.25]%float [1; 0]%float [0; 1]%float 1 false false 2000 false
  = makeCmatrix sample_dir2vec sample_Wpix sample_gauss_beam [true; true]
    [1; 0.5; 0.25]%float [1; 0]%float [0; 1]%float 1 false false
    (length [1; 0.5; 0.25]%float - 1) false.
Proof.
  apply (makeCmatrix_lmax_beyond_spectrum sample_dir2vec sample_Wpix sample_gauss_beam
           [true; true] [1; 0.5; 0.25]%float [1; 0]%float [0; 1]%float 1 2000 false).
  - simpl. lia.
  - simpl. lia.
Defined.

Lemma factor_mul_mismatch (v w : list float) :
  length v <> length w -> length v <> 1 -> length w <> 1 ->
  factor_mul v (Vector w) = Raise ValueError.
Proof.
  intros Hne Hv Hw. unfold factor_mul, bdim.
  destruct (Nat.eqb_spec (length v) (length w)); [lia|].
  destruct (Nat.eqb_spec (length v) 1); [lia|].
  destruct (Nat.eqb_spec (length w) 1); [lia|]. done.
Qed.

Lemma preFactor_short_spectrum (Wpix : list float)
    (gauss_beam : float -> nat -> list float) (C_l : list float)
    (highpass : nat) (beamSmooth pixWin : bool) (lmax : nat) (useMicro : bool) :
  beamSmooth = true \/ pixWin = true ->
  (pixWin = true -> 251 <= length Wpix) ->
  (beamSmooth = true -> length (gauss_beam (120 / 60 * np_pi / 180)%float 250) = 251) ->
  length C_l <= 250 -> length C_l <> 1 ->
  preFactor Wpix gauss_beam C_l highpass beamSmooth pixWin lmax useMicro
  = Raise ValueError.
Proof.
  intros Hflag HW HB Hshort Hone. unfold preFactor.
  assert (Hfac : forall (f : nat -> float),
            length (map f (take (250 + 1) (seq 0 (length C_l)))) = length C_l).
  { intros f. rewrite length_map, length_take, length_seq. lia. }
  destruct beamSmooth.
  - assert (Hsm : smoothing Wpix gauss_beam pixWin true lmax
                  = (250, (smoothing Wpix gauss_beam pixWin true lmax).1.2,
                     Vector (gauss_beam (120 / 60 * np_pi / 180)%float 250)))
      by (by destruct pixWin).
    rewrite Hsm. cbn [factor_sq].
    rewrite factor_mul_mismatch; [done|..].
    + rewrite Hfac, length_map, HB by done. lia.
    + by rewrite Hfac.
    + rewrite length_map, HB by done. lia.
  - destruct pixWin; [|by destruct Hflag].
    cbn [smoothing factor_sq].
    change (factor_mul ?v (Scalar ?x)) with (Ok (map (fun a => (a * x)%float) v)).
    cbn [rbind].
    rewrite factor_mul_mismatch; [done|..].
    + rewrite length_map, Hfac, length_map, length_take.
      specialize (HW eq_refl). lia.
    + by rewrite length_map, Hfac.
    + rewrite length_map, length_take. specialize (HW eq_refl). lia.
Qed.

Lemma makeCmatrix_upto_preFactor
    (dir2vec : float -> float -> float * float * float)
    (Wpix : list float) (gauss_beam : float -> nat -> list float)
    (mask : list bool) (C_l gl gb : list float) (highpass : nat)
    (beamSmooth pixWin : bool) (lmax : nat) (useMicro : bool) :
  length mask <= length gl -> length mask <= length gb ->
  makeCmatrix dir2vec Wpix gauss_beam mask C_l gl gb highpass beamSmooth pixWin
              lmax useMicro
  = do preFac_l <- preFactor Wpix gauss_beam C_l highpass beamSmooth pixWin lmax useMicro;
    do covArray <- covUpper (tabulate (length (np_where mask)) (length (np_where mask))
                               (upper_of (cos_entry (unit_vectors dir2vec mask gl gb))))
                            preFac_l (length (np_where mask));
    do t <- bcast2 add covArray (transpose covArray);
    bcast2 sub t (np_diag_mat (np_diag_vec covArray)).
Proof.
  intros Hgl Hgb. unfold makeCmatrix.
  rewrite !take_indices_ok
    by (eapply Forall_impl; [apply np_where_bound|]; simpl; lia).
  cbn [rbind]. rewrite length_map. fold (unit_vectors dir2vec mask gl gb).
  rewrite cosTheta_tabulate
    by (unfold unit_vectors; rewrite length_zip_with, !length_map; lia).
  done.
Qed.

(** X18.  With beam or pixel-window smoothing the power spectrum must
    reach multipole 250: a spectrum of at most 250 entries (other than a
    single one) does not broadcast against the 251 entries of the beam or
    window table, and [makeCmatrix] raises ValueError. *)
Theorem makeCmatrix_smoothing_short_spectrum
    (dir2vec : float -> float -> float * float * float)
    (Wpix : list float) (gauss_beam : float -> nat -> list float)
    (mask : list bool) (C_l gl gb : list float) (highpass : nat)
    (beamSmooth pixWin : bool) (lmax : nat) (useMicro : bool) :
  beamSmooth = true \/ pixWin = true ->
  (pixWin = true -> 251 <= length Wpix) ->
  (beamSmooth = true -> length (gauss_beam (120 / 60 * np_pi / 180)%float 250) = 251) ->
  length mask <= length gl -> length mask <= length gb ->
  length C_l <= 250 -> length C_l <> 1 ->
  makeCmatrix dir2vec Wpix gauss_beam mask C_l gl gb highpass beamSmooth pixWin
              lmax useMicro = Raise ValueError.
Proof.
  intros Hflag HW HB Hgl Hgb Hshort Hone.
  rewrite makeCmatrix_upto_preFactor by done.
  by rewrite preFactor_short_spectrum.
Qed.

Lemma makeCmatrix_smoothing_short_spectrum_witness :
  makeCmatrix sample_dir2vec sample_Wpix sample_gauss_beam [true; true]
    (replicate 200 1%float) [1; 0]%float [0; 1]%float 0 false true 2000 false
  = Raise ValueError.
Proof.
  apply (makeCmatrix_smoothing_short_spectrum sample_dir2vec sample_Wpix
           sample_gauss_beam [true; true] (replicate 200 1%float)
           [1; 0]%float [0; 1]%float 0 false true 2000 false).
  - by right.
  - intros _. unfold sample_Wpix. rewrite length_replicate. lia.
  - discriminate.
  - simpl. lia.
  - simpl. lia.
  - rewrite length_replicate. lia.
  - rewrite length_replicate. lia.
Defined.

(** X19.  A mask without an active pixel gives the empty matrix, on any
    otherwise valid input. *)
Theorem makeCmatrix_empty_mask
    (dir2vec : float -> float -> float * float * float)
    (Wpix : list float) (gauss_beam : float -> nat -> list float)
    (mask : list bool) (C_l gl gb : list float) (highpass : nat)
    (beamSmooth pixWin : bool) (lmax : nat) (useMicro : bool) :
  valid_input Wpix gauss_beam mask C_l gl gb beamSmooth pixWin lmax ->
  (forall pixel, mask !! pixel <> Some true) ->
  makeCmatrix dir2vec Wpix gauss_beam mask C_l gl gb highpass beamSmooth pixWin
              lmax useMicro = Ok [].
Proof.
  intros Hvalid Hnone.
  destruct (makeCmatrix_spec dir2vec Wpix gauss_beam mask C_l gl gb highpass
              beamSmooth pixWin lmax useMicro Hvalid) as (preFac_l & _ & _ & ->).
  assert (np_where mask = []) as ->; [|done].
  destruct (np_where mask) as [|p l] eqn:E; [done|].
  assert (p ∈ np_where mask) as Hp%elem_of_np_where by (rewrite E; left).
  by apply Hnone in Hp.
Qed.

Lemma makeCmatrix_empty_mask_witness :
  makeCmatrix sample_dir2vec sample_Wpix sample_gauss_beam [false; false]
    [1; 0.5; 0.25]%float [1; 0]%float [0; 1]%float 0 false false 2 false = Ok [].
Proof.
  apply (makeCmatrix_empty_mask sample_dir2vec sample_Wpix sample_gauss_beam
           [false; false] [1; 0.5; 0.25]%float [1; 0]%float [0; 1]%float
           0 false false 2 false).
  - unfold valid_input. simpl. repeat split; (lia || discriminate).
  - intros [|[|p]]; simpl; discriminate.
Defined.

(** X20.  An empty power spectrum (no smoothing, no highpass) leaves no
    coefficient for the Legendre series: for a mask with an active pixel
    [legval] fails on the first entry and [makeCmatrix] raises
    IndexError. *)
Theorem makeCmatrix_empty_spectrum
    (dir2vec : float -> float -> float * float * float)
    (Wpix : list float) (gauss_beam : float -> nat -> list float)
    (mask : list bool) (gl gb : list float) (lmax : nat) (useMicro : bool)
    (pixel : nat) :
  length mask <= length gl -> length mask <= length gb ->
  mask !! pixel = Some true ->
  makeCmatrix dir2vec Wpix gauss_beam mask [] gl gb 0 false false lmax useMicro
  = Raise IndexError.
Proof.
  intros Hgl Hgb Hpix%elem_of_np_where.
  rewrite makeCmatrix_upto_preFactor by done.
  assert (Hpre : preFactor Wpix gauss_beam [] 0 false false lmax useMicro = Ok []).
  { unfold preFactor. cbn [smoothing length seq]. rewrite take_nil.
    cbn [map factor_sq factor_mul rbind replicate drop app].
    destruct useMicro; cbn [map]; rewrite take_nil; reflexivity. }
  rewrite Hpre. cbn [rbind].
  assert (Hn : 0 < length (np_where mask)).
  { destruct (np_where mask); [by apply elem_of_nil in Hpix|simpl; lia]. }
  unfold covUpper. rewrite (py_range_cons 0) by done. cbn [for_each].
  rewrite (py_range_cons 0) by done. cbn [for_each].
  rewrite getitem2_tabulate by done. done.
Qed.

Lemma makeCmatrix_empty_spectrum_witness :
  makeCmatrix sample_dir2vec sample_Wpix sample_gauss_beam [true; true] []
    [1; 0]%float [0; 1]%float 0 false false 2 false = Raise IndexError.
Proof.
  apply (makeCmatrix_empty_spectrum sample_dir2vec sample_Wpix sample_gauss_beam
           [true; true] [1; 0]%float [0; 1]%float 2 false 0).
  - simpl. lia.
  - simpl. lia.
  - reflexivity.
Defined.

(** ** The chi-square loop *)

Section ChiSquare.
Context {T : Type} `{Dtype T}.

Lemma take_at_ok (array : list T) (indices : list nat) :
  Forall (fun i => i < length array) indices ->
  take_at array indices = Ok (map (fun i => nth i array zero) indices).
Proof.
  intros Hb. unfold take_at. apply mapR_ok. intros i Hi.
  rewrite Forall_forall in Hb. apply Hb in Hi.
  destruct (lookup_lt_is_Some_2 array i Hi) as [x Hx].
  by rewrite Hx, (nth_lookup_Some _ _ _ _ Hx).
Qed.

Lemma take_at_mask (mask : list bool) (map_ : list T) :
  length mask <= length map_ ->
  take_at map_ (np_where mask)
  = Ok (map (fun i => nth i map_ zero) (np_where mask)).
Proof.
  intros Hlen. apply take_at_ok.
  eapply Forall_impl; [apply np_where_bound|]. simpl. lia.
Qed.

Lemma length_scaled (useMicro : bool) (Tvec : list T) :
  length (if useMicro then map (fun t => mul t micro_scale) Tvec else Tvec)
  = length Tvec.
Proof. destruct useMicro; [apply length_map|done]. Qed.

(** X21.  A sky map that does not reach an active pixel of the mask makes
    the trial raise IndexError at [map[np.where(mask)]], whatever the
    inverse covariance matrix is. *)
Theorem chiSq_trial_map_too_short (invCMat : matrix T) (mask : list bool)
    (useMicro : bool) (map_ : list T) (pixel : nat) :
  mask !! pixel = Some true -> length map_ <= pixel ->
  chiSq_trial invCMat mask useMicro map_ = Raise IndexError.
Proof.
  intros Hpix%elem_of_np_where Hlen. unfold chiSq_trial, take_at.
  rewrite (mapR_raise _ (np_where mask) IndexError); [done|..].
  - intros i _. destruct (map_ !! i); [right; by eexists|by left].
  - exists pixel. split; [done|]. by rewrite (proj2 (lookup_ge_None map_ pixel)).
Qed.

(** X22.  An inverse covariance matrix whose shape is not (k, k) for the
    number k of active pixels makes the trial raise ValueError in one of
    its two [np.dot] calls. *)
Theorem chiSq_trial_size_mismatch (n m : nat) (invCMat : matrix T)
    (mask : list bool) (useMicro : bool) (map_ : list T) :
  has_shape n m invCMat -> 0 < n ->
  length mask <= length map_ ->
  ~ (n = length (np_where mask) /\ m = length (np_where mask)) ->
  chiSq_trial invCMat mask useMicro map_ = Raise ValueError.
Proof.
  intros HM Hn Hlen Hne. unfold chiSq_trial.
  rewrite take_at_mask by done. cbn [rbind].
  set (Tvec := if useMicro then _ else _).
  assert (HT : length Tvec = length (np_where mask)).
  { unfold Tvec. by rewrite length_scaled, length_map. }
  unfold np_dot_mv. rewrite (ncols_has_shape n m) by done. rewrite HT.
  destruct (Nat.eqb_spec m (length (np_where mask))) as [Hm|Hm]; [|done].
  cbn [rbind]. unfold np_dot_vv. rewrite length_map, HT.
  destruct HM as [HM _]. rewrite HM.
  destruct (Nat.eqb_spec (length (np_where mask)) n); [lia|done].
Qed.

Lemma chiSq_trial_fits (invCMat : matrix T) (mask : list bool) (useMicro : bool)
    (map_ : list T) :
  has_shape (length (np_where mask)) (length (np_where mask)) invCMat ->
  length mask <= length map_ ->
  exists chiSq, chiSq_trial invCMat mask useMicro map_ = Ok chiSq.
Proof.
  intros HM Hlen. unfold chiSq_trial.
  rewrite take_at_mask by done. cbn [rbind].
  set (Tvec := if useMicro then _ else _).
  assert (HT : length Tvec = length (np_where mask)).
  { unfold Tvec. by rewrite length_scaled, length_map. }
  unfold np_dot_mv.
  assert (Hc : ncols invCMat = length Tvec).
  { destruct (decide (length (np_where mask) = 0)) as [H0|H0].
    - destruct HM as [HM _]. rewrite H0 in HM.
      destruct invCMat; [|done]. simpl. lia.
    - rewrite (ncols_has_shape _ _ _ HM) by lia. done. }
  rewrite Hc, Nat.eqb_refl. cbn [rbind]. unfold np_dot_vv.
  destruct HM as [HM _]. rewrite length_map, HM, HT, Nat.eqb_refl.
  by eexists.
Qed.

(** X23.  When the inverse covariance matrix is (k, k) for the k active
    pixels and every sky map covers the mask, no trial raises and the loop
    leaves exactly one chi-square value per map. *)
Theorem chiSq_loop_one_result_per_map (invCMat : matrix T) (mask : list bool)
    (useMicro : bool) (maps : list (list T)) :
  has_shape (length (np_where mask)) (length (np_where mask)) invCMat ->
  Forall (fun map_ => length mask <= length map_) maps ->
  exists chiSqResults,
    chiSq_loop invCMat mask useMicro maps = Ok chiSqResults /\
    length chiSqResults = length maps.
Proof.
  intros HM Hmaps. unfold chiSq_loop.
  destruct (mapR_total (chiSq_trial invCMat mask useMicro) maps) as [res Hres].
  - intros map_ Hin. rewrite Forall_forall in Hmaps.
    apply chiSq_trial_fits; [done|by apply Hmaps].
  - exists res. split; [done|].
    apply mapR_Forall2 in Hres. symmetry. by eapply Forall2_length.
Qed.
End ChiSquare.

Lemma chiSq_trial_map_too_short_witness :
  chiSq_trial [[1; 0]; [0; 1]]%float [true; false; true] false [1; 2]%float
  = Raise IndexError.
Proof.
  apply (chiSq_trial_map_too_short [[1; 0]; [0; 1]]%float [true; false; true]
           false [1; 2]%float 2).
  - reflexivity.
  - simpl. lia.
Defined.

Lemma chiSq_trial_size_mismatch_witness :
  chiSq_trial [[1; 0; 0]; [0; 1; 0]; [0; 0; 1]]%float [true; false; true] false
    [1; 2; 3]%float = Raise ValueError.
Proof.
  apply (chiSq_trial_size_mismatch 3 3 [[1; 0; 0]; [0; 1; 0]; [0; 0; 1]]%float
           [true; false; true] false [1; 2; 3]%float).
  - split; [reflexivity|]. repeat constructor.
  - lia.
  - simpl. lia.
  - simpl. lia.
Defined.

Lemma chiSq_loop_one_result_per_map_witness :
  exists chiSqResults,
    chiSq_loop [[1; 0]; [0; 1]]%float [true; false; true] false
      [[1; 2; 3]; [4; 5; 6]]%float = Ok chiSqResults /\
    length chiSqResults = 2.
Proof.
  apply (chiSq_loop_one_result_per_map [[1; 0]; [0; 1]]%float [true; false; true]
           false [[1; 2; 3]; [4; 5; 6]]%float).
  - split; [reflexivity|]. repeat constructor.
  - repeat constructor.
Defined.

(** ** Exact arithmetic: scaling and matrix products at the rationals *)

Section ExactProducts.
Local Open Scope Q_scope.

Lemma qsum_zip_scale (c d : Q) (u u' v v' : list Q) :
  Forall2 (fun x x' => x' == c * x) u u' ->
  Forall2 (fun y y' => y' == d * y) v v' ->
  np_sum (zip_with Qmult u' v') == c * d * np_sum (zip_with Qmult u v).
Proof.
  intros Hu. revert v v'.
  induction Hu as [|x x' u u' Hx Hu IH]; intros v v' Hv.
  - simpl. rewrite qsum_nil. ring.
  - destruct Hv as [|y y' v v' Hy Hv]; simpl.
    + rewrite qsum_nil. ring.
    + rewrite !qsum_cons, (IH _ _ Hv), Hx, Hy. ring.
Qed.

(** X24.  In exact arithmetic the conversion to microkelvin multiplies the
    chi-square of a trial by 10^12: the trial with [useMicro] succeeds
    whenever the one without does, with that multiple as its value. *)
Theorem chiSq_trial_micro_scaling (invCMat : matrix Q) (mask : list bool)
    (map_ : list Q) (chiSq : Q) :
  chiSq_trial invCMat mask false map_ = Ok chiSq ->
  exists chiSqMicro,
    chiSq_trial invCMat mask true map_ = Ok chiSqMicro /\
    chiSqMicro == inject_Z (10 ^ 12) * chiSq.
Proof.
  unfold chiSq_trial.
  destruct (take_at map_ (np_where mask)) as [Tvec|e]; cbn [rbind]; [|done].
  unfold np_dot_mv. rewrite length_map.
  destruct (ncols invCMat =? length Tvec); cbn [rbind]; [|done].
  unfold np_dot_vv. rewrite !length_map.
  destruct (length Tvec =? length invCMat); [|done].
  intros [= <-]. eexists. split; [done|].
  change (@mul Q rational) with Qmult.
  rewrite (qsum_zip_scale micro_scale micro_scale Tvec _
             (map (fun row => np_sum (zip_with Qmult row Tvec)) invCMat)).
  - assert (Hs : micro_scale * micro_scale == inject_Z (10 ^ 12)) by reflexivity.
    by rewrite Hs.
  - apply Forall2_fmap_r, Forall_Forall2_diag, Forall_forall.
    intros x _. simpl. ring.
  - apply Forall2_fmap, Forall_Forall2_diag, Forall_forall.
    intros row _.
    rewrite (qsum_zip_scale 1 micro_scale row row Tvec).
    + ring.
    + apply Forall_Forall2_diag, Forall_forall. intros x _. ring.
    + apply Forall2_fmap_r, Forall_Forall2_diag, Forall_forall.
      intros x _. simpl. ring.
Qed.


(** *** Finite sums and matrix products *)

Lemma qsum_ext_in {A : Type} (f g : A -> Q) (l : list A) :
  (forall a, a ∈ l -> f a == g a) -> np_sum (map f l) == np_sum (map g l).
Proof.
  induction l as [|a l IH]; intros Hfg; simpl; [reflexivity|].
  rewrite !qsum_cons, IH, (Hfg a) by (try left; intros; apply Hfg; by right).
  reflexivity.
Qed.

Lemma qsum_zero {A : Type} (f : A -> Q) (l : list A) :
  (forall a, a ∈ l -> f a == 0) -> np_sum (map f l) == 0.
Proof.
  induction l as [|a l IH]; intros Hf; simpl; [reflexivity|].
  rewrite qsum_cons, IH, (Hf a) by (try left; intros; apply Hf; by right).
  ring.
Qed.

Lemma qsum_scale_l {A : Type} (c : Q) (f : A -> Q) (l : list A) :
  np_sum (map (fun a => c * f a) l) == c * np_sum (map f l).
Proof.
  induction l as [|a l IH]; simpl; [rewrite qsum_nil; ring|].
  rewrite !qsum_cons, IH. ring.
Qed.

Lemma qsum_scale_r {A : Type} (c : Q) (f : A -> Q) (l : list A) :
  np_sum (map (fun a => f a * c) l) == np_sum (map f l) * c.
Proof.
  induction l as [|a l IH]; simpl; [rewrite qsum_nil; ring|].
  rewrite !qsum_cons, IH. ring.
Qed.

Lemma qsum_swap {A B : Type} (f : A -> B -> Q) (l1 : list A) (l2 : list B) :
  np_sum (map (fun a => np_sum (map (fun b => f a b) l2)) l1)
  == np_sum (map (fun b => np_sum (map (fun a => f a b) l1)) l2).
Proof.
  induction l1 as [|a l1 IH]; simpl.
  - rewrite qsum_nil. symmetry. apply qsum_zero. intros b _. apply qsum_nil.
  - rewrite qsum_cons, IH, <- qsum_map_plus.
    apply qsum_ext. intros b. by rewrite qsum_cons.
Qed.

(** A sum with a single term that is not zero. *)
Lemma qsum_pick (n j : nat) (F : nat -> Q) :
  (j < n)%nat -> (forall k, k <> j -> F k == 0) ->
  np_sum (map F (seq 0 n)) == F j.
Proof.
  intros Hj HF. induction n as [|n IH]; [lia|].
  rewrite seq_S, map_app, qsum_app. cbn [map Nat.add]. rewrite qsum_cons, qsum_nil.
  destruct (decide (j = n)) as [->|Hne].
  - rewrite qsum_zero; [ring|].
    intros k Hk%elem_of_seq. apply HF. lia.
  - rewrite IH, (HF n) by lia. ring.
Qed.

Lemma meq_refl (n : nat) (A : nat -> nat -> Q) : meq n A A.
Proof. intros i j _ _. reflexivity. Qed.

Lemma meq_sym (n : nat) (A B : nat -> nat -> Q) : meq n A B -> meq n B A.
Proof. intros HAB i j Hi Hj. symmetry. by apply HAB. Qed.

Lemma meq_trans (n : nat) (A B C : nat -> nat -> Q) :
  meq n A B -> meq n B C -> meq n A C.
Proof.
  intros HAB HBC i j Hi Hj. transitivity (B i j); [by apply HAB|by apply HBC].
Qed.

Lemma matmul_ext (n : nat) (A A' B B' : nat -> nat -> Q) :
  meq n A A' -> meq n B B' -> meq n (spec_matmul n A B) (spec_matmul n A' B').
Proof.
  intros HA HB i j Hi Hj. unfold spec_matmul.
  apply qsum_ext_in. intros k Hk%elem_of_seq. simpl.
  assert (Ha : A i k == A' i k) by (apply HA; lia).
  assert (Hb : B k j == B' k j) by (apply HB; lia).
  by rewrite Ha, Hb.
Qed.

Lemma matmul_assoc (n : nat) (A B C : nat -> nat -> Q) :
  meq n (spec_matmul n (spec_matmul n A B) C) (spec_matmul n A (spec_matmul n B C)).
Proof.
  intros i j _ _. unfold spec_matmul. simpl.
  rewrite (qsum_ext _ (fun k => np_sum (map (fun l => A i l * B l k * C k j) (seq 0 n))))
    by (intros k; symmetry; apply qsum_scale_r).
  rewrite qsum_swap. apply qsum_ext. intros l.
  rewrite <- qsum_scale_l. apply qsum_ext. intros k. ring.
Qed.

Lemma matmul_delta_l (n : nat) (A : nat -> nat -> Q) :
  meq n (spec_matmul n delta A) A.
Proof.
  intros i j Hi Hj. unfold spec_matmul. simpl.
  rewrite (qsum_pick n i) by
    (try done; intros k Hk; unfold delta; rewrite decide_False by done; ring).
  unfold delta. rewrite decide_True by done. ring.
Qed.

Lemma matmul_delta_r (n : nat) (A : nat -> nat -> Q) :
  meq n (spec_matmul n A delta) A.
Proof.
  intros i j Hi Hj. unfold spec_matmul. simpl.
  rewrite (qsum_pick n j) by
    (try done; intros k Hk; unfold delta; rewrite decide_False by done; ring).
  unfold delta. rewrite decide_True by done. ring.
Qed.

(** Multiplying by a diagonal matrix scales the columns, or the rows. *)
Lemma matmul_diag_r (n : nat) (A d : nat -> nat -> Q) (h : nat -> Q) :
  (forall l k, d l k = if decide (l = k) then h l else 0) ->
  meq n (spec_matmul n A d) (fun i k => A i k * h k).
Proof.
  intros Hd i j Hi Hj. unfold spec_matmul. simpl.
  rewrite (qsum_pick n j) by
    (try done; intros k Hk; rewrite Hd, decide_False by done; ring).
  rewrite Hd, decide_True by done. reflexivity.
Qed.

Lemma matmul_diag_l (n : nat) (A d : nat -> nat -> Q) (h : nat -> Q) :
  (forall l k, d l k = if decide (l = k) then h l else 0) ->
  meq n (spec_matmul n d A) (fun l j => h l * A l j).
Proof.
  intros Hd i j Hi Hj. unfold spec_matmul. simpl.
  rewrite (qsum_pick n i) by
    (try done; intros k Hk; rewrite Hd, decide_False by done; ring).
  rewrite Hd, decide_True by done. reflexivity.
Qed.


#[local] Instance meq_equivalence (n : nat) : Equivalence (meq n).
Proof.
  split.
  - intros A. apply meq_refl.
  - intros A B. apply meq_sym.
  - intros A B C. apply meq_trans.
Qed.

#[local] Instance matmul_proper (n : nat) :
  Proper (meq n ==> meq n ==> meq n) (spec_matmul n).
Proof. intros A A' HA B B' HB. by apply matmul_ext. Qed.

#[local] Instance transposed_proper (n : nat) :
  Proper (meq n ==> meq n) transposed.
Proof. intros A A' HA i j Hi Hj. unfold transposed. by apply HA. Qed.

Lemma transposed_delta (n : nat) : meq n (transposed delta) delta.
Proof.
  intros i j _ _. unfold transposed, delta.
  repeat case_decide; try reflexivity; congruence.
Qed.

Lemma matmul_transposed (n : nat) (A B : nat -> nat -> Q) :
  meq n (spec_matmul n (transposed A) (transposed B)) (transposed (spec_matmul n B A)).
Proof.
  intros i j _ _. unfold transposed, spec_matmul. simpl.
  apply qsum_ext. intros k. ring.
Qed.

(** The product of the diagonal matrix of the eigenvalues and the one of
    their reciprocals, in either order. *)
Lemma diag_of_inverse (n : nat) (eigVals : list Q) :
  length eigVals = n -> Forall (fun w => ~ w == 0) eigVals ->
  meq n (spec_matmul n (diag_of eigVals) (spec_diag_inv eigVals)) delta /\
  meq n (spec_matmul n (spec_diag_inv eigVals) (diag_of eigVals)) delta.
Proof.
  intros Hlen Hnz.
  assert (Hw : forall l, (l < n)%nat -> ~ nth l eigVals 0 == 0).
  { intros l Hl. rewrite Forall_forall in Hnz.
    destruct (lookup_lt_is_Some_2 eigVals l) as [w Hw]; [lia|].
    rewrite (nth_lookup_Some _ _ _ _ Hw). apply Hnz.
    by apply list_elem_of_lookup_2 in Hw. }
  split.
  - rewrite (matmul_diag_l n _ (diag_of eigVals) (fun l => nth l eigVals 0))
      by done.
    intros i j Hi Hj. unfold spec_diag_inv, delta. simpl.
    case_decide; [|ring]. field. by apply Hw.
  - rewrite (matmul_diag_r n _ (diag_of eigVals) (fun l => nth l eigVals 0))
      by (intros l k; unfold diag_of; repeat case_decide; congruence).
    intros i j Hi Hj. unfold spec_diag_inv, delta. simpl.
    case_decide; [|ring]. subst. field. by apply Hw.
Qed.

Lemma entry_tabulate_meq (n : nat) (f : nat -> nat -> Q) :
  meq n (entry (tabulate n n f)) f.
Proof. intros i j Hi Hj. by rewrite entry_tabulate. Qed.

(** X25.  In exact arithmetic [RDInvert] inverts: for an orthogonal matrix
    V of eigenvectors and eigenvalues that are not zero, the array it
    returns is a two-sided inverse of C = V·diag(eigVals)·Vᵗ. *)
Theorem RDInvert_exact_inverse (n : nat) (eigVals : list Q) (eigVecs C : matrix Q) :
  length eigVals = n -> has_shape n n eigVecs ->
  Forall (fun w => ~ w == 0) eigVals ->
  meq n (spec_matmul n (entry eigVecs) (transposed (entry eigVecs))) delta ->
  meq n (spec_matmul n (transposed (entry eigVecs)) (entry eigVecs)) delta ->
  meq n (entry C)
        (spec_matmul n (spec_matmul n (entry eigVecs) (diag_of eigVals))
                     (transposed (entry eigVecs))) ->
  exists cInv,
    RDInvert eigVals eigVecs = Ok cInv /\ has_shape n n cInv /\
    meq n (spec_matmul n (entry C) (entry cInv)) delta /\
    meq n (spec_matmul n (entry cInv) (entry C)) delta.
Proof.
  intros Hlen HV Hnz HVVt HVtV HC.
  exists (spec_RDInvert n eigVals eigVecs).
  split; [by apply RDInvert_spec|].
  split; [apply has_shape_tabulate|].
  destruct (diag_of_inverse n eigVals Hlen Hnz) as [HDDi HDiD].
  unfold spec_RDInvert.
  set (V := entry eigVecs) in *. set (D := diag_of eigVals) in *.
  set (Di := spec_diag_inv eigVals) in *.
  change (fun k j : nat => V j k) with (transposed V).
  rewrite entry_tabulate_meq, HC. split.
  - rewrite (matmul_assoc n (spec_matmul n V D)).
    rewrite <- (matmul_assoc n (transposed V) (spec_matmul n V Di)).
    rewrite <- (matmul_assoc n (transposed V) V Di).
    rewrite HVtV, matmul_delta_l.
    rewrite (matmul_assoc n V D), <- (matmul_assoc n D Di).
    by rewrite HDDi, matmul_delta_l.
  - rewrite (matmul_assoc n (spec_matmul n V Di)).
    rewrite <- (matmul_assoc n (transposed V) (spec_matmul n V D)).
    rewrite <- (matmul_assoc n (transposed V) V D).
    rewrite HVtV, matmul_delta_l.
    rewrite (matmul_assoc n V Di), <- (matmul_assoc n Di D).
    by rewrite HDiD, matmul_delta_l.
Qed.

(** X26.  In exact arithmetic [choInvert] inverts, given what it asks of
    numpy: when [cholesky] returns L with C = L·Lᵗ and [inv] returns the
    two-sided inverse of L, the product [Linv.T · Linv] is a two-sided
    inverse of C. *)
Theorem choInvert_exact_inverse (cholesky inv : matrix Q -> result (matrix Q))
    (n : nat) (C L Linv : matrix Q) :
  cholesky C = Ok L -> inv L = Ok Linv ->
  has_shape n n L -> has_shape n n Linv ->
  meq n (entry C) (spec_matmul n (entry L) (transposed (entry L))) ->
  meq n (spec_matmul n (entry L) (entry Linv)) delta ->
  meq n (spec_matmul n (entry Linv) (entry L)) delta ->
  exists cMatInv,
    choInvert cholesky inv C = Ok cMatInv /\ has_shape n n cMatInv /\
    meq n (spec_matmul n (entry C) (entry cMatInv)) delta /\
    meq n (spec_matmul n (entry cMatInv) (entry C)) delta.
Proof.
  intros Hcho Hinv HL HLi HC HLLi HLiL.
  exists (tabulate n n (spec_matmul n (transposed (entry Linv)) (entry Linv))).
  split.
  { unfold choInvert. rewrite Hcho. cbn [rbind]. rewrite Hinv. cbn [rbind].
    rewrite (tabulate_entry n n Linv HLi) at 1 2.
    by rewrite transpose_tabulate, np_dot_tabulate. }
  split; [apply has_shape_tabulate|].
  set (A := entry L) in *. set (B := entry Linv) in *.
  rewrite entry_tabulate_meq, HC. split.
  - rewrite (matmul_assoc n A), <- (matmul_assoc n (transposed A)).
    rewrite matmul_transposed, HLiL, transposed_delta, matmul_delta_l.
    done.
  - rewrite (matmul_assoc n (transposed B)), <- (matmul_assoc n B A).
    rewrite HLiL, matmul_delta_l.
    by rewrite matmul_transposed, HLLi, transposed_delta.
Qed.

End ExactProducts.

Lemma chiSq_trial_micro_scaling_witness :
  exists chiSqMicro,
    chiSq_trial [[2; 1]; [1; 3]]%Q [true; false; true] true [1; 5; -2]%Q
    = Ok chiSqMicro /\
    (chiSqMicro == inject_Z (10 ^ 12) * 10)%Q.
Proof.
  apply (chiSq_trial_micro_scaling [[2; 1]; [1; 3]]%Q [true; false; true]
           [1; 5; -2]%Q 10).
  reflexivity.
Defined.

Lemma RDInvert_exact_inverse_witness :
  exists cInv,
    RDInvert [2; 5]%Q [[3 # 5; 4 # 5]; [-4 # 5; 3 # 5]]%Q = Ok cInv /\
    has_shape 2 2 cInv /\
    meq 2 (spec_matmul 2 (entry [[98 # 25; 36 # 25]; [36 # 25; 77 # 25]]%Q)
                       (entry cInv)) delta /\
    meq 2 (spec_matmul 2 (entry cInv)
                       (entry [[98 # 25; 36 # 25]; [36 # 25; 77 # 25]]%Q)) delta.
Proof.
  apply (RDInvert_exact_inverse 2 [2; 5]%Q [[3 # 5; 4 # 5]; [-4 # 5; 3 # 5]]%Q
           [[98 # 25; 36 # 25]; [36 # 25; 77 # 25]]%Q).
  - reflexivity.
  - split; [reflexivity|]. repeat constructor.
  - repeat constructor; discriminate.
  - intros [|[|i]] [|[|j]] Hi Hj; try lia; reflexivity.
  - intros [|[|i]] [|[|j]] Hi Hj; try lia; reflexivity.
  - intros [|[|i]] [|[|j]] Hi Hj; try lia; reflexivity.
Defined.

Lemma choInvert_exact_inverse_witness :
  exists cMatInv,
    choInvert (fun _ => Ok [[2; 0]; [1; 2]]%Q)
              (fun _ => Ok [[1 # 2; 0]; [-1 # 4; 1 # 2]]%Q)
              [[4; 2]; [2; 5]]%Q = Ok cMatInv /\
    has_shape 2 2 cMatInv /\
    meq 2 (spec_matmul 2 (entry [[4; 2]; [2; 5]]%Q) (entry cMatInv)) delta /\
    meq 2 (spec_matmul 2 (entry cMatInv) (entry [[4; 2]; [2; 5]]%Q)) delta.
Proof.
  apply (choInvert_exact_inverse (fun _ => Ok [[2; 0]; [1; 2]]%Q)
           (fun _ => Ok [[1 # 2; 0]; [-1 # 4; 1 # 2]]%Q) 2
           [[4; 2]; [2; 5]]%Q [[2; 0]; [1; 2]]%Q
           [[1 # 2; 0]; [-1 # 4; 1 # 2]]%Q).
  - reflexivity.
  - reflexivity.
  - split; [reflexivity|]. repeat constructor.
  - split; [reflexivity|]. repeat constructor.
  - intros [|[|i]] [|[|j]] Hi Hj; try lia; reflexivity.
  - intros [|[|i]] [|[|j]] Hi Hj; try lia; reflexivity.
  - intros [|[|i]] [|[|j]] Hi Hj; try lia; reflexivity.
Defined.

(** ** What legval computes *)

Lemma clenshaw_float (x : float) (rest : list float) (nd : nat) (c0 c1 : float) :
  clenshaw x rest nd c0 c1 = clenshaw_dtype x rest nd c0 c1.
Proof.
  revert nd c0 c1. induction rest as [|ci rest IH]; intros nd c0 c1; [done|].
  simpl. apply IH.
Qed.

Lemma legval_series_float (x : float) (c : list float) :
  legval_series x c = legval_series_dtype x c.
Proof.
  unfold legval_series, legval_series_dtype.
  destruct (rev c) as [|clast [|cprev rest]]; [done..|].
  by rewrite clenshaw_float.
Qed.

Section ExactLegval.
Local Open Scope Q_scope.

Lemma legendre_P_0 (x : Q) : legendre_P 0 x = 1.
Proof. done. Qed.

Lemma legendre_P_1 (x : Q) : legendre_P 1 x = x.
Proof. done. Qed.

Lemma legendre_pair_snd (l : nat) (x : Q) :
  (legendre_pair l x).2 = legendre_P (S l) x.
Proof.
  unfold legendre_P. simpl. by destruct (legendre_pair l x).
Qed.

Lemma legendre_P_SS (l : nat) (x : Q) :
  legendre_P (S (S l)) x
  = (inject_Z (Z.of_nat (2 * l + 3)) * x * legendre_P (S l) x
     - inject_Z (Z.of_nat (l + 1)) * legendre_P l x)
    / inject_Z (Z.of_nat (l + 2)).
Proof.
  rewrite <- (legendre_pair_snd (S l)), <- (legendre_pair_snd l).
  unfold legendre_P. cbn [legendre_pair].
  by destruct (legendre_pair l x).
Qed.

Lemma clenshaw_sum (x : Q) (rest : list Q) (c0 c1 : Q) :
  let r := clenshaw_dtype x rest (length rest + 2) c0 c1 in
  r.1 + r.2 * x
  == np_sum (map (fun l => nth l (rev rest) 0 * legendre_P l x)
                 (seq 0 (length rest)))
     + c0 * legendre_P (length rest) x + c1 * legendre_P (S (length rest)) x.
Proof.
  revert c0 c1. induction rest as [|ci rest IH]; intros c0 c1.
  - cbn. ring.
  - cbn [clenshaw_dtype length].
    replace (S (length rest) + 2 - 1)%nat with (length rest + 2)%nat by lia.
    cbv zeta. rewrite IH. clear IH.
    rewrite seq_S, map_app, qsum_app. cbn [map Nat.add rev].
    rewrite qsum_cons, qsum_nil.
    rewrite app_nth2, length_rev, Nat.sub_diag by (rewrite length_rev; lia).
    cbn [nth].
    rewrite (qsum_ext_in (fun l => nth l (rev rest ++ [ci]) 0 * legendre_P l x)
               (fun l => nth l (rev rest) 0 * legendre_P l x)).
    2:{ intros l Hl%elem_of_seq. rewrite app_nth1 by (rewrite length_rev; lia).
        reflexivity. }
    rewrite legendre_P_SS.
    replace (length rest + 2 - 1)%nat with (length rest + 1)%nat by lia.
    replace (2 * (length rest + 2) - 1)%nat with (2 * length rest + 3)%nat by lia.
    cbn [sub add mul div of_nat rational].
    field. unfold Qeq. simpl. lia.
Qed.

Lemma legval_series_dtype_sum (x : Q) (c : list Q) :
  legval_series_dtype x c == legendre_series x c.
Proof.
  rewrite <- (rev_involutive c). generalize (rev c) as r. intros r.
  unfold legval_series_dtype, legendre_series. rewrite rev_involutive, length_rev.
  destruct r as [|clast [|cprev rest]].
  - reflexivity.
  - cbn. ring.
  - cbn [length]. replace (S (S (length rest))) with (length rest + 2)%nat by lia.
    pose proof (clenshaw_sum x rest cprev clast) as Hs. cbv zeta in Hs.
    destruct (clenshaw_dtype x rest (length rest + 2) cprev clast) as [a b].
    cbn [fst snd] in Hs. cbn [add mul rational]. rewrite Hs. clear Hs.
    replace (length rest + 2)%nat with (S (S (length rest))) by lia.
    rewrite !seq_S, !map_app, !qsum_app. cbn [map Nat.add rev].
    rewrite !qsum_cons, !qsum_nil.
    rewrite (qsum_ext_in
               (fun l => nth l ((rev rest ++ [cprev]) ++ [clast]) 0 * legendre_P l x)
               (fun l => nth l (rev rest) 0 * legendre_P l x)).
    2:{ intros l Hl%elem_of_seq.
        rewrite !app_nth1 by (rewrite ?length_app, length_rev; simpl; lia).
        reflexivity. }
    rewrite (app_nth1 (rev rest ++ [cprev]))
      by (rewrite length_app, length_rev; simpl; lia).
    rewrite (app_nth2 (rev rest)), length_rev, Nat.sub_diag
      by (rewrite length_rev; lia).
    rewrite (app_nth2 (rev rest ++ [cprev]))
      by (rewrite length_app, length_rev; simpl; lia).
    rewrite length_app, length_rev. cbn [length].
    replace (S (length rest) - (length rest + 1))%nat with 0%nat by lia.
    cbn [nth]. ring.
Qed.

(** X27.  In exact arithmetic the recurrence of [legval] returns the
    Legendre series of its coefficients: the sum of c_l·P_l(x) over the
    multipoles l below the number of coefficients. *)
Theorem legval_exact_series (x : Q) (c : list Q) :
  legval_series_dtype x c == legendre_series x c.
Proof. apply legval_series_dtype_sum. Qed.

Lemma legendre_P_at_one (l : nat) :
  legendre_P l 1 == 1 /\ legendre_P (S l) 1 == 1.
Proof.
  induction l as [|l [IH0 IH1]]; [split; reflexivity|].
  split; [done|].
  rewrite legendre_P_SS, IH0, IH1.
  assert (HA : inject_Z (Z.of_nat (2 * l + 3))
               == inject_Z (Z.of_nat (l + 1)) + inject_Z (Z.of_nat (l + 2))).
  { rewrite <- inject_Z_plus, <- Nat2Z.inj_add.
    by replace (l + 1 + (l + 2))%nat with (2 * l + 3)%nat by lia. }
  rewrite HA. field. unfold Qeq. simpl. lia.
Qed.

(** X28.  At x = 1, the cosine the loop stores on the diagonal, [legval]
    returns in exact arithmetic the sum of its coefficients: every
    Legendre polynomial is 1 there. *)
Theorem legval_exact_at_one (c : list Q) :
  legval_series_dtype 1 c == np_sum c.
Proof.
  rewrite legval_series_dtype_sum. unfold legendre_series.
  rewrite (qsum_ext_in _ (fun l => nth l c 0)).
  - by rewrite map_nth_seq.
  - intros l _. destruct (legendre_P_at_one l) as [-> _]. ring.
Qed.

End ExactLegval.

(** ** makeCmatrix followed by symSave *)

(** X29.  What [test] does with the covariance matrix: on valid input
    [makeCmatrix] returns a matrix that [symSave] accepts, and the file
    holds n(n+1)/2 values for the n active pixels of the mask. *)
Theorem makeCmatrix_then_symSave
    (dir2vec : float -> float -> float * float * float)
    (Wpix : list float) (gauss_beam : float -> nat -> list float)
    (mask : list bool) (C_l gl gb : list float) (highpass : nat)
    (beamSmooth pixWin : bool) (lmax : nat) (useMicro : bool) :
  valid_input Wpix gauss_beam mask C_l gl gb beamSmooth pixWin lmax ->
  exists covMat compact,
    makeCmatrix dir2vec Wpix gauss_beam mask C_l gl gb highpass beamSmooth pixWin
                lmax useMicro = Ok covMat /\
    symSave covMat = Ok compact /\
    length compact
    = length (np_where mask) * (length (np_where mask) + 1) / 2.
Proof.
  intros Hvalid.
  destruct (makeCmatrix_spec dir2vec Wpix gauss_beam mask C_l gl gb highpass
              beamSmooth pixWin lmax useMicro Hvalid) as (preFac_l & _ & _ & Hmk).
  eexists. eexists. split; [exact Hmk|].
  split; [apply (symSave_square (length (np_where mask))), has_shape_tabulate|].
  by rewrite length_map, length_triu_indices_div.
Qed.

Lemma makeCmatrix_then_symSave_witness :
  exists covMat compact,
    makeCmatrix sample_dir2vec sample_Wpix sample_gauss_beam [true; false; true]
      [1; 0.5; 0.25]%float [1; 0; 2]%float [0; 1; 3]%float 0 false false 2 false
    = Ok covMat /\
    symSave covMat = Ok compact /\
    length compact = length (np_where [true; false; true])
                     * (length (np_where [true; false; true]) + 1) / 2.
Proof.
  apply (makeCmatrix_then_symSave sample_dir2vec sample_Wpix sample_gauss_beam
           [true; false; true] [1; 0.5; 0.25]%float [1; 0; 2]%float
           [0; 1; 3]%float 0 false false 2 false).
  unfold valid_input. simpl. repeat split; (lia || discriminate).
Defined.
